(** * ridesim: the dispatch and simulation engine

    A shallow embedding of [backend/models.py], [backend/config.py],
    [backend/services/*.py] and [backend/simulation_engine.py].

    Python objects are mutable and shared by reference: a [RideRequest] is
    held by the request registry and by the waiting queue at the same time,
    and a [Driver] handed to the queue service is the very object stored in
    the driver list.  The embedding keeps an object store: a reference is a
    natural number, and the store maps every reference to the current field
    values of the object.  Exceptions do not roll back what was written
    before they were raised, so every operation returns the state it
    reached together with its result. *)

From stdpp Require Import base decidable option list gmap strings pretty functions.
From Stdlib Require Import ZArith Lia.

Local Open Scope Z_scope.

(** ** models.py *)

Inductive DriverStatus := available | on_trip | offline.
Inductive RideRequestStatus := waiting | assigned | completed | failed.
Inductive TripPhase := to_pickup | to_dropoff.

#[global] Instance DriverStatus_eq_dec : EqDecision DriverStatus.
Proof. solve_decision. Defined.
#[global] Instance RideRequestStatus_eq_dec : EqDecision RideRequestStatus.
Proof. solve_decision. Defined.
#[global] Instance TripPhase_eq_dec : EqDecision TripPhase.
Proof. solve_decision. Defined.

Module Driver.
Record t := mk {
  id : string;
  x : Z;
  y : Z;
  status : DriverStatus;
  totalTrips : Z;
  idleTicks : Z;
  assignedRequestId : option string;
  tripPhase : option TripPhase;
  targetX : option Z;
  targetY : option Z
}.
End Driver.

Module Rider.
Record t := mk {
  id : string;
  pickup_x : Z;
  pickup_y : Z;
  dropoff_x : Z;
  dropoff_y : Z
}.
End Rider.

(** [created_at] and [updated_at] are wall-clock stamps that no decision of
    the engine reads; they are left out. *)
Module RideRequest.
Record t := mk {
  id : string;
  rider_id : string;
  status : RideRequestStatus;
  pickup_x : Z;
  pickup_y : Z;
  dropoff_x : Z;
  dropoff_y : Z;
  assigned_driver_id : option string
}.
End RideRequest.

Module SimulationStats.
Record t := mk {
  totalRequests : nat;
  completedRides : nat;
  failedRides : nat;
  averageETA : nat;
  activeDrivers : nat;
  totalDrivers : nat
}.
End SimulationStats.

#[global] Instance Driver_eq_dec : EqDecision Driver.t.
Proof. solve_decision. Defined.
#[global] Instance Rider_eq_dec : EqDecision Rider.t.
Proof. solve_decision. Defined.
#[global] Instance RideRequest_eq_dec : EqDecision RideRequest.t.
Proof. solve_decision. Defined.

(** ** config.py *)

Definition DEFAULT_GRID_WIDTH : Z := 20.
Definition DEFAULT_GRID_HEIGHT : Z := 20.
Definition FAIRNESS_BONUS_MULTIPLIER : Z := 10.
Definition MAX_IDLE_TIME_BONUS : Z := 50.

(** ** Exceptions and results *)

Inductive exn :=
  | PositionOutOfBoundsError
  | ValueError
  | AttributeError
  | ZeroDivisionError
  | IndexError.

Inductive result (A : Type) :=
  | Ok (a : A)
  | Raise (e : exn).
Arguments Ok {A} a.
Arguments Raise {A} e.

#[global] Instance exn_eq_dec : EqDecision exn.
Proof. solve_decision. Defined.

Definition rbind {A B} (r : result A) (k : A → result B) : result B :=
  match r with
  | Ok a => k a
  | Raise e => Raise e
  end.

Fixpoint rmap_list {A B} (f : A → result B) (l : list A) : result (list B) :=
  match l with
  | [] => Ok []
  | a :: l' =>
      rbind (f a) (λ b, rbind (rmap_list f l') (λ bs, Ok (b :: bs)))
  end.

(** ** services/scoring_service.py *)

Module ScoringService.

Definition calculate_distance (from_x from_y to_x to_y : Z) : Z :=
  Z.abs (from_x - to_x) + Z.abs (from_y - to_y).

(** Python's [//] is floor division, as is [Z.div]; dividing by zero
    raises. *)
Definition calculate_eta (from_x from_y to_x to_y driver_speed : Z) : result Z :=
  let distance := Z.abs (from_x - to_x) + Z.abs (from_y - to_y) in
  if decide (driver_speed = 0) then Raise ZeroDivisionError
  else Ok ((distance + driver_speed - 1) `div` driver_speed).

Definition calculate_driver_score (driver : Driver.t) (request : RideRequest.t)
  : result Z :=
  rbind (calculate_eta (Driver.x driver) (Driver.y driver)
           (RideRequest.pickup_x request) (RideRequest.pickup_y request) 1)
    (λ eta,
      let fairness_bonus := Driver.totalTrips driver * FAIRNESS_BONUS_MULTIPLIER in
      let idle_time_bonus := Z.min (Driver.idleTicks driver) MAX_IDLE_TIME_BONUS in
      Ok (eta + fairness_bonus - idle_time_bonus)).

(** [list.sort(key=...)] is stable: entries with equal keys keep their
    order.  A stable sort is determined by its input; this is the
    insertion sort that puts an entry before the first one whose key is
    not smaller. *)
Fixpoint insert_scored {A} (p : A * Z) (l : list (A * Z)) : list (A * Z) :=
  match l with
  | [] => [p]
  | q :: l' => if decide (p.2 ≤ q.2) then p :: q :: l' else q :: insert_scored p l'
  end.

Definition sort_scored {A} (l : list (A * Z)) : list (A * Z) :=
  foldr insert_scored [] l.

(** The drivers are objects: [drivers] lists references and [drv] reads
    the object behind one.  The reference of the chosen driver is
    returned. *)
Definition find_best_driver (drv : nat → Driver.t) (drivers : list nat)
    (request : RideRequest.t) : result nat :=
  match drivers with
  | [] => Raise ValueError
  | _ =>
      rbind (rmap_list (λ driver,
                rbind (calculate_driver_score (drv driver) request)
                  (λ score, Ok (driver, score))) drivers)
        (λ scored_drivers,
          match sort_scored scored_drivers with
          | p :: _ => Ok p.1
          | [] => Raise IndexError
          end)
  end.

End ScoringService.

(** ** The engine state

    One record for the four services of a [SimulationEngine] and the
    objects they share.  [drv] and [req] are the object store; the services
    hold references.  The two dictionaries are finite maps: no operation
    modelled here depends on their iteration order. *)

Record State := mkState {
  drv : nat → Driver.t;            (* the Driver objects *)
  next_drv : nat;                  (* the reference [Driver(...)] returns next *)
  req : nat → RideRequest.t;       (* the RideRequest objects *)
  next_req : nat;                  (* the reference [RideRequest(...)] returns next *)
  drivers : list nat;              (* DriverService.drivers *)
  driver_counter : nat;            (* DriverService.driver_counter *)
  riders : gmap string Rider.t;    (* RiderService.riders *)
  rider_counter : nat;             (* RiderService.rider_counter *)
  requests : gmap string nat;      (* RequestService.requests *)
  request_counter : nat;           (* RequestService.request_counter *)
  request_queue : list nat         (* QueueService.request_queue *)
}.

Definition set_drv (f : nat → Driver.t) (s : State) : State :=
  mkState f (next_drv s) (req s) (next_req s) (drivers s) (driver_counter s)
    (riders s) (rider_counter s) (requests s) (request_counter s) (request_queue s).
Definition set_next_drv (n : nat) (s : State) : State :=
  mkState (drv s) n (req s) (next_req s) (drivers s) (driver_counter s)
    (riders s) (rider_counter s) (requests s) (request_counter s) (request_queue s).
Definition set_req (f : nat → RideRequest.t) (s : State) : State :=
  mkState (drv s) (next_drv s) f (next_req s) (drivers s) (driver_counter s)
    (riders s) (rider_counter s) (requests s) (request_counter s) (request_queue s).
Definition set_next_req (n : nat) (s : State) : State :=
  mkState (drv s) (next_drv s) (req s) n (drivers s) (driver_counter s)
    (riders s) (rider_counter s) (requests s) (request_counter s) (request_queue s).
Definition set_drivers (l : list nat) (s : State) : State :=
  mkState (drv s) (next_drv s) (req s) (next_req s) l (driver_counter s)
    (riders s) (rider_counter s) (requests s) (request_counter s) (request_queue s).
Definition set_driver_counter (n : nat) (s : State) : State :=
  mkState (drv s) (next_drv s) (req s) (next_req s) (drivers s) n
    (riders s) (rider_counter s) (requests s) (request_counter s) (request_queue s).
Definition set_riders (m : gmap string Rider.t) (s : State) : State :=
  mkState (drv s) (next_drv s) (req s) (next_req s) (drivers s) (driver_counter s)
    m (rider_counter s) (requests s) (request_counter s) (request_queue s).
Definition set_rider_counter (n : nat) (s : State) : State :=
  mkState (drv s) (next_drv s) (req s) (next_req s) (drivers s) (driver_counter s)
    (riders s) n (requests s) (request_counter s) (request_queue s).
Definition set_requests (m : gmap string nat) (s : State) : State :=
  mkState (drv s) (next_drv s) (req s) (next_req s) (drivers s) (driver_counter s)
    (riders s) (rider_counter s) m (request_counter s) (request_queue s).
Definition set_request_counter (n : nat) (s : State) : State :=
  mkState (drv s) (next_drv s) (req s) (next_req s) (drivers s) (driver_counter s)
    (riders s) (rider_counter s) (requests s) n (request_queue s).
Definition set_request_queue (l : list nat) (s : State) : State :=
  mkState (drv s) (next_drv s) (req s) (next_req s) (drivers s) (driver_counter s)
    (riders s) (rider_counter s) (requests s) (request_counter s) l.

(** ** Stateful, failing computations *)

Definition M (A : Type) : Type := State → State * result A.

Definition ret {A} (a : A) : M A := λ s, (s, Ok a).
Definition raise {A} (e : exn) : M A := λ s, (s, Raise e).
Definition bind {A B} (m : M A) (k : A → M B) : M B :=
  λ s, match m s with
       | (s', Ok a) => k a s'
       | (s', Raise e) => (s', Raise e)
       end.
Definition gets {A} (f : State → A) : M A := λ s, (s, Ok (f s)).
Definition modify (f : State → State) : M unit := λ s, (f s, Ok tt).

Notation "'let*' x := c 'in' k" := (bind c (λ x, k))
  (at level 10, x pattern, c at level 100, k at level 200, only parsing).
Notation "c ;;; k" := (bind c (λ _, k))
  (at level 100, k at level 200, right associativity, only parsing).

(** [for a in l: body a] *)
Fixpoint for_each {A} (l : list A) (body : A → M unit) : M unit :=
  match l with
  | [] => ret tt
  | a :: l' => body a ;;; for_each l' body
  end.

(** Field reads and writes on the object behind a reference. *)
Definition read_drv (d : nat) : M Driver.t := gets (λ s, drv s d).
Definition write_drv (d : nat) (v : Driver.t) : M unit :=
  modify (λ s, set_drv (<[d := v]> (drv s)) s).
Definition read_req (r : nat) : M RideRequest.t := gets (λ s, req s r).
Definition write_req (r : nat) (v : RideRequest.t) : M unit :=
  modify (λ s, set_req (<[r := v]> (req s)) s).

(** An argument that Python passes untyped: [RequestService.assign_request]
    receives a [Driver] object from one caller and a [str] (or [None]) from
    another. *)
Inductive pyarg :=
  | ADriver (d : nat)
  | AStr (s : string)
  | ANone.

(** ** services/driver_service.py *)

Module DriverService.

Definition generate_driver_id : M string :=
  modify (λ s, set_driver_counter (S (driver_counter s)) s) ;;;
  let* n := gets driver_counter in
  ret ("Driver " +:+ pretty n).

Definition add_driver (x y : Z) : M nat :=
  if negb (bool_decide (0 ≤ x < DEFAULT_GRID_WIDTH ∧ 0 ≤ y < DEFAULT_GRID_HEIGHT))
  then raise PositionOutOfBoundsError
  else
    let* id := generate_driver_id in
    let* driver := gets next_drv in
    modify (set_next_drv (S driver)) ;;;
    write_drv driver (Driver.mk id x y available 0 0 None None None None) ;;;
    modify (λ s, set_drivers (drivers s ++ [driver]) s) ;;;
    ret driver.

Fixpoint remove_first_with_id (drv : nat → Driver.t) (driver_id : string)
    (l : list nat) : option (list nat) :=
  match l with
  | [] => None
  | driver :: l' =>
      if decide (Driver.id (drv driver) = driver_id) then Some l'
      else cons driver <$> remove_first_with_id drv driver_id l'
  end.

Definition remove_driver (driver_id : string) : M bool :=
  let* s := gets id in
  match remove_first_with_id (drv s) driver_id (drivers s) with
  | Some l => modify (set_drivers l) ;;; ret true
  | None => ret false
  end.

Definition list_drivers : M (list nat) := gets drivers.

Definition get_available_drivers : M (list nat) :=
  gets (λ s, filter (λ driver, Driver.status (drv s driver) = available) (drivers s)).

Definition get_busy_drivers : M (list nat) :=
  gets (λ s, filter (λ driver, Driver.status (drv s driver) = on_trip) (drivers s)).

Definition move_driver_one_step (driver : nat) : M unit :=
  let* d := read_drv driver in
  match Driver.targetX d, Driver.targetY d with
  | Some targetX, Some targetY =>
      let x' := if decide (Driver.x d < targetX) then Driver.x d + 1
                else if decide (Driver.x d > targetX) then Driver.x d - 1
                else Driver.x d in
      let y' := if decide (Driver.y d < targetY) then Driver.y d + 1
                else if decide (Driver.y d > targetY) then Driver.y d - 1
                else Driver.y d in
      write_drv driver
        (Driver.mk (Driver.id d) x' y' (Driver.status d) (Driver.totalTrips d)
           (Driver.idleTicks d) (Driver.assignedRequestId d) (Driver.tripPhase d)
           (Driver.targetX d) (Driver.targetY d))
  | _, _ => ret tt
  end.

Definition complete_trip (driver : nat) : M unit :=
  let* d := read_drv driver in
  write_drv driver
    (Driver.mk (Driver.id d) (Driver.x d) (Driver.y d) available
       (Driver.totalTrips d + 1) 0 None None None None).

Definition increment_idle_ticks (driver : nat) : M unit :=
  let* d := read_drv driver in
  write_drv driver
    (Driver.mk (Driver.id d) (Driver.x d) (Driver.y d) (Driver.status d)
       (Driver.totalTrips d) (Driver.idleTicks d + 1) (Driver.assignedRequestId d)
       (Driver.tripPhase d) (Driver.targetX d) (Driver.targetY d)).

Definition clear_drivers : M unit :=
  modify (set_drivers []) ;;; modify (set_driver_counter 0%nat).

Fixpoint first_with_id (drv : nat → Driver.t) (driver_id : string)
    (l : list nat) : option nat :=
  match l with
  | [] => None
  | driver :: l' =>
      if decide (Driver.id (drv driver) = driver_id) then Some driver
      else first_with_id drv driver_id l'
  end.

Definition get_driver (driver_id : string) : M (option nat) :=
  gets (λ s, first_with_id (drv s) driver_id (drivers s)).

End DriverService.

(** ** services/rider_service.py *)

Module RiderService.

Definition generate_rider_id : M string :=
  modify (λ s, set_rider_counter (S (rider_counter s)) s) ;;;
  let* n := gets rider_counter in
  ret ("Rider " +:+ pretty n).

Definition _is_valid_position (x y : Z) : bool :=
  bool_decide (0 ≤ x < DEFAULT_GRID_WIDTH ∧ 0 ≤ y < DEFAULT_GRID_HEIGHT).

Definition add_rider (pickup_x pickup_y dropoff_x dropoff_y : Z) : M Rider.t :=
  if negb (_is_valid_position pickup_x pickup_y) then raise PositionOutOfBoundsError
  else if negb (_is_valid_position dropoff_x dropoff_y) then raise PositionOutOfBoundsError
  else
    let* rider_id := generate_rider_id in
    let rider := Rider.mk rider_id pickup_x pickup_y dropoff_x dropoff_y in
    modify (λ s, set_riders (<[rider_id := rider]> (riders s)) s) ;;;
    ret rider.

Definition get_rider (rider_id : string) : M (option Rider.t) :=
  gets (λ s, riders s !! rider_id).

Definition remove_rider (rider_id : string) : M bool :=
  let* m := gets riders in
  match m !! rider_id with
  | Some _ => modify (λ s, set_riders (delete rider_id (riders s)) s) ;;; ret true
  | None => ret false
  end.

Definition clear_riders : M unit :=
  modify (set_riders ∅) ;;; modify (set_rider_counter 0%nat).

End RiderService.

(** ** services/request_service.py *)

Module RequestService.

Definition generate_request_id : M string :=
  modify (λ s, set_request_counter (S (request_counter s)) s) ;;;
  let* n := gets request_counter in
  ret ("Request " +:+ pretty n).

Definition create_request (rider : Rider.t) : M nat :=
  let* request_id := generate_request_id in
  let* request := gets next_req in
  modify (set_next_req (S request)) ;;;
  write_req request
    (RideRequest.mk request_id (Rider.id rider) waiting
       (Rider.pickup_x rider) (Rider.pickup_y rider)
       (Rider.dropoff_x rider) (Rider.dropoff_y rider) None) ;;;
  modify (λ s, set_requests (<[request_id := request]> (requests s)) s) ;;;
  ret request.

Definition get_request (request_id : option string) : M (option nat) :=
  gets (λ s, match request_id with
             | Some k => requests s !! k
             | None => None
             end).

(** [list(self.requests.values())], in no particular order. *)
Definition list_requests (s : State) : list nat :=
  (map_to_list (requests s)).*2.

Definition get_requests_by_status (status : RideRequestStatus) (s : State) : list nat :=
  filter (λ r, RideRequest.status (req s r) = status) (list_requests s).

Definition get_completed_requests (s : State) : list nat :=
  get_requests_by_status completed s.

(** [request.status] is written before [driver.id] is evaluated. *)
Definition assign_request (request : nat) (driver : pyarg) : M unit :=
  let* r := read_req request in
  write_req request
    (RideRequest.mk (RideRequest.id r) (RideRequest.rider_id r) assigned
       (RideRequest.pickup_x r) (RideRequest.pickup_y r)
       (RideRequest.dropoff_x r) (RideRequest.dropoff_y r)
       (RideRequest.assigned_driver_id r)) ;;;
  match driver with
  | ADriver d =>
      let* dv := read_drv d in
      let* r := read_req request in
      write_req request
        (RideRequest.mk (RideRequest.id r) (RideRequest.rider_id r) (RideRequest.status r)
           (RideRequest.pickup_x r) (RideRequest.pickup_y r)
           (RideRequest.dropoff_x r) (RideRequest.dropoff_y r)
           (Some (Driver.id dv)))
  | AStr _ | ANone => raise AttributeError
  end.

Definition complete_request (request : nat) : M unit :=
  let* r := read_req request in
  write_req request
    (RideRequest.mk (RideRequest.id r) (RideRequest.rider_id r) completed
       (RideRequest.pickup_x r) (RideRequest.pickup_y r)
       (RideRequest.dropoff_x r) (RideRequest.dropoff_y r)
       (RideRequest.assigned_driver_id r)).

Definition remove_requests_for_rider (rider_id : string) : M unit :=
  modify (λ s,
    set_requests
      (filter (λ kr, RideRequest.rider_id (req s kr.2) ≠ rider_id) (requests s)) s).

Definition clear_requests : M unit :=
  modify (set_requests ∅) ;;; modify (set_request_counter 0%nat).

Definition get_waiting_requests (s : State) : list nat :=
  get_requests_by_status waiting s.

Definition get_assigned_requests (s : State) : list nat :=
  get_requests_by_status assigned s.

End RequestService.

(** ** services/queue_service.py *)

Module QueueService.

Definition add_to_queue (request : nat) : M unit :=
  modify (λ s, set_request_queue (request_queue s ++ [request]) s).

(** [list.remove] drops the first entry that compares equal; models
    compare by field values, and an object equals itself. *)
Fixpoint remove_first_equal (req : nat → RideRequest.t) (request : nat)
    (l : list nat) : list nat :=
  match l with
  | [] => []
  | r :: l' =>
      if decide (req r = req request) then l'
      else r :: remove_first_equal req request l'
  end.

Definition remove_from_queue (request : nat) : M unit :=
  modify (λ s,
    set_request_queue (remove_first_equal (req s) request (request_queue s)) s).

Definition get_queue_length : M nat := gets (λ s, length (request_queue s)).

Definition is_queue_empty : M bool :=
  gets (λ s, bool_decide (length (request_queue s) = 0%nat)).

Definition get_queued_requests : M (list nat) := gets request_queue.

Definition _assign_request_to_driver (request driver : nat) : M unit :=
  let* d := read_drv driver in
  let* r := read_req request in
  write_req request
    (RideRequest.mk (RideRequest.id r) (RideRequest.rider_id r) assigned
       (RideRequest.pickup_x r) (RideRequest.pickup_y r)
       (RideRequest.dropoff_x r) (RideRequest.dropoff_y r)
       (Some (Driver.id d))) ;;;
  write_drv driver
    (Driver.mk (Driver.id d) (Driver.x d) (Driver.y d) on_trip
       (Driver.totalTrips d) 0 (Some (RideRequest.id r)) (Some to_pickup)
       (Some (RideRequest.pickup_x r)) (Some (RideRequest.pickup_y r))).

(** The [for request in self.request_queue[:]] loop, with its locals
    [remaining_drivers] and [processed_requests]; it returns
    [processed_requests]. *)
Fixpoint process_loop (queue_copy : list nat) (remaining_drivers : list nat)
    (processed_requests : list nat) : M (list nat) :=
  match queue_copy with
  | [] => ret processed_requests
  | request :: rest =>
      match remaining_drivers with
      | [] => ret processed_requests            (* break *)
      | _ =>
          let* s := gets id in
          match ScoringService.find_best_driver (drv s) remaining_drivers (req s request) with
          | Ok best_driver =>
              _assign_request_to_driver request best_driver ;;;
              let* s' := gets id in
              process_loop rest
                (filter (λ d, Driver.id (drv s' d) ≠ Driver.id (drv s' best_driver))
                   remaining_drivers)
                (processed_requests ++ [request])
          | Raise ValueError => process_loop rest remaining_drivers processed_requests
          | Raise e => raise e
          end
      end
  end.

Definition process_queue (available_drivers : list nat) : M (list nat) :=
  match available_drivers with
  | [] => ret []
  | _ =>
      let* empty := is_queue_empty in
      if (empty : bool) then ret []
      else
        let* queue_copy := gets request_queue in
        let* processed_requests := process_loop queue_copy available_drivers [] in
        for_each processed_requests remove_from_queue ;;;
        ret processed_requests
  end.

Definition clear_queue : M unit := modify (set_request_queue []).

End QueueService.

(** ** simulation_engine.py *)

Module SimulationEngine.

Definition _process_queue : M unit :=
  let* available_drivers := DriverService.get_available_drivers in
  let* processed_requests := QueueService.process_queue available_drivers in
  for_each processed_requests (λ request,
    let* r := read_req request in
    RequestService.assign_request request
      match RideRequest.assigned_driver_id r with
      | Some driver_id => AStr driver_id
      | None => ANone
      end).

Definition add_driver (x y : Z) : M nat :=
  let* driver := DriverService.add_driver x y in
  _process_queue ;;;
  ret driver.

Definition remove_driver (driver_id : string) : M bool :=
  DriverService.remove_driver driver_id.

Definition _assign_request_to_driver (request driver : nat) : M unit :=
  RequestService.assign_request request (ADriver driver) ;;;
  let* d := read_drv driver in
  let* r := read_req request in
  write_drv driver
    (Driver.mk (Driver.id d) (Driver.x d) (Driver.y d) on_trip
       (Driver.totalTrips d) 0 (Some (RideRequest.id r)) (Some to_pickup)
       (Some (RideRequest.pickup_x r)) (Some (RideRequest.pickup_y r))).

Definition _try_assign_request (request : nat) : M bool :=
  let* available_drivers := DriverService.get_available_drivers in
  match available_drivers with
  | [] => ret false
  | _ =>
      let* s := gets id in
      match ScoringService.find_best_driver (drv s) available_drivers (req s request) with
      | Ok best_driver => _assign_request_to_driver request best_driver ;;; ret true
      | Raise ValueError => ret false
      | Raise e => raise e
      end
  end.

Definition add_rider (pickup_x pickup_y dropoff_x dropoff_y : Z) : M (Rider.t * nat) :=
  let* rider := RiderService.add_rider pickup_x pickup_y dropoff_x dropoff_y in
  let* request := RequestService.create_request rider in
  let* ok := _try_assign_request request in
  (if (ok : bool) then ret tt else QueueService.add_to_queue request) ;;;
  ret (rider, request).

Definition remove_rider (rider_id : string) : M bool :=
  RequestService.remove_requests_for_rider rider_id ;;;
  let* queued := QueueService.get_queued_requests in
  for_each queued (λ request,
    let* r := read_req request in
    if decide (RideRequest.rider_id r = rider_id)
    then QueueService.remove_from_queue request
    else ret tt) ;;;
  RiderService.remove_rider rider_id.

Definition create_request (rider_id : string) : M (option nat) :=
  let* rider := RiderService.get_rider rider_id in
  match rider with
  | None => ret None
  | Some rider =>
      let* request := RequestService.create_request rider in
      let* ok := _try_assign_request request in
      (if (ok : bool) then ret tt else QueueService.add_to_queue request) ;;;
      ret (Some request)
  end.

Definition _complete_trip (driver request : nat) : M unit :=
  RequestService.complete_request request ;;;
  DriverService.complete_trip driver ;;;
  let* r := read_req request in
  remove_rider (RideRequest.rider_id r) ;;;
  _process_queue.

Definition _move_driver_one_step (driver : nat) : M unit :=
  DriverService.move_driver_one_step driver ;;;
  let* d := read_drv driver in
  match Driver.targetX d, Driver.targetY d with
  | Some targetX, Some targetY =>
      if decide (Driver.x d = targetX ∧ Driver.y d = targetY) then
        let* request := RequestService.get_request (Driver.assignedRequestId d) in
        match request with
        | None => ret tt
        | Some request =>
            match Driver.tripPhase d with
            | Some to_pickup =>
                let* r := read_req request in
                write_drv driver
                  (Driver.mk (Driver.id d) (Driver.x d) (Driver.y d) (Driver.status d)
                     (Driver.totalTrips d) (Driver.idleTicks d)
                     (Driver.assignedRequestId d) (Some to_dropoff)
                     (Some (RideRequest.dropoff_x r)) (Some (RideRequest.dropoff_y r)))
            | Some to_dropoff => _complete_trip driver request
            | None => ret tt
            end
        end
      else ret tt
  | _, _ => ret tt
  end.

(** The [print] calls of the tick are left out. *)
Definition advance_tick : M unit :=
  let* busy := DriverService.get_busy_drivers in
  for_each busy _move_driver_one_step ;;;
  let* idle := DriverService.get_available_drivers in
  for_each idle DriverService.increment_idle_ticks ;;;
  _process_queue.

Definition reset : M unit :=
  DriverService.clear_drivers ;;;
  RiderService.clear_riders ;;;
  RequestService.clear_requests ;;;
  QueueService.clear_queue.

Definition get_stats (s : State) : SimulationStats.t :=
  SimulationStats.mk
    (length (RequestService.list_requests s))
    (length (RequestService.get_completed_requests s))
    0%nat
    0%nat
    (length (filter (λ d, Driver.status (drv s d) ≠ offline) (drivers s)))
    (length (drivers s)).

(** [SimulationEngine()]: every service starts empty.  The store holds no
    object yet; what it returns for an unused reference is never read. *)
Definition initial : State :=
  mkState
    (λ _, Driver.mk "" 0 0 offline 0 0 None None None None) 0%nat
    (λ _, RideRequest.mk "" "" failed 0 0 0 0 None) 0%nat
    [] 0%nat ∅ 0%nat ∅ 0%nat [].

Definition get_driver (driver_id : string) : M (option nat) :=
  DriverService.get_driver driver_id.

End SimulationEngine.

(** ** Sequences of public operations *)

Inductive operation :=
  | op_add_driver (x y : Z)
  | op_remove_driver (driver_id : string)
  | op_add_rider (pickup_x pickup_y dropoff_x dropoff_y : Z)
  | op_remove_rider (rider_id : string)
  | op_create_request (rider_id : string)
  | op_advance_tick
  | op_reset.

(** The state an operation leaves behind, whether it returned or raised. *)
Definition perform (o : operation) (s : State) : State :=
  match o with
  | op_add_driver x y => (SimulationEngine.add_driver x y s).1
  | op_remove_driver k => (SimulationEngine.remove_driver k s).1
  | op_add_rider px py dx dy => (SimulationEngine.add_rider px py dx dy s).1
  | op_remove_rider k => (SimulationEngine.remove_rider k s).1
  | op_create_request k => (SimulationEngine.create_request k s).1
  | op_advance_tick => (SimulationEngine.advance_tick s).1
  | op_reset => (SimulationEngine.reset s).1
  end.

Definition run (ops : list operation) (s : State) : State :=
  foldl (λ s o, perform o s) s ops.

Inductive reachable : State → Prop :=
  | reachable_initial : reachable SimulationEngine.initial
  | reachable_perform s o : reachable s → reachable (perform o s).

(** ** Definitions used by the statements *)

(** The number a score evaluates to; [calculate_driver_score] never raises
    (lemma [calculate_driver_score_total]). *)
Definition score_value (d : Driver.t) (r : RideRequest.t) : Z :=
  match ScoringService.calculate_driver_score d r with
  | Ok z => z
  | Raise _ => 0
  end.

(** [triple P m Q E]: started in a state that satisfies [P], the operation
    [m] either returns some [a] in a state that satisfies [Q a], or raises
    some [e] in a state that satisfies [E e]. *)
Definition triple {A} (P : State → Prop) (m : M A)
    (Q : A → State → Prop) (E : exn → State → Prop) : Prop :=
  ∀ s, P s →
    match m s with
    | (s', Ok a) => Q a s'
    | (s', Raise e) => E e s'
    end.

(** ** The invariant of the engine *)

Definition req_id (n : nat) : string := "Request " +:+ pretty n.

Definition in_grid (x y : Z) : Prop :=
  0 ≤ x < DEFAULT_GRID_WIDTH ∧ 0 ≤ y < DEFAULT_GRID_HEIGHT.

Definition target_in_grid (d : Driver.t) : Prop :=
  (∀ tx, Driver.targetX d = Some tx → 0 ≤ tx < DEFAULT_GRID_WIDTH)
  ∧ (∀ ty, Driver.targetY d = Some ty → 0 ≤ ty < DEFAULT_GRID_HEIGHT).

Definition request_in_grid (r : RideRequest.t) : Prop :=
  in_grid (RideRequest.pickup_x r) (RideRequest.pickup_y r)
  ∧ in_grid (RideRequest.dropoff_x r) (RideRequest.dropoff_y r).

Definition rider_in_grid (r : Rider.t) : Prop :=
  in_grid (Rider.pickup_x r) (Rider.pickup_y r)
  ∧ in_grid (Rider.dropoff_x r) (Rider.dropoff_y r).

(** The request objects the engine still holds: those in the queue and
    those in the registry. *)
Definition live (s : State) (r : nat) : Prop :=
  r ∈ request_queue s ∨ ∃ k, requests s !! k = Some r.

Definition registry_status (r : RideRequest.t) : Prop :=
  (RideRequest.status r = waiting ∧ RideRequest.assigned_driver_id r = None)
  ∨ (RideRequest.status r = assigned ∧ is_Some (RideRequest.assigned_driver_id r)).

Definition driver_ok (s : State) (d : Driver.t) : Prop :=
  in_grid (Driver.x d) (Driver.y d)
  ∧ target_in_grid d
  ∧ ∀ k, Driver.assignedRequestId d = Some k →
      (∃ n, (n ≤ request_counter s)%nat ∧ k = req_id n)
      ∧ (∀ r, requests s !! k = Some r → RideRequest.status (req s r) = assigned).

Record engine_invariant (s : State) : Prop := {
  inv_drivers : ∀ d, d ∈ drivers s → driver_ok s (drv s d);
  inv_riders : ∀ k rider, riders s !! k = Some rider → rider_in_grid rider;
  inv_live : ∀ r, live s r →
    (r < next_req s)%nat
    ∧ request_in_grid (req s r)
    ∧ ∃ n, (n ≤ request_counter s)%nat ∧ RideRequest.id (req s r) = req_id n;
  inv_unique : ∀ r1 r2, live s r1 → live s r2 →
    RideRequest.id (req s r1) = RideRequest.id (req s r2) → r1 = r2;
  inv_registry : ∀ k r, requests s !! k = Some r →
    RideRequest.id (req s r) = k ∧ registry_status (req s r)
}.

(** A request that the queue service has just handed to a driver. *)
Definition assigned_ok (s : State) (r : nat) : Prop :=
  RideRequest.status (req s r) = assigned
  ∧ is_Some (RideRequest.assigned_driver_id (req s r)).

(** ** Statements about requests and drivers *)

(** A request of the registry is assigned exactly when it names a driver,
    and it names a driver exactly when some driver of the driver list
    carries its id. *)
Definition assignment_consistent (s : State) : Prop :=
  ∀ k r, requests s !! k = Some r →
    (RideRequest.status (req s r) = assigned
       ↔ is_Some (RideRequest.assigned_driver_id (req s r)))
    ∧ (is_Some (RideRequest.assigned_driver_id (req s r))
       ↔ ∃ d, d ∈ drivers s
              ∧ Driver.assignedRequestId (drv s d) = Some (RideRequest.id (req s r))).

(** add_driver(0,0); add_rider(0,1,0,2): the driver is two ticks away from
    the dropoff. *)
Definition trip_started : State :=
  perform (op_add_rider 0 1 0 2) (perform (op_add_driver 0 0) SimulationEngine.initial).

Definition trip_at_pickup : State := perform op_advance_tick trip_started.

Definition trip_completed : State := perform op_advance_tick trip_at_pickup.

(** add_rider(0,5,0,10) with no driver: the request waits in the queue. *)
Definition rider_waiting : State :=
  perform (op_add_rider 0 5 0 10) SimulationEngine.initial.

(** add_driver(0,0); add_rider(0,5,0,10); remove_driver("Driver 1"). *)
Definition driver_removed_mid_trip : State :=
  perform (op_remove_driver "Driver 1")
    (perform (op_add_rider 0 5 0 10)
       (perform (op_add_driver 0 0) SimulationEngine.initial)).

(** The requests of [l] name drivers, and different requests name
    different drivers. *)
Definition distinct_drivers (s : State) (l : list nat) : Prop :=
  (∀ p, p ∈ l → is_Some (RideRequest.assigned_driver_id (req s p)))
  ∧ (∀ p1 p2, p1 ∈ l → p2 ∈ l → p1 ≠ p2 →
       RideRequest.assigned_driver_id (req s p1)
       ≠ RideRequest.assigned_driver_id (req s p2)).

(** Two riders wait in the queue; then two drivers are entered in the
    driver list without a drain, so that the queue service meets a queue of
    two and a pool of two. *)
Definition two_waiting_two_idle : State :=
  (DriverService.add_driver 9 9
     (DriverService.add_driver 0 0
        (perform (op_add_rider 8 8 0 0)
           (perform (op_add_rider 1 1 5 5) SimulationEngine.initial))).1).1.

(** A driver that is busy, or has just become available: no idle tick
    counted yet. *)
Definition busy_or_fresh (v : Driver.t) : Prop :=
  Driver.status v = on_trip
  ∨ (Driver.status v = available ∧ Driver.idleTicks v = 0).

(** A driver that is busy, or became available in this tick and has been
    counted idle once. *)
Definition busy_or_counted (v : Driver.t) : Prop :=
  Driver.status v = on_trip
  ∨ (Driver.status v = available ∧ Driver.idleTicks v = 1).

(** The driver list holds every driver object once, and only objects that
    have been created. *)
Definition drivers_wf (s : State) : Prop :=
  NoDup (drivers s) ∧ ∀ d, d ∈ drivers s → (d < next_drv s)%nat.

(** ** Further definitions used by the statements *)

(** [n] calls of [move_driver_one_step] on the same driver. *)
Definition move_steps (n : nat) (driver : nat) (s : State) : State :=
  Nat.iter n (λ s, (DriverService.move_driver_one_step driver s).1) s.

(** The services hold the same entries in [s'] as in [s]: only objects
    may have been written. *)
Definition same_registries (s s' : State) : Prop :=
  drivers s' = drivers s
  ∧ driver_counter s' = driver_counter s
  ∧ riders s' = riders s
  ∧ rider_counter s' = rider_counter s
  ∧ requests s' = requests s
  ∧ request_counter s' = request_counter s
  ∧ next_drv s' = next_drv s
  ∧ next_req s' = next_req s.

(** ** The fleet *)

Definition drv_id (n : nat) : string := "Driver " +:+ pretty n.

(** What the fields of a driver say together: an available driver has no
    request, phase or target; a driver on a trip has all three and no idle
    ticks; no driver is offline. *)
Definition driver_shape (v : Driver.t) : Prop :=
  match Driver.status v with
  | available =>
      Driver.assignedRequestId v = None ∧ Driver.tripPhase v = None
      ∧ Driver.targetX v = None ∧ Driver.targetY v = None
      ∧ 0 ≤ Driver.idleTicks v
  | on_trip =>
      is_Some (Driver.assignedRequestId v) ∧ is_Some (Driver.tripPhase v)
      ∧ is_Some (Driver.targetX v) ∧ is_Some (Driver.targetY v)
      ∧ Driver.idleTicks v = 0
  | offline => False
  end
  ∧ 0 ≤ Driver.totalTrips v.

Record fleet_invariant (s : State) : Prop := {
  fleet_shape : ∀ d, d ∈ drivers s → driver_shape (drv s d);
  fleet_ids : ∀ d, d ∈ drivers s →
    ∃ n, (n ≤ driver_counter s)%nat ∧ Driver.id (drv s d) = drv_id n;
  fleet_unique : ∀ d1 d2, d1 ∈ drivers s → d2 ∈ drivers s →
    Driver.id (drv s d1) = Driver.id (drv s d2) → d1 = d2;
  fleet_wf : drivers_wf s
}.

(** The part of the state that the fleet invariant reads. *)
Definition fleet_view (s : State) : (nat → Driver.t) * list nat * nat * nat :=
  (drv s, drivers s, driver_counter s, next_drv s).

(** No rider waits while a driver is idle. *)
Definition work_conserving (s : State) : Prop :=
  request_queue s = []
  ∨ ∀ d, d ∈ drivers s → Driver.status (drv s d) ≠ available.

(** ** One tick, seen from one driver *)

(** The driver record after one more idle tick. *)
Definition idle_once (v0 : Driver.t) : Driver.t :=
  Driver.mk (Driver.id v0) (Driver.x v0) (Driver.y v0) (Driver.status v0)
    (Driver.totalTrips v0) (Driver.idleTicks v0 + 1) (Driver.assignedRequestId v0)
    (Driver.tripPhase v0) (Driver.targetX v0) (Driver.targetY v0).

(** One coordinate after a step toward its target coordinate. *)
Definition step_toward (c t : Z) : Z :=
  if decide (c < t) then c + 1 else if decide (c > t) then c - 1 else c.

(** ** The queue and the registry *)

Definition registered (s : State) (r : nat) : Prop :=
  ∃ k, requests s !! k = Some r.

(** The queue holds each waiting request of the registry once, and nothing
    else. *)
Definition queue_invariant (s : State) : Prop :=
  NoDup (request_queue s)
  ∧ ∀ r, r ∈ request_queue s
         ↔ registered s r ∧ RideRequest.status (req s r) = waiting.

(** ** A driver whose request is gone *)

(** Driver [b] is on a trip for the request id [k], and the registry holds
    no request under [k]. *)
Definition stranded (k : string) (b : nat) (s : State) : Prop :=
  Driver.status (drv s b) = on_trip
  ∧ Driver.assignedRequestId (drv s b) = Some k
  ∧ requests s !! k = None.

(** * Properties *)

(** ** Scoring *)

Section scoring.
Import ScoringService.

Lemma ceiling_division (distance speed : Z) :
  1 ≤ speed →
  (distance + speed - 1) `div` speed = - ((- distance) `div` speed).
Proof.
  intros Hs.
  pose proof (Z.div_mod (distance + speed - 1) speed ltac:(lia)) as Hdm.
  pose proof (Z.mod_pos_bound (distance + speed - 1) speed ltac:(lia)) as Hb.
  set (q := (distance + speed - 1) `div` speed) in *.
  set (r := (distance + speed - 1) `mod` speed) in *.
  assert ((- distance) `div` speed = - q) as ->; [|lia].
  symmetry. apply Z.div_unique with (r := speed - 1 - r); lia.
Qed.

Lemma ceiling_division_bounds (distance speed : Z) :
  1 ≤ speed →
  let eta := (distance + speed - 1) `div` speed in
  (eta - 1) * speed < distance ≤ eta * speed.
Proof.
  intros Hs eta.
  pose proof (Z.div_mod (distance + speed - 1) speed ltac:(lia)) as Hdm.
  pose proof (Z.mod_pos_bound (distance + speed - 1) speed ltac:(lia)) as Hb.
  fold eta in Hdm. nia.
Qed.

Lemma calculate_eta_speed_1 (x1 y1 x2 y2 : Z) :
  calculate_eta x1 y1 x2 y2 1 = Ok (calculate_distance x1 y1 x2 y2).
Proof.
  unfold calculate_eta, calculate_distance. simpl.
  f_equal. rewrite Z.div_1_r. lia.
Qed.

Lemma calculate_driver_score_total (d : Driver.t) (r : RideRequest.t) :
  calculate_driver_score d r = Ok (score_value d r).
Proof.
  unfold score_value, calculate_driver_score.
  by rewrite calculate_eta_speed_1.
Qed.

Lemma score_value_eq (d : Driver.t) (r : RideRequest.t) :
  score_value d r =
    calculate_distance (Driver.x d) (Driver.y d)
      (RideRequest.pickup_x r) (RideRequest.pickup_y r)
    + Driver.totalTrips d * 10 - Z.min (Driver.idleTicks d) 50.
Proof.
  unfold score_value, calculate_driver_score.
  by rewrite calculate_eta_speed_1.
Qed.

(** C8: at every speed of at least 1, [calculate_eta] returns the ceiling
    of the Manhattan distance divided by the speed: the least number of
    ticks that covers the distance.  Swapping the endpoints gives the same
    eta, and a distance of 5 at speed 2 gives 3. *)
Theorem calculate_eta_is_ceiling (x1 y1 x2 y2 speed : Z) :
  1 ≤ speed →
  ∃ eta,
    calculate_eta x1 y1 x2 y2 speed = Ok eta
    ∧ eta = - ((- calculate_distance x1 y1 x2 y2) `div` speed)
    ∧ (eta - 1) * speed < Z.abs (x1 - x2) + Z.abs (y1 - y2) ≤ eta * speed
    ∧ calculate_eta x2 y2 x1 y1 speed = Ok eta
    ∧ calculate_eta 0 0 2 3 2 = Ok 3.
Proof.
  intros Hs. eexists. split; [|split; [|split; [|split]]].
  - unfold calculate_eta. destruct (decide (speed = 0)); [lia|]. reflexivity.
  - unfold calculate_distance. by apply ceiling_division.
  - by apply ceiling_division_bounds.
  - unfold calculate_eta. destruct (decide (speed = 0)); [lia|].
    do 2 f_equal. lia.
  - reflexivity.
Qed.

Lemma calculate_eta_is_ceiling_witness :
  ∃ eta,
    calculate_eta 1 7 4 5 2 = Ok eta
    ∧ eta = - ((- calculate_distance 1 7 4 5) `div` 2)
    ∧ (eta - 1) * 2 < Z.abs (1 - 4) + Z.abs (7 - 5) ≤ eta * 2
    ∧ calculate_eta 4 5 1 7 2 = Ok eta
    ∧ calculate_eta 0 0 2 3 2 = Ok 3.
Proof. apply (calculate_eta_is_ceiling 1 7 4 5 2). lia. Defined.

(** C5: the score of a driver for a request is the eta at speed 1 from
    the driver to the pickup, plus ten times the driver's trips, minus the
    idle ticks capped at fifty.  Of two drivers with eta 4 and no idle
    ticks, one with five trips and one with none, the one with none scores
    strictly lower: 4 against 54. *)
Theorem calculate_driver_score_formula (d d' : Driver.t) (r : RideRequest.t) :
  (∃ eta,
     calculate_eta (Driver.x d) (Driver.y d)
       (RideRequest.pickup_x r) (RideRequest.pickup_y r) 1 = Ok eta
     ∧ calculate_driver_score d r
       = Ok (eta + Driver.totalTrips d * 10 - Z.min (Driver.idleTicks d) 50))
  ∧ (calculate_eta (Driver.x d) (Driver.y d)
       (RideRequest.pickup_x r) (RideRequest.pickup_y r) 1 = Ok 4 →
     calculate_eta (Driver.x d') (Driver.y d')
       (RideRequest.pickup_x r) (RideRequest.pickup_y r) 1 = Ok 4 →
     Driver.idleTicks d = 0 → Driver.idleTicks d' = 0 →
     Driver.totalTrips d = 5 → Driver.totalTrips d' = 0 →
     calculate_driver_score d r = Ok 54
     ∧ calculate_driver_score d' r = Ok 4
     ∧ score_value d' r < score_value d r).
Proof.
  split.
  - eexists. split; [apply calculate_eta_speed_1|].
    by rewrite calculate_driver_score_total, score_value_eq.
  - rewrite !calculate_eta_speed_1. intros [= He] [= He'] Hi Hi' Ht Ht'.
    rewrite !calculate_driver_score_total, !score_value_eq.
    rewrite He, He', Hi, Hi', Ht, Ht'. split_and!; [done | done | lia].
Qed.

Lemma calculate_driver_score_formula_witness :
  let d := Driver.mk "Driver 1" 0 4 available 5 0 None None None None in
  let d' := Driver.mk "Driver 2" 4 0 available 0 0 None None None None in
  let r := RideRequest.mk "Request 1" "Rider 1" waiting 0 0 9 9 None in
  calculate_driver_score d r = Ok 54
  ∧ calculate_driver_score d' r = Ok 4
  ∧ score_value d' r < score_value d r.
Proof.
  intros d d' r.
  apply (calculate_driver_score_formula d d' r); reflexivity.
Defined.

(** The head of the stable sort is the first entry of least key. *)
Lemma sort_scored_head {A} (p0 : A * Z) (l : list (A * Z)) :
  ∃ l1 p l2 rest,
    p0 :: l = l1 ++ p :: l2
    ∧ sort_scored (p0 :: l) = p :: rest
    ∧ (∀ q, q ∈ l1 → p.2 < q.2)
    ∧ (∀ q, q ∈ l2 → p.2 ≤ q.2).
Proof.
  revert p0. induction l as [|a l IH]; intros p0.
  - exists [], p0, [], []. split_and!; try done; intros q Hq; by apply elem_of_nil in Hq.
  - destruct (IH a) as (l1 & p & l2 & rest & Hl & Hs & H1 & H2).
    change (sort_scored (p0 :: a :: l)) with (insert_scored p0 (sort_scored (a :: l))).
    rewrite Hs. simpl. destruct (decide (p0.2 ≤ p.2)) as [Hle|Hgt].
    + exists [], p0, (a :: l), (p :: rest). split_and!; try done.
      * intros q Hq. by apply elem_of_nil in Hq.
      * intros q Hq. rewrite Hl in Hq.
        apply elem_of_app in Hq as [Hq|Hq].
        -- specialize (H1 q Hq). lia.
        -- apply elem_of_cons in Hq as [->|Hq]; [done|].
           specialize (H2 q Hq). lia.
    + exists (p0 :: l1), p, l2, (insert_scored p0 rest). split_and!; try done.
      * by rewrite Hl.
      * intros q Hq. apply elem_of_cons in Hq as [->|Hq]; [lia|]. by apply H1.
Qed.

Lemma rmap_list_scores (drv : nat → Driver.t) (r : RideRequest.t) (l : list nat) :
  rmap_list (λ driver,
      rbind (calculate_driver_score (drv driver) r) (λ score, Ok (driver, score))) l
  = Ok (map (λ driver, (driver, score_value (drv driver) r)) l).
Proof.
  induction l as [|a l IH]; [done|].
  cbn [rmap_list]. rewrite calculate_driver_score_total. cbn [rbind].
  by rewrite IH.
Qed.

Lemma find_best_driver_first_minimum (drv : nat → Driver.t) (r : RideRequest.t)
    (d0 : nat) (ds : list nat) :
  ∃ l1 best l2,
    d0 :: ds = l1 ++ best :: l2
    ∧ find_best_driver drv (d0 :: ds) r = Ok best
    ∧ (∀ d, d ∈ l1 → score_value (drv best) r < score_value (drv d) r)
    ∧ (∀ d, d ∈ l2 → score_value (drv best) r ≤ score_value (drv d) r).
Proof.
  set (f := λ driver : nat, (driver, score_value (drv driver) r)).
  destruct (sort_scored_head (f d0) (map f ds))
    as (l1 & p & l2 & rest & Hl & Hs & H1 & H2).
  change (f d0 :: map f ds) with (map f (d0 :: ds)) in Hl, Hs.
  pose proof Hl as Hl'.
  apply map_eq_app in Hl' as (k1 & k2' & Hk & Hk1 & Hk2).
  destruct k2' as [|b k2]; [done|]. simpl in Hk2. injection Hk2 as Hb Hk2.
  exists k1, b, k2. subst p l1 l2. split_and!; try done.
  - unfold find_best_driver. rewrite rmap_list_scores. fold f.
    cbn [rbind]. by rewrite Hs.
  - intros d Hd. apply (H1 (f d)). apply list_elem_of_fmap. by exists d.
  - intros d Hd. apply (H2 (f d)). apply list_elem_of_fmap. by exists d.
Qed.

(** C6: on a non-empty list of candidates [find_best_driver] returns a
    driver of least score, and of the drivers that share the least score
    the one that comes first in the list; with scores 5, 3, 3 that is the
    second driver.  On the empty list it raises [ValueError]. *)
Theorem find_best_driver_spec (drv : nat → Driver.t) (r : RideRequest.t)
    (d0 : nat) (ds : list nat) :
  (∃ l1 best l2,
     d0 :: ds = l1 ++ best :: l2
     ∧ find_best_driver drv (d0 :: ds) r = Ok best
     ∧ (∀ d, d ∈ d0 :: ds →
          ∃ sb sd, calculate_driver_score (drv best) r = Ok sb
                   ∧ calculate_driver_score (drv d) r = Ok sd ∧ sb ≤ sd)
     ∧ (∀ d, d ∈ l1 →
          ∃ sb sd, calculate_driver_score (drv best) r = Ok sb
                   ∧ calculate_driver_score (drv d) r = Ok sd ∧ sb < sd))
  ∧ find_best_driver drv [] r = Raise ValueError
  ∧ (let pool := λ n : nat,
       match n with
       | O => Driver.mk "Driver 1" 0 5 available 0 0 None None None None
       | S O => Driver.mk "Driver 2" 0 3 available 0 0 None None None None
       | _ => Driver.mk "Driver 3" 3 0 available 0 0 None None None None
       end in
     let request := RideRequest.mk "Request 1" "Rider 1" waiting 0 0 7 7 None in
     map (λ d, calculate_driver_score (pool d) request) [0; 1; 2]%nat
       = [Ok 5; Ok 3; Ok 3]
     ∧ find_best_driver pool [0; 1; 2]%nat request = Ok 1%nat).
Proof.
  split_and!; [|done|done].
  destruct (find_best_driver_first_minimum drv r d0 ds)
    as (l1 & best & l2 & Hl & Hf & H1 & H2).
  exists l1, best, l2. split_and!; try done.
  - intros d Hd. exists (score_value (drv best) r), (score_value (drv d) r).
    rewrite !calculate_driver_score_total. split_and!; try done.
    rewrite Hl in Hd. apply elem_of_app in Hd as [Hd|Hd].
    + specialize (H1 d Hd). lia.
    + apply elem_of_cons in Hd as [->|Hd]; [lia|]. by apply H2.
  - intros d Hd. exists (score_value (drv best) r), (score_value (drv d) r).
    rewrite !calculate_driver_score_total. split_and!; try done. by apply H1.
Qed.

End scoring.

(** ** Reasoning about operations

    [triple P m Q E]: from a state that satisfies [P], the operation [m]
    either returns [a] in a state that satisfies [Q a], or raises [e] in a
    state that satisfies [E e]. *)

Section triples.

Lemma triple_ret {A} (P : State → Prop) (a : A) Q E :
  (∀ s, P s → Q a s) → triple P (ret a) Q E.
Proof. intros H s Hs. by apply H. Qed.

Lemma triple_raise {A} (P : State → Prop) (e : exn) (Q : A → State → Prop) E :
  (∀ s, P s → E e s) → triple P (raise e) Q E.
Proof. intros H s Hs. by apply H. Qed.

Lemma triple_gets {A} (P : State → Prop) (f : State → A) Q E :
  (∀ s, P s → Q (f s) s) → triple P (gets f) Q E.
Proof. intros H s Hs. by apply H. Qed.

Lemma triple_modify (P : State → Prop) (f : State → State) Q E :
  (∀ s, P s → Q tt (f s)) → triple P (modify f) Q E.
Proof. intros H s Hs. by apply H. Qed.

Lemma triple_bind {A B} (P : State → Prop) (m : M A) (k : A → M B) R Q E :
  triple P m R E → (∀ a, triple (R a) (k a) Q E) → triple P (bind m k) Q E.
Proof.
  intros Hm Hk s Hs. unfold bind. specialize (Hm s Hs).
  destruct (m s) as [s' [a|e]]; [|done]. by apply Hk.
Qed.

Lemma triple_conseq {A} (P P' : State → Prop) (m : M A)
    (Q Q' : A → State → Prop) (E E' : exn → State → Prop) :
  triple P' m Q' E' →
  (∀ s, P s → P' s) → (∀ a s, Q' a s → Q a s) → (∀ e s, E' e s → E e s) →
  triple P m Q E.
Proof.
  intros Hm HP HQ HE s Hs. specialize (Hm s (HP s Hs)).
  destruct (m s) as [s' [a|e]]; auto.
Qed.

Lemma triple_pre {A} (P : State → Prop) (m : M A) Q E :
  (∀ s, P s → triple (λ s', s' = s) m Q E) → triple P m Q E.
Proof. intros H s Hs. by apply (H s Hs s). Qed.

Lemma triple_for_each {A} (I : State → Prop) (l : list A) (body : A → M unit) E :
  (∀ a, a ∈ l → triple I (body a) (λ _, I) E) →
  triple I (for_each l body) (λ _, I) E.
Proof.
  induction l as [|a l IH]; intros Hbody.
  - by apply triple_ret.
  - simpl. apply triple_bind with (R := λ _, I).
    + apply Hbody. left.
    + intros _. apply IH. intros b Hb. apply Hbody. by right.
Qed.

Lemma triple_run {A} (P : State → Prop) (m : M A) Q E s :
  triple P m Q E → P s →
  match m s with (s', Ok a) => Q a s' | (s', Raise e) => E e s' end.
Proof. intros H. apply H. Qed.

Lemma triple_total {A} (P Q : State → Prop) (m : M A) :
  (∀ s, P s → Q (m s).1) → triple P m (λ _, Q) (λ _, Q).
Proof. intros H s Hs. specialize (H s Hs). by destruct (m s) as [s' [a|e]]. Qed.

Lemma triple_returns {A} (P : State → Prop) (Q : A → State → Prop) E
    (m : M A) (f : State → A) :
  (∀ s, (m s).2 = Ok (f s)) → (∀ s, P s → Q (f s) (m s).1) → triple P m Q E.
Proof.
  intros Hm H s Hs. specialize (H s Hs). specialize (Hm s).
  destruct (m s) as [s' [a|e]]; simpl in *; [by injection Hm as ->|done].
Qed.

Lemma triple_final {A} (P Q : State → Prop) (m : M A) (s : State) :
  triple P m (λ _, Q) (λ _, Q) → P s → Q (m s).1.
Proof. intros H Hs. specialize (H s Hs). by destruct (m s) as [s' [a|e]]. Qed.

End triples.

(** ** Which exceptions can leave an operation *)

Section exceptions.
Import ScoringService.

Lemma find_best_driver_result (drv : nat → Driver.t) (l : list nat) (r : RideRequest.t) :
  (l = [] ∧ find_best_driver drv l r = Raise ValueError)
  ∨ (∃ best, best ∈ l ∧ find_best_driver drv l r = Ok best).
Proof.
  destruct l as [|d0 ds]; [by left|right].
  destruct (find_best_driver_first_minimum drv r d0 ds) as (l1 & b & l2 & Hl & Hf & _).
  exists b. split; [|done]. rewrite Hl. apply elem_of_app. right. left.
Qed.

Lemma process_loop_returns (queue_copy remaining processed : list nat) :
  triple (λ _, True) (QueueService.process_loop queue_copy remaining processed)
    (λ _ _, True) (λ _ _, False).
Proof.
  revert remaining processed.
  induction queue_copy as [|request rest IH]; intros remaining processed.
  - by apply triple_ret.
  - destruct remaining as [|d0 ds]; [by apply triple_ret|].
    cbn [QueueService.process_loop].
    eapply triple_bind; [by apply triple_gets with (Q := λ _ _, True)|].
    intros s.
    destruct (find_best_driver_result (drv s) (d0 :: ds) (req s request))
      as [[? _]|(best & _ & Hbest)]; [done|].
    rewrite Hbest.
    eapply triple_bind with (R := λ _ _, True); [by intros s' _|].
    intros _. eapply triple_bind; [by apply triple_gets with (Q := λ _ _, True)|].
    intros s'. apply IH.
Qed.

Lemma process_queue_returns (available_drivers : list nat) :
  triple (λ _, True) (QueueService.process_queue available_drivers)
    (λ _ _, True) (λ _ _, False).
Proof.
  unfold QueueService.process_queue.
  destruct available_drivers as [|d0 ds]; [by apply triple_ret|].
  eapply triple_bind; [by apply triple_gets with (Q := λ _ _, True)|].
  intros empty. destruct empty; [by apply triple_ret|].
  eapply triple_bind; [by apply triple_gets with (Q := λ _ _, True)|].
  intros queue_copy. eapply triple_bind; [apply process_loop_returns|].
  intros processed. eapply triple_bind with (R := λ _ _, True).
  - apply triple_for_each. by intros r _ s _.
  - intros _. by apply triple_ret.
Qed.

Lemma _process_queue_raises_only_AttributeError :
  triple (λ _, True) SimulationEngine._process_queue
    (λ _ _, True) (λ e _, e = AttributeError).
Proof.
  unfold SimulationEngine._process_queue.
  eapply triple_bind; [by apply triple_gets with (Q := λ _ _, True)|].
  intros available. apply triple_bind with (R := λ _ _, True).
  - eapply triple_conseq; [apply process_queue_returns|..]; simpl; done.
  - intros processed. simpl. apply triple_for_each.
    intros r _ s _. unfold bind, read_req, gets.
    by destruct (RideRequest.assigned_driver_id (req s r)).
Qed.

Lemma _try_assign_request_returns (request : nat) :
  triple (λ _, True) (SimulationEngine._try_assign_request request)
    (λ _ _, True) (λ _ _, False).
Proof.
  unfold SimulationEngine._try_assign_request.
  eapply triple_bind; [by apply triple_gets with (Q := λ _ _, True)|].
  intros [|d0 ds]; [by apply triple_ret|].
  eapply triple_bind; [by apply triple_gets with (Q := λ _ _, True)|].
  intros s.
  destruct (find_best_driver_result (drv s) (d0 :: ds) (req s request))
    as [[? _]|(best & _ & Hbest)]; [done|].
  rewrite Hbest. by intros s' _.
Qed.

End exceptions.

(** ** Failing before anything is written *)

Section bounds.

Lemma add_driver_in_bounds_raises_only_AttributeError (x y : Z) :
  0 ≤ x < DEFAULT_GRID_WIDTH ∧ 0 ≤ y < DEFAULT_GRID_HEIGHT →
  triple (λ _, True) (SimulationEngine.add_driver x y)
    (λ _ _, True) (λ e _, e = AttributeError).
Proof.
  intros Hin. unfold SimulationEngine.add_driver, DriverService.add_driver.
  rewrite bool_decide_true by done. cbn [negb].
  apply triple_bind with (R := λ _ _, True); [by intros s _|].
  intros driver. apply triple_bind with (R := λ _ _, True).
  - apply _process_queue_raises_only_AttributeError.
  - intros _. by apply triple_ret.
Qed.

Lemma add_driver_out_of_bounds (x y : Z) (s : State) :
  ¬ (0 ≤ x < DEFAULT_GRID_WIDTH ∧ 0 ≤ y < DEFAULT_GRID_HEIGHT) →
  SimulationEngine.add_driver x y s = (s, Raise PositionOutOfBoundsError).
Proof.
  intros Hout. unfold SimulationEngine.add_driver, DriverService.add_driver, bind.
  by rewrite bool_decide_false.
Qed.

Lemma add_rider_in_bounds_returns (px py dx dy : Z) :
  RiderService._is_valid_position px py = true →
  RiderService._is_valid_position dx dy = true →
  triple (λ _, True) (SimulationEngine.add_rider px py dx dy)
    (λ _ _, True) (λ _ _, False).
Proof.
  intros Hp Hd. unfold SimulationEngine.add_rider, RiderService.add_rider.
  rewrite Hp, Hd. cbn [negb].
  apply triple_bind with (R := λ _ _, True); [by intros s _|].
  intros rider. apply triple_bind with (R := λ _ _, True); [by intros s _|].
  intros request. apply triple_bind with (R := λ _ _, True).
  - apply _try_assign_request_returns.
  - intros ok. apply triple_bind with (R := λ _ _, True).
    + by destruct ok; intros s _.
    + intros _. by apply triple_ret.
Qed.

Lemma add_rider_out_of_bounds (px py dx dy : Z) (s : State) :
  RiderService._is_valid_position px py = false
  ∨ RiderService._is_valid_position dx dy = false →
  SimulationEngine.add_rider px py dx dy s = (s, Raise PositionOutOfBoundsError).
Proof.
  intros Hout. unfold SimulationEngine.add_rider, RiderService.add_rider, bind.
  destruct (RiderService._is_valid_position px py); [|done].
  destruct Hout as [Hp | Hd]; [done | by rewrite Hd].
Qed.

(** C9: when [add_driver] or [add_rider] raises
    [PositionOutOfBoundsError], the state it leaves is the state it was
    called in: no driver, rider or request was created, the queue is as
    it was, and every id counter has its old value.  A coordinate outside
    the grid makes the call raise exactly so. *)
Theorem out_of_bounds_leaves_state_unchanged
    (s s' : State) (x y px py dx dy : Z) :
  (SimulationEngine.add_driver x y s = (s', Raise PositionOutOfBoundsError) →
     s' = s
     ∧ driver_counter s' = driver_counter s
     ∧ rider_counter s' = rider_counter s
     ∧ request_counter s' = request_counter s)
  ∧ (SimulationEngine.add_rider px py dx dy s = (s', Raise PositionOutOfBoundsError) →
     s' = s
     ∧ driver_counter s' = driver_counter s
     ∧ rider_counter s' = rider_counter s
     ∧ request_counter s' = request_counter s)
  ∧ (¬ (0 ≤ x < 20 ∧ 0 ≤ y < 20) →
     SimulationEngine.add_driver x y s = (s, Raise PositionOutOfBoundsError))
  ∧ (¬ (0 ≤ px < 20 ∧ 0 ≤ py < 20) ∨ ¬ (0 ≤ dx < 20 ∧ 0 ≤ dy < 20) →
     SimulationEngine.add_rider px py dx dy s = (s, Raise PositionOutOfBoundsError)).
Proof.
  assert (∀ a b : State, a = b →
    a = b ∧ driver_counter a = driver_counter b
    ∧ rider_counter a = rider_counter b
    ∧ request_counter a = request_counter b) as Hall by (by intros a b ->).
  split; [|split; [|split]].
  - intros Hrun. apply Hall.
    destruct (decide (0 ≤ x < DEFAULT_GRID_WIDTH ∧ 0 ≤ y < DEFAULT_GRID_HEIGHT))
      as [Hin|Hout].
    + pose proof (triple_run _ _ _ _ s
        (add_driver_in_bounds_raises_only_AttributeError x y Hin) I) as Ht.
      rewrite Hrun in Ht. done.
    + rewrite add_driver_out_of_bounds in Hrun by done. congruence.
  - intros Hrun. apply Hall.
    destruct (RiderService._is_valid_position px py) eqn:Hp;
      [destruct (RiderService._is_valid_position dx dy) eqn:Hd|].
    + pose proof (triple_run _ _ _ _ s
        (add_rider_in_bounds_returns px py dx dy Hp Hd) I) as Ht.
      rewrite Hrun in Ht. done.
    + rewrite add_rider_out_of_bounds in Hrun by auto. congruence.
    + rewrite add_rider_out_of_bounds in Hrun by auto. congruence.
  - apply add_driver_out_of_bounds.
  - intros Hout. apply add_rider_out_of_bounds. unfold RiderService._is_valid_position.
    destruct Hout as [Hout|Hout]; [left|right]; by apply bool_decide_eq_false.
Qed.

Lemma out_of_bounds_leaves_state_unchanged_witness :
  let s := run [op_add_driver 3 4; op_add_rider 1 1 5 5] SimulationEngine.initial in
  (s = s ∧ driver_counter s = driver_counter s
   ∧ rider_counter s = rider_counter s ∧ request_counter s = request_counter s)
  ∧ (s = s ∧ driver_counter s = driver_counter s
   ∧ rider_counter s = rider_counter s ∧ request_counter s = request_counter s)
  ∧ SimulationEngine.add_driver 20 5 s = (s, Raise PositionOutOfBoundsError)
  ∧ SimulationEngine.add_rider 0 0 0 20 s = (s, Raise PositionOutOfBoundsError).
Proof.
  intros s.
  destruct (out_of_bounds_leaves_state_unchanged s s 20 5 0 0 0 20)
    as (Hd & Hr & Hd' & Hr').
  split; [|split; [|split]].
  - apply Hd. reflexivity.
  - apply Hr. reflexivity.
  - apply Hd'. lia.
  - apply Hr'. lia.
Defined.

End bounds.

(** ** The invariant under the elementary writes *)

Section invariant_writes.

Lemma req_id_inj (n m : nat) : req_id n = req_id m → n = m.
Proof.
  unfold req_id. intros H. apply (inj _) in H. by apply (inj pretty) in H.
Qed.

Lemma invariant_initial : engine_invariant SimulationEngine.initial.
Proof.
  assert (∀ r, ¬ live SimulationEngine.initial r) as Hlive.
  { intros r [Hr|[k Hk]]; [by apply elem_of_nil in Hr|].
    change (requests SimulationEngine.initial) with (∅ : gmap string nat) in Hk.
    by rewrite lookup_empty in Hk. }
  constructor.
  - intros d Hd. by apply elem_of_nil in Hd.
  - intros k r Hk.
    change (riders SimulationEngine.initial) with (∅ : gmap string Rider.t) in Hk.
    by rewrite lookup_empty in Hk.
  - intros r Hr. by apply Hlive in Hr.
  - intros r1 r2 Hr. by apply Hlive in Hr.
  - intros k r Hk. destruct (Hlive r). right. by exists k.
Qed.

Lemma invariant_set_next_drv s n :
  engine_invariant s → engine_invariant (set_next_drv n s).
Proof. intros [H1 H2 H3 H4 H5]. by constructor. Qed.

Lemma invariant_set_driver_counter s n :
  engine_invariant s → engine_invariant (set_driver_counter n s).
Proof. intros [H1 H2 H3 H4 H5]. by constructor. Qed.

Lemma invariant_set_rider_counter s n :
  engine_invariant s → engine_invariant (set_rider_counter n s).
Proof. intros [H1 H2 H3 H4 H5]. by constructor. Qed.

Lemma invariant_set_riders s m :
  engine_invariant s →
  (∀ k rider, m !! k = Some rider → rider_in_grid rider) →
  engine_invariant (set_riders m s).
Proof. intros [H1 H2 H3 H4 H5] Hm. by constructor. Qed.

Lemma invariant_set_drivers s l :
  engine_invariant s →
  (∀ d, d ∈ l → d ∈ drivers s ∨ driver_ok s (drv s d)) →
  engine_invariant (set_drivers l s).
Proof.
  intros [H1 H2 H3 H4 H5] Hl. constructor; try done.
  intros d Hd. destruct (Hl d Hd) as [Hin|Hok]; [by apply H1|done].
Qed.

Lemma invariant_set_request_queue s l :
  engine_invariant s →
  (∀ r, r ∈ l → live s r) →
  engine_invariant (set_request_queue l s).
Proof.
  intros [H1 H2 H3 H4 H5] Hl.
  assert (∀ r, live (set_request_queue l s) r → live s r) as Hlive.
  { intros r [Hr|Hr]; [by apply Hl|by right]. }
  constructor; try done.
  - intros r Hr. by apply H3, Hlive.
  - intros r1 r2 Hr1 Hr2. apply H4; by apply Hlive.
Qed.

Lemma invariant_set_requests s m :
  engine_invariant s →
  m ⊆ requests s →
  engine_invariant (set_requests m s).
Proof.
  intros [H1 H2 H3 H4 H5] Hm.
  assert (∀ k r, m !! k = Some r → requests s !! k = Some r) as Hsub.
  { intros k r Hk. by eapply lookup_weaken. }
  assert (∀ r, live (set_requests m s) r → live s r) as Hlive.
  { intros r [Hr|[k Hk]]; [by left|right; exists k; by apply Hsub]. }
  constructor; try done.
  - intros d Hd. destruct (H1 d Hd) as (Hg & Ht & Ha).
    split_and!; try done. intros k Hk. destruct (Ha k Hk) as [Hn Hr].
    split; [done|]. intros r Hkr. apply Hr. by apply Hsub.
  - intros r Hr. by apply H3, Hlive.
  - intros r1 r2 Hr1 Hr2. apply H4; by apply Hlive.
  - intros k r Hk. by apply H5, Hsub.
Qed.

(** Writing the fields of one driver object. *)
Lemma invariant_write_driver s d f :
  engine_invariant s →
  (∀ d', d' ≠ d → f d' = drv s d') →
  (d ∈ drivers s → driver_ok s (f d)) →
  engine_invariant (set_drv f s).
Proof.
  intros [H1 H2 H3 H4 H5] Hf Hd. constructor; try done.
  intros d' Hd'. simpl. destruct (decide (d' = d)) as [->|Hne].
  - by apply Hd.
  - rewrite Hf by done. by apply H1.
Qed.

(** Writing the fields of one request object: the id and the positions
    stay, and a request that is in the registry ends up assigned. *)
Lemma invariant_write_request s r f :
  engine_invariant s →
  (∀ r', r' ≠ r → f r' = req s r') →
  RideRequest.id (f r) = RideRequest.id (req s r) →
  (request_in_grid (req s r) → request_in_grid (f r)) →
  (∀ k, requests s !! k = Some r →
     RideRequest.status (f r) = assigned
     ∧ is_Some (RideRequest.assigned_driver_id (f r))) →
  engine_invariant (set_req f s).
Proof.
  intros [H1 H2 H3 H4 H5] Hf Hid Hgrid Hreg.
  assert (∀ r', RideRequest.id (f r') = RideRequest.id (req s r')) as Hids.
  { intros r'. destruct (decide (r' = r)) as [->|Hne]; [done|by rewrite Hf]. }
  constructor; try done; simpl.
  - intros d Hd. destruct (H1 d Hd) as (Hg & Ht & Ha).
    split_and!; try done. intros k Hk. destruct (Ha k Hk) as [Hn Hr].
    split; [done|]. intros r' Hkr. simpl.
    destruct (decide (r' = r)) as [->|Hne].
    + by apply (Hreg k).
    + rewrite Hf by done. by apply Hr.
  - intros r' Hr'. destruct (H3 r' Hr') as (Hlt & Hg & Hn).
    split_and!; [done| |by rewrite Hids].
    destruct (decide (r' = r)) as [->|Hne]; [by apply Hgrid|by rewrite Hf].
  - intros r1 r2 Hr1 Hr2. rewrite !Hids. by apply H4.
  - intros k r' Hk. destruct (H5 k r' Hk) as [Hi Hs].
    split; [by rewrite Hids|].
    destruct (decide (r' = r)) as [->|Hne].
    + right. by apply (Hreg k).
    + by rewrite Hf.
Qed.

End invariant_writes.

(** Symbolic execution of straight-line code. *)
Ltac mrun :=
  unfold bind, ret, gets, modify, raise, read_drv, write_drv, read_req, write_req;
  cbn.

(** ** The invariant under every operation *)

Section invariant_steps.

(** Handing the request [q] to the driver [b]: the writes of either
    [_assign_request_to_driver]. *)
Lemma invariant_assign s q b f g did :
  engine_invariant s →
  live s q →
  (∀ r', r' ≠ q → f r' = req s r') →
  f q = RideRequest.mk (RideRequest.id (req s q)) (RideRequest.rider_id (req s q))
          assigned
          (RideRequest.pickup_x (req s q)) (RideRequest.pickup_y (req s q))
          (RideRequest.dropoff_x (req s q)) (RideRequest.dropoff_y (req s q))
          (Some did) →
  (∀ d', d' ≠ b → g d' = drv s d') →
  g b = Driver.mk (Driver.id (drv s b)) (Driver.x (drv s b)) (Driver.y (drv s b))
          on_trip (Driver.totalTrips (drv s b)) 0
          (Some (RideRequest.id (req s q))) (Some to_pickup)
          (Some (RideRequest.pickup_x (req s q)))
          (Some (RideRequest.pickup_y (req s q))) →
  engine_invariant (set_drv g (set_req f s)).
Proof.
  intros Hs Hq Hf Hfq Hg Hgb.
  assert (engine_invariant (set_req f s)) as Hs'.
  { apply (invariant_write_request s q f); try done.
    - by rewrite Hfq.
    - rewrite Hfq. by intros [??].
    - intros k _. rewrite Hfq. simpl. eauto. }
  apply (invariant_write_driver (set_req f s) b g); try done.
  intros Hb. rewrite Hgb. destruct Hs as [H1 H2 H3 H4 H5].
  destruct (H1 b Hb) as (Hgrid & _ & _).
  destruct (H3 q Hq) as (_ & [Hpick _] & n & Hn & Hid).
  split_and!; simpl.
  - done.
  - split; intros t [= <-]; apply Hpick.
  - intros k [= <-]. split; [by exists n|].
    intros r Hr. destruct (H5 _ _ Hr) as [Hidr _].
    assert (r = q) as ->.
    { apply H4; [right; by eexists|done|done]. }
    by rewrite Hfq.
Qed.

Lemma invariant_queue_assign q b s :
  engine_invariant s → live s q →
  engine_invariant (QueueService._assign_request_to_driver q b s).1.
Proof.
  intros Hs Hq. unfold QueueService._assign_request_to_driver. mrun.
  eapply (invariant_assign s q b _ _ _ Hs Hq).
  - intros r' Hne. by rewrite fn_lookup_insert_ne.
  - by rewrite fn_lookup_insert.
  - intros d' Hne. by rewrite fn_lookup_insert_ne.
  - by rewrite fn_lookup_insert.
Qed.

Lemma invariant_engine_assign q b s :
  engine_invariant s → live s q →
  engine_invariant (SimulationEngine._assign_request_to_driver q b s).1.
Proof.
  intros Hs Hq.
  unfold SimulationEngine._assign_request_to_driver, RequestService.assign_request.
  mrun. rewrite !fn_lookup_insert. cbn.
  eapply (invariant_assign s q b _ _ _ Hs Hq).
  - intros r' Hne. by rewrite !fn_lookup_insert_ne.
  - by rewrite fn_lookup_insert.
  - intros d' Hne. by rewrite fn_lookup_insert_ne.
  - by rewrite fn_lookup_insert.
Qed.

Lemma invariant_create_request rider s :
  engine_invariant s → rider_in_grid rider →
  engine_invariant (RequestService.create_request rider s).1
  ∧ (RequestService.create_request rider s).2 = Ok (next_req s)
  ∧ requests (RequestService.create_request rider s).1
      !! req_id (S (request_counter s)) = Some (next_req s).
Proof.
  intros [H1 H2 H3 H4 H5] Hrider.
  unfold RequestService.create_request, RequestService.generate_request_id. mrun.
  fold (req_id (S (request_counter s))).
  split_and!; [|done|by rewrite lookup_insert_eq].
  set (k := req_id (S (request_counter s))).
  set (r := next_req s).
  assert (∀ r', live s r' → r' ≠ r) as Hfresh.
  { intros r' Hr'. destruct (H3 r' Hr') as (Hlt & _). unfold r. lia. }
  assert (∀ r', live s r' → RideRequest.id (req s r') ≠ k) as Hfreshid.
  { intros r' Hr' Hid. destruct (H3 r' Hr') as (_ & _ & n & Hn & Hidn).
    rewrite Hidn in Hid. apply req_id_inj in Hid. lia. }
  assert (requests s !! k = None) as Hk.
  { destruct (requests s !! k) as [r'|] eqn:Hkr; [|done].
    destruct (H5 _ _ Hkr) as [Hid _]. destruct (Hfreshid r'); [right; by eexists|done]. }
  match goal with |- engine_invariant ?st => set (s' := st) end.
  assert (∀ r', live s' r' → r' = r ∨ (r' ≠ r ∧ live s r')) as Hlive.
  { intros r' [Hr'|[k' Hk']].
    - right. split; [apply Hfresh|]; by left.
    - simpl in Hk'. destruct (decide (k = k')) as [<-|Hne].
      + rewrite lookup_insert_eq in Hk'. left. congruence.
      + rewrite lookup_insert_ne in Hk' by done. right.
        split; [apply Hfresh|]; right; by eexists. }
  subst s'. constructor; simpl.
  - intros d Hd. destruct (H1 d Hd) as (Hg & Ht & Ha). split_and!; try done.
    intros k' Hk'. simpl. destruct (Ha k' Hk') as [(n & Hn & ->) Hr].
    split; [exists n; split; [lia|done]|].
    intros r'. simpl. rewrite lookup_insert_ne.
    2:{ intros Heq. apply req_id_inj in Heq. lia. }
    intros Hr'. rewrite fn_lookup_insert_ne; [by apply Hr|].
    intros <-. by destruct (Hfresh r); [right; eexists|].
  - done.
  - intros r' Hr'. destruct (Hlive r' Hr') as [->|[Hne Hold]].
    + rewrite fn_lookup_insert. split_and!; [unfold r; lia|done|].
      exists (S (request_counter s)). done.
    + rewrite fn_lookup_insert_ne by done.
      destruct (H3 r' Hold) as (Hlt & Hg & n & Hn & Hid).
      split_and!; [lia|done|]. exists n. split; [lia|done].
  - intros r1 r2 Hr1 Hr2.
    destruct (Hlive r1 Hr1) as [->|[Hne1 Hold1]];
      destruct (Hlive r2 Hr2) as [->|[Hne2 Hold2]]; try done.
    + rewrite fn_lookup_insert, fn_lookup_insert_ne by done. simpl.
      intros Hid. by destruct (Hfreshid r2).
    + rewrite fn_lookup_insert, fn_lookup_insert_ne by done. simpl.
      intros Hid. by destruct (Hfreshid r1).
    + rewrite !fn_lookup_insert_ne by done. by apply H4.
  - intros k' r' Hk'. destruct (decide (k = k')) as [<-|Hne].
    + rewrite lookup_insert_eq in Hk'. injection Hk' as <-.
      rewrite fn_lookup_insert. split; [done|]. left. done.
    + rewrite lookup_insert_ne in Hk' by done.
      rewrite fn_lookup_insert_ne; [by apply H5|].
      intros <-. by destruct (Hfresh r); [right; eexists|].
Qed.

Lemma elem_of_remove_first_equal (f : nat → RideRequest.t) (x r : nat) (l : list nat) :
  r ∈ QueueService.remove_first_equal f x l → r ∈ l.
Proof.
  induction l as [|a l IH]; simpl; [done|].
  destruct (decide (f a = f x)).
  - intros Hr. by right.
  - intros [->|Hr]%elem_of_cons; [left|right; by apply IH].
Qed.

Lemma elem_of_remove_first_with_id (f : nat → Driver.t) (k : string) (d : nat)
    (l l' : list nat) :
  DriverService.remove_first_with_id f k l = Some l' → d ∈ l' → d ∈ l.
Proof.
  revert l'. induction l as [|a l IH]; intros l'; simpl; [done|].
  destruct (decide (Driver.id (f a) = k)).
  - intros [= ->] Hd. by right.
  - destruct (DriverService.remove_first_with_id f k l) as [l''|]; [|done].
    simpl. intros [= <-] [->|Hd]%elem_of_cons; [left|right; by apply (IH l'')].
Qed.

Lemma triple_invariant_try_assign (q : nat) :
  triple (λ s, engine_invariant s ∧ live s q)
    (SimulationEngine._try_assign_request q)
    (λ _ s, engine_invariant s ∧ live s q)
    (λ _ s, engine_invariant s ∧ live s q).
Proof.
  unfold SimulationEngine._try_assign_request.
  apply triple_bind with (R := λ _ s, engine_invariant s ∧ live s q);
    [by apply triple_gets|].
  intros [|d0 ds]; [by apply triple_ret|].
  apply triple_bind with (R := λ _ s, engine_invariant s ∧ live s q);
    [by apply triple_gets|].
  intros s.
  destruct (find_best_driver_result (drv s) (d0 :: ds) (req s q))
    as [[? _]|(best & _ & Hbest)]; [done|].
  rewrite Hbest.
  apply triple_bind with (R := λ _ s, engine_invariant s ∧ live s q).
  - apply (triple_total _ (λ s, engine_invariant s ∧ live s q)).
    intros s' [Hs' Hq']. split; [by apply invariant_engine_assign|done].
  - intros _. by apply triple_ret.
Qed.

Lemma triple_invariant_add_to_queue (q : nat) :
  triple (λ s, engine_invariant s ∧ live s q)
    (QueueService.add_to_queue q)
    (λ _ s, engine_invariant s)
    (λ _ s, engine_invariant s).
Proof.
  intros s [Hs Hq]. simpl. apply invariant_set_request_queue; [done|].
  intros r [Hr| ->%list_elem_of_singleton]%elem_of_app; [by left|done].
Qed.

Lemma triple_invariant_rider_service_add_rider (px py dx dy : Z) :
  triple engine_invariant (RiderService.add_rider px py dx dy)
    (λ rider s, engine_invariant s ∧ rider_in_grid rider)
    (λ _ s, engine_invariant s).
Proof.
  intros s Hs. unfold RiderService.add_rider.
  destruct (RiderService._is_valid_position px py) eqn:Hp; [|done].
  destruct (RiderService._is_valid_position dx dy) eqn:Hd; [|done].
  apply bool_decide_eq_true in Hp, Hd.
  unfold RiderService.generate_rider_id. mrun.
  assert (rider_in_grid (Rider.mk ("Rider " +:+ pretty (S (rider_counter s))) px py dx dy))
    as Hrider by done.
  split; [|done].
  apply invariant_set_riders; [by apply invariant_set_rider_counter|].
  intros k rider. destruct (decide ("Rider " +:+ pretty (S (rider_counter s)) = k)) as [<-|Hne].
  - rewrite lookup_insert_eq. by intros [= <-].
  - rewrite lookup_insert_ne by done. apply Hs.
Qed.

Lemma triple_invariant_request_service_create_request (rider : Rider.t) :
  triple (λ s, engine_invariant s ∧ rider_in_grid rider)
    (RequestService.create_request rider)
    (λ q s, engine_invariant s ∧ live s q)
    (λ _ s, engine_invariant s).
Proof.
  intros s [Hs Hr].
  destruct (invariant_create_request rider s Hs Hr) as (Hinv & Hres & Hreg).
  destruct (RequestService.create_request rider s) as [s' res]. simpl in *.
  subst res. split; [done|]. right. by eexists.
Qed.

Lemma triple_invariant_add_rider (px py dx dy : Z) :
  triple engine_invariant (SimulationEngine.add_rider px py dx dy)
    (λ _, engine_invariant) (λ _, engine_invariant).
Proof.
  unfold SimulationEngine.add_rider.
  eapply triple_bind; [apply triple_invariant_rider_service_add_rider|].
  intros rider. simpl.
  eapply triple_bind; [apply triple_invariant_request_service_create_request|].
  intros q. simpl.
  apply triple_bind with (R := λ _ s, engine_invariant s ∧ live s q).
  { eapply triple_conseq; [apply triple_invariant_try_assign|..]; simpl;
      [done|done|by intros e s [? ?]]. }
  intros ok. apply triple_bind with (R := λ _, engine_invariant).
  - destruct ok.
    + apply triple_ret. by intros s [? ?].
    + apply triple_invariant_add_to_queue.
  - intros _. by apply triple_ret.
Qed.

Lemma triple_invariant_create_request (rider_id : string) :
  triple engine_invariant (SimulationEngine.create_request rider_id)
    (λ _, engine_invariant) (λ _, engine_invariant).
Proof.
  unfold SimulationEngine.create_request.
  apply triple_bind with
    (R := λ rider s, engine_invariant s ∧ ∀ r, rider = Some r → rider_in_grid r).
  { apply triple_gets. intros s Hs. split; [done|]. intros r Hr.
    by eapply inv_riders. }
  intros [rider|]; [|apply triple_ret; by intros s [? ?]].
  apply triple_bind with (R := λ q s, engine_invariant s ∧ live s q).
  { eapply triple_conseq; [apply (triple_invariant_request_service_create_request rider)|..];
      simpl; [|done|done].
    intros s [Hs Hr]. split; [done|]. by apply Hr. }
  intros q.
  apply triple_bind with (R := λ _ s, engine_invariant s ∧ live s q).
  { eapply triple_conseq; [apply triple_invariant_try_assign|..]; simpl;
      [done|done|by intros e s [? ?]]. }
  intros ok. apply triple_bind with (R := λ _, engine_invariant).
  - destruct ok.
    + apply triple_ret. by intros s [? ?].
    + apply triple_invariant_add_to_queue.
  - intros _. by apply triple_ret.
Qed.

Lemma assigned_ok_queue_assign q b s p :
  p = q ∨ assigned_ok s p →
  assigned_ok (QueueService._assign_request_to_driver q b s).1 p.
Proof.
  unfold assigned_ok, QueueService._assign_request_to_driver. mrun.
  destruct (decide (p = q)) as [->|Hne].
  - rewrite fn_lookup_insert. simpl. eauto.
  - rewrite fn_lookup_insert_ne by done. by intros [?|?].
Qed.

Lemma triple_invariant_process_loop (queue_copy remaining processed : list nat) :
  triple
    (λ s, engine_invariant s
          ∧ (∀ q, q ∈ queue_copy → live s q)
          ∧ (∀ p, p ∈ processed → assigned_ok s p))
    (QueueService.process_loop queue_copy remaining processed)
    (λ res s, engine_invariant s ∧ ∀ p, p ∈ res → assigned_ok s p)
    (λ _ _, False).
Proof.
  revert remaining processed.
  induction queue_copy as [|request rest IH]; intros remaining processed.
  - apply triple_ret. by intros s (? & ? & ?).
  - destruct remaining as [|d0 ds]; [apply triple_ret; by intros s (? & ? & ?)|].
    cbn [QueueService.process_loop].
    apply triple_bind with
      (R := λ _ s, engine_invariant s
                   ∧ (∀ q, q ∈ request :: rest → live s q)
                   ∧ (∀ p, p ∈ processed → assigned_ok s p));
      [by apply triple_gets|].
    intros s0.
    destruct (find_best_driver_result (drv s0) (d0 :: ds) (req s0 request))
      as [[? _]|(best & _ & Hbest)]; [done|].
    rewrite Hbest.
    apply triple_bind with
      (R := λ _ s, engine_invariant s
                   ∧ (∀ q, q ∈ rest → live s q)
                   ∧ (∀ p, p ∈ processed ++ [request] → assigned_ok s p)).
    + apply triple_returns with (f := λ _, tt); [done|].
      intros s (Hs & Hlive & Hproc). split_and!.
      * apply invariant_queue_assign; [done|]. apply Hlive. left.
      * intros q Hq. apply (Hlive q). by right.
      * intros p Hp. apply assigned_ok_queue_assign.
        apply elem_of_app in Hp as [Hp|Hp%list_elem_of_singleton]; auto.
    + intros _.
      apply triple_bind with
        (R := λ _ s, engine_invariant s
                     ∧ (∀ q, q ∈ rest → live s q)
                     ∧ (∀ p, p ∈ processed ++ [request] → assigned_ok s p));
        [by apply triple_gets|].
      intros s1. apply IH.
Qed.

Lemma triple_invariant_remove_from_queue (r : nat) (P : State → Prop) :
  (∀ s l, P s → P (set_request_queue l s)) →
  triple (λ s, engine_invariant s ∧ P s)
    (QueueService.remove_from_queue r)
    (λ _ s, engine_invariant s ∧ P s)
    (λ _ _, False).
Proof.
  intros HP s [Hs HPs]. simpl. split; [|by apply HP].
  apply invariant_set_request_queue; [done|].
  intros r' Hr'. left. by eapply elem_of_remove_first_equal.
Qed.

Lemma triple_invariant_process_queue (available_drivers : list nat) :
  triple engine_invariant
    (QueueService.process_queue available_drivers)
    (λ res s, engine_invariant s ∧ ∀ p, p ∈ res → assigned_ok s p)
    (λ _ _, False).
Proof.
  unfold QueueService.process_queue.
  assert (∀ s, engine_invariant s →
    engine_invariant s ∧ ∀ p, p ∈ @nil nat → assigned_ok s p) as Hnil.
  { intros s Hs. split; [done|]. intros p Hp. by apply elem_of_nil in Hp. }
  destruct available_drivers as [|d0 ds]; [by apply triple_ret|].
  apply triple_bind with (R := λ _, engine_invariant); [by apply triple_gets|].
  intros empty.
  destruct empty; [by apply triple_ret|].
  apply triple_bind with
    (R := λ queue_copy s, engine_invariant s ∧ ∀ q, q ∈ queue_copy → live s q).
  { apply triple_gets. intros s Hs. split; [done|]. intros q Hq. by left. }
  intros queue_copy.
  apply triple_bind with
    (R := λ res s, engine_invariant s ∧ ∀ p, p ∈ res → assigned_ok s p).
  { eapply triple_conseq; [apply triple_invariant_process_loop|..]; simpl; [|done|done].
    intros s [Hs Hq]. split_and!; [done|done|].
    intros p Hp. by apply elem_of_nil in Hp. }
  intros processed.
  apply triple_bind with
    (R := λ _ s, engine_invariant s ∧ ∀ p, p ∈ processed → assigned_ok s p).
  - apply triple_for_each. intros r _.
    by apply (triple_invariant_remove_from_queue r
      (λ s, ∀ p, p ∈ processed → assigned_ok s p)).
  - intros _. by apply triple_ret.
Qed.

Lemma triple_invariant__process_queue :
  triple engine_invariant SimulationEngine._process_queue
    (λ _, engine_invariant) (λ _, engine_invariant).
Proof.
  unfold SimulationEngine._process_queue.
  apply triple_bind with (R := λ _, engine_invariant); [by apply triple_gets|].
  intros available.
  apply triple_bind with
    (R := λ res s, engine_invariant s ∧ ∀ p, p ∈ res → assigned_ok s p).
  { eapply triple_conseq; [apply triple_invariant_process_queue|..]; simpl; done. }
  intros processed.
  eapply triple_conseq with
    (P' := λ s, engine_invariant s ∧ ∀ p, p ∈ processed → assigned_ok s p)
    (Q' := λ _ s, engine_invariant s ∧ ∀ p, p ∈ processed → assigned_ok s p)
    (E' := λ _, engine_invariant);
    [|done|by intros _ s [? ?]|done].
  apply triple_for_each. intros r Hr s [Hs Hproc].
  destruct (Hproc r Hr) as [Hst Hadi].
  unfold RequestService.assign_request. mrun.
  assert (engine_invariant (set_req
    (<[r := RideRequest.mk (RideRequest.id (req s r)) (RideRequest.rider_id (req s r))
              assigned
              (RideRequest.pickup_x (req s r)) (RideRequest.pickup_y (req s r))
              (RideRequest.dropoff_x (req s r)) (RideRequest.dropoff_y (req s r))
              (RideRequest.assigned_driver_id (req s r))]> (req s)) s)) as Hinv.
  { apply (invariant_write_request s r); try done.
    - intros r' Hne. by rewrite fn_lookup_insert_ne.
    - by rewrite fn_lookup_insert.
    - by rewrite fn_lookup_insert.
    - intros k _. by rewrite fn_lookup_insert. }
  by destruct (RideRequest.assigned_driver_id (req s r)).
Qed.

Lemma triple_invariant_remove_rider (rider_id : string) (s0 : State) :
  engine_invariant
    (set_requests
       (filter (λ kr, RideRequest.rider_id (req s0 kr.2) ≠ rider_id) (requests s0)) s0) →
  triple (λ s, s = s0) (SimulationEngine.remove_rider rider_id)
    (λ _, engine_invariant) (λ _, engine_invariant).
Proof.
  intros Hinv. unfold SimulationEngine.remove_rider.
  apply triple_bind with (R := λ _, engine_invariant).
  { apply triple_modify. by intros s ->. }
  intros _. apply triple_bind with (R := λ _, engine_invariant);
    [by apply triple_gets|].
  intros queued. apply triple_bind with (R := λ _, engine_invariant).
  - apply triple_for_each. intros r _.
    apply triple_bind with (R := λ _, engine_invariant); [by apply triple_gets|].
    intros rq. destruct (decide (RideRequest.rider_id rq = rider_id)).
    + eapply triple_conseq;
        [apply (triple_invariant_remove_from_queue r (λ _, True)); done|..];
        simpl; [done|by intros _ s [? ?]|done].
    + by apply triple_ret.
  - intros _. unfold RiderService.remove_rider.
    apply triple_bind with (R := λ _, engine_invariant); [by apply triple_gets|].
    intros m. destruct (m !! rider_id).
    + apply triple_bind with (R := λ _, engine_invariant); [|intros _; by apply triple_ret].
      apply triple_modify. intros s Hs. apply invariant_set_riders; [done|].
      intros k rider [_ Hk]%lookup_delete_Some. by eapply inv_riders.
    + by apply triple_ret.
Qed.

Lemma triple_invariant_engine_remove_rider (rider_id : string) :
  triple engine_invariant (SimulationEngine.remove_rider rider_id)
    (λ _, engine_invariant) (λ _, engine_invariant).
Proof.
  apply triple_pre. intros s Hs. apply triple_invariant_remove_rider.
  apply invariant_set_requests; [done|]. apply map_filter_subseteq.
Qed.

(** The writes of [_complete_trip] up to the removal of the rider's
    requests: the completed request leaves the registry with them. *)
Lemma invariant_complete s d r k :
  engine_invariant s →
  requests s !! k = Some r →
  let s2 := (DriverService.complete_trip d (RequestService.complete_request r s).1).1 in
  engine_invariant
    (set_requests
       (filter (λ kr, RideRequest.rider_id (req s2 kr.2) ≠ RideRequest.rider_id (req s2 r))
          (requests s2)) s2).
Proof.
  intros Hs Hk. unfold DriverService.complete_trip, RequestService.complete_request.
  mrun. rewrite fn_lookup_insert. cbn.
  match goal with
  | |- engine_invariant (set_requests ?m (set_drv ?g (set_req ?f _))) =>
      set (m' := m); set (g' := g); set (f' := f);
      change (engine_invariant (set_drv g' (set_req f' (set_requests m' s))))
  end.
  assert (engine_invariant (set_requests m' s)) as H1.
  { apply invariant_set_requests; [done|]. apply map_filter_subseteq. }
  assert (∀ k', m' !! k' = Some r → False) as Hgone.
  { intros k' [_ Hp]%map_lookup_filter_Some. simpl in Hp.
    rewrite fn_lookup_insert in Hp. done. }
  assert (engine_invariant (set_req f' (set_requests m' s))) as H2.
  { apply (invariant_write_request _ r); try done; unfold f'.
    - intros r' Hne. by rewrite fn_lookup_insert_ne.
    - by rewrite fn_lookup_insert.
    - by rewrite fn_lookup_insert.
    - intros k' Hk'. by destruct (Hgone k'). }
  apply (invariant_write_driver _ d); try done; unfold g'.
  - intros d' Hne. by rewrite fn_lookup_insert_ne.
  - intros Hd. rewrite fn_lookup_insert.
    destruct (inv_drivers _ Hs d Hd) as (Hg & _ & _).
    split_and!; done.
Qed.

Lemma triple_invariant__complete_trip (d r : nat) :
  triple (λ s, engine_invariant s ∧ ∃ k, requests s !! k = Some r)
    (SimulationEngine._complete_trip d r)
    (λ _, engine_invariant) (λ _, engine_invariant).
Proof.
  apply triple_pre. intros s [Hs [k Hk]]. unfold SimulationEngine._complete_trip.
  apply triple_bind with (R := λ _ s', s' = (RequestService.complete_request r s).1).
  { apply triple_returns with (f := λ _, tt); [done|]. by intros s' ->. }
  intros _.
  set (s1 := (RequestService.complete_request r s).1).
  apply triple_bind with (R := λ _ s', s' = (DriverService.complete_trip d s1).1).
  { apply triple_returns with (f := λ _, tt); [done|]. by intros s' ->. }
  intros _.
  set (s2 := (DriverService.complete_trip d s1).1).
  apply triple_bind with (R := λ rq s', s' = s2 ∧ rq = req s2 r).
  { apply triple_gets. by intros s' ->. }
  intros rq.
  apply triple_bind with (R := λ _, engine_invariant).
  - apply triple_pre. intros s' [-> ->].
    apply triple_invariant_remove_rider. by apply (invariant_complete s d r k).
  - intros _. apply triple_invariant__process_queue.
Qed.

Lemma invariant_move_driver_one_step (d : nat) (s : State) :
  engine_invariant s →
  engine_invariant (DriverService.move_driver_one_step d s).1.
Proof.
  intros Hs. unfold DriverService.move_driver_one_step. mrun.
  destruct (Driver.targetX (drv s d)) as [tx|] eqn:Htx; [|done].
  destruct (Driver.targetY (drv s d)) as [ty|] eqn:Hty; [|done].
  cbn. apply (invariant_write_driver s d); [done|..].
  - intros d' Hne. by rewrite fn_lookup_insert_ne.
  - intros Hd. rewrite fn_lookup_insert.
    destruct (inv_drivers _ Hs d Hd) as ([Hx Hy] & Htg & Ha).
    pose proof (proj1 Htg tx Htx) as Htgx. pose proof (proj2 Htg ty Hty) as Htgy.
    split_and!; simpl; [| |exact Ha].
    + unfold in_grid, DEFAULT_GRID_WIDTH, DEFAULT_GRID_HEIGHT in *. simpl.
      repeat case_decide; lia.
    + split; intros t Ht; simpl in Ht; [apply (proj1 Htg)|apply (proj2 Htg)]; congruence.
Qed.

Lemma triple_invariant__move_driver_one_step (d : nat) :
  triple engine_invariant (SimulationEngine._move_driver_one_step d)
    (λ _, engine_invariant) (λ _, engine_invariant).
Proof.
  unfold SimulationEngine._move_driver_one_step.
  apply triple_bind with (R := λ _, engine_invariant).
  { apply triple_total. apply invariant_move_driver_one_step. }
  intros _.
  apply triple_bind with (R := λ dv s, engine_invariant s ∧ dv = drv s d).
  { by apply triple_gets. }
  intros dv.
  destruct (Driver.targetX dv) as [tx|]; [|apply triple_ret; by intros s [? ?]].
  destruct (Driver.targetY dv) as [ty|]; [|apply triple_ret; by intros s [? ?]].
  destruct (decide _); [|apply triple_ret; by intros s [? ?]].
  apply triple_bind with
    (R := λ q s, engine_invariant s ∧ dv = drv s d
                 ∧ ∀ r, q = Some r →
                     ∃ k, Driver.assignedRequestId dv = Some k ∧ requests s !! k = Some r).
  { apply triple_gets. intros s [Hs Hdv]. split_and!; [done|done|].
    intros r Hr. destruct (Driver.assignedRequestId dv) as [k|]; [|done]. by exists k. }
  intros [r|]; [|apply triple_ret; by intros s (? & ? & ?)].
  destruct (Driver.tripPhase dv) as [[|]|].
  - apply triple_bind with
      (R := λ rq s, engine_invariant s ∧ dv = drv s d ∧ rq = req s r
                    ∧ ∃ k, requests s !! k = Some r).
    { apply triple_gets. intros s (Hs & Hdv & Hr). split_and!; try done.
      destruct (Hr r eq_refl) as (k & _ & Hk). by exists k. }
    intros rq. apply triple_modify. intros s (Hs & -> & -> & k & Hk).
    apply (invariant_write_driver s d); [done|..].
    + intros d' Hne. by rewrite fn_lookup_insert_ne.
    + intros Hd. rewrite fn_lookup_insert.
      destruct (inv_drivers _ Hs d Hd) as (Hg & _ & Ha).
      destruct (inv_live _ Hs r) as (_ & [_ [Hdx Hdy]] & _); [right; by exists k|].
      split_and!; simpl; [done| |exact Ha].
      split; intros t [= <-]; done.
  - eapply triple_conseq; [apply (triple_invariant__complete_trip d r)|..]; simpl;
      [|done|done].
    intros s (Hs & Hdv & Hr). split; [done|].
    destruct (Hr r eq_refl) as (k & _ & Hk). by exists k.
  - apply triple_ret. by intros s (? & ? & ?).
Qed.

Lemma invariant_increment_idle_ticks (d : nat) (s : State) :
  engine_invariant s →
  engine_invariant (DriverService.increment_idle_ticks d s).1.
Proof.
  intros Hs. unfold DriverService.increment_idle_ticks. mrun.
  apply (invariant_write_driver s d); [done|..].
  - intros d' Hne. by rewrite fn_lookup_insert_ne.
  - intros Hd. rewrite fn_lookup_insert. by apply (inv_drivers _ Hs d Hd).
Qed.

Lemma triple_invariant_advance_tick :
  triple engine_invariant SimulationEngine.advance_tick
    (λ _, engine_invariant) (λ _, engine_invariant).
Proof.
  unfold SimulationEngine.advance_tick.
  apply triple_bind with (R := λ _, engine_invariant); [by apply triple_gets|].
  intros busy. apply triple_bind with (R := λ _, engine_invariant).
  { apply triple_for_each. intros d _. apply triple_invariant__move_driver_one_step. }
  intros _. apply triple_bind with (R := λ _, engine_invariant); [by apply triple_gets|].
  intros idle. apply triple_bind with (R := λ _, engine_invariant).
  { apply triple_for_each. intros d _. apply triple_total.
    apply invariant_increment_idle_ticks. }
  intros _. apply triple_invariant__process_queue.
Qed.

Lemma triple_invariant_add_driver (x y : Z) :
  triple engine_invariant (SimulationEngine.add_driver x y)
    (λ _, engine_invariant) (λ _, engine_invariant).
Proof.
  unfold SimulationEngine.add_driver.
  apply triple_bind with (R := λ _, engine_invariant).
  - intros s Hs. unfold DriverService.add_driver.
    destruct (bool_decide _) eqn:Hin; [|done].
    apply bool_decide_eq_true in Hin.
    unfold DriverService.generate_driver_id. mrun.
    set (new := Driver.mk _ x y available 0 0 None None None None).
    assert (driver_ok s new) as Hnew.
    { split_and!; done. }
    apply invariant_set_drivers.
    + apply (invariant_write_driver _ (next_drv s)).
      * by apply invariant_set_next_drv, invariant_set_driver_counter.
      * intros d' Hne. simpl. by rewrite fn_lookup_insert_ne.
      * intros _. simpl. by rewrite fn_lookup_insert.
    + intros d [Hd| ->%list_elem_of_singleton]%elem_of_app; [by left|right].
      simpl. by rewrite fn_lookup_insert.
  - intros d. apply triple_bind with (R := λ _, engine_invariant).
    + apply triple_invariant__process_queue.
    + intros _. by apply triple_ret.
Qed.

Lemma triple_invariant_remove_driver (driver_id : string) :
  triple engine_invariant (SimulationEngine.remove_driver driver_id)
    (λ _, engine_invariant) (λ _, engine_invariant).
Proof.
  intros s Hs. unfold SimulationEngine.remove_driver, DriverService.remove_driver.
  mrun. destruct (DriverService.remove_first_with_id _ _ _) as [l|] eqn:Hl; [|done].
  cbn. apply invariant_set_drivers; [done|].
  intros d Hd. left. by eapply elem_of_remove_first_with_id.
Qed.

Lemma triple_invariant_reset :
  triple engine_invariant SimulationEngine.reset
    (λ _, engine_invariant) (λ _, engine_invariant).
Proof.
  intros s Hs. unfold SimulationEngine.reset, DriverService.clear_drivers,
    RiderService.clear_riders, RequestService.clear_requests, QueueService.clear_queue.
  mrun.
  match goal with |- engine_invariant ?st => set (s' := st) end.
  assert (∀ r, ¬ live s' r) as Hlive.
  { intros r [Hr|[k Hk]]; [by apply elem_of_nil in Hr|].
    change (requests s') with (∅ : gmap string nat) in Hk.
    by rewrite lookup_empty in Hk. }
  constructor.
  - intros d Hd. by apply elem_of_nil in Hd.
  - intros k r Hk.
    change (riders s') with (∅ : gmap string Rider.t) in Hk.
    by rewrite lookup_empty in Hk.
  - intros r Hr. by apply Hlive in Hr.
  - intros r1 r2 Hr. by apply Hlive in Hr.
  - intros k r Hk. destruct (Hlive r). right. by exists k.
Qed.

Lemma invariant_perform (o : operation) (s : State) :
  engine_invariant s → engine_invariant (perform o s).
Proof.
  intros Hs. destruct o; unfold perform; (eapply triple_final; [|exact Hs]).
  - apply triple_invariant_add_driver.
  - apply triple_invariant_remove_driver.
  - apply triple_invariant_add_rider.
  - apply triple_invariant_engine_remove_rider.
  - apply triple_invariant_create_request.
  - apply triple_invariant_advance_tick.
  - apply triple_invariant_reset.
Qed.

Lemma reachable_invariant (s : State) : reachable s → engine_invariant s.
Proof.
  induction 1 as [|s o _ IH]; [apply invariant_initial|by apply invariant_perform].
Qed.

End invariant_steps.

(** ** Reachable states *)

Section reachable_states.

Lemma reachable_run (ops : list operation) (s : State) :
  reachable s → reachable (run ops s).
Proof.
  revert s. induction ops as [|o ops IH]; intros s Hs; [done|].
  simpl. apply IH. by constructor.
Qed.

(** C10: in every state that a sequence of public operations reaches, every
    driver of the driver list stands inside the 20 by 20 grid, and so does
    the target it moves to. *)
Theorem reachable_drivers_in_grid (s : State) (d : nat) :
  reachable s → d ∈ drivers s →
  (0 ≤ Driver.x (drv s d) < 20 ∧ 0 ≤ Driver.y (drv s d) < 20)
  ∧ (∀ tx, Driver.targetX (drv s d) = Some tx → 0 ≤ tx < 20)
  ∧ (∀ ty, Driver.targetY (drv s d) = Some ty → 0 ≤ ty < 20).
Proof.
  intros Hs Hd. apply reachable_invariant in Hs.
  destruct (inv_drivers _ Hs d Hd) as (Hg & Ht & _). split; [exact Hg|exact Ht].
Qed.

Lemma reachable_drivers_in_grid_witness :
  (0 ≤ Driver.x (drv trip_at_pickup 0) < 20 ∧ 0 ≤ Driver.y (drv trip_at_pickup 0) < 20)
  ∧ (∀ tx, Driver.targetX (drv trip_at_pickup 0) = Some tx → 0 ≤ tx < 20)
  ∧ (∀ ty, Driver.targetY (drv trip_at_pickup 0) = Some ty → 0 ≤ ty < 20).
Proof.
  apply (reachable_drivers_in_grid trip_at_pickup 0).
  - repeat constructor.
  - vm_compute. left.
Defined.

(** What does hold of the registry in every reachable state: a request is
    assigned exactly when it names a driver, and a request whose id some
    driver carries is assigned.  No request of the registry is completed. *)
Lemma reachable_registry (s : State) (k : string) (r : nat) :
  reachable s → requests s !! k = Some r →
  RideRequest.id (req s r) = k
  ∧ (RideRequest.status (req s r) = assigned
       ↔ is_Some (RideRequest.assigned_driver_id (req s r)))
  ∧ ((∃ d, d ∈ drivers s
           ∧ Driver.assignedRequestId (drv s d) = Some (RideRequest.id (req s r))) →
     RideRequest.status (req s r) = assigned)
  ∧ RideRequest.status (req s r) ≠ completed.
Proof.
  intros Hs Hk. apply reachable_invariant in Hs.
  destruct (inv_registry _ Hs k r Hk) as [Hid Hst]. split_and!; [done| | |].
  - destruct Hst as [[Hw Hn]|[Ha Hsome]].
    + rewrite Hw, Hn. split; [done|]. by intros [? ?].
    + by rewrite Ha.
  - intros (d & Hd & Hda). destruct (inv_drivers _ Hs d Hd) as (_ & _ & Hreq).
    destruct (Hreq _ Hda) as [_ Hr]. apply Hr. by rewrite Hid.
  - destruct Hst as [[Hw _]|[Ha _]]; congruence.
Qed.

Lemma filter_none {A} (P : A → Prop) `{!∀ x, Decision (P x)} (l : list A) :
  (∀ x, x ∈ l → ¬ P x) → filter P l = [].
Proof.
  induction l as [|a l IH]; intros Hl; [done|].
  rewrite filter_cons_False by (apply Hl; left).
  apply IH. intros x Hx. apply Hl. by right.
Qed.

Lemma reachable_no_completed_rides (s : State) :
  reachable s →
  SimulationStats.completedRides (SimulationEngine.get_stats s) = 0%nat.
Proof.
  intros Hs. unfold SimulationEngine.get_stats. simpl.
  unfold RequestService.get_completed_requests, RequestService.get_requests_by_status,
    RequestService.list_requests.
  rewrite filter_none; [done|]. intros r Hr.
  apply list_elem_of_fmap in Hr as ([k r'] & -> & Hkr).
  apply elem_of_map_to_list in Hkr. simpl.
  by destruct (reachable_registry s k r' Hs Hkr) as (_ & _ & _ & Hc).
Qed.

(** C1: the driver of [trip_at_pickup] is on its way to the dropoff, one
    step away, and its request is in the registry.  The tick that completes
    the trip marks the request completed and then removes it with the
    rider: the registry is empty afterwards and [get_stats] counts no
    completed ride. *)
Theorem completed_request_is_dropped :
  Driver.tripPhase (drv trip_at_pickup 0) = Some to_dropoff
  ∧ Driver.assignedRequestId (drv trip_at_pickup 0) = Some "Request 1"
  ∧ requests trip_at_pickup !! "Request 1" = Some 0%nat
  ∧ SimulationEngine.advance_tick trip_at_pickup = (trip_completed, Ok tt)
  ∧ Driver.status (drv trip_completed 0) = available
  ∧ Driver.totalTrips (drv trip_completed 0) = 1
  ∧ RideRequest.status (req trip_completed 0) = completed
  ∧ requests trip_completed !! "Request 1" = None
  ∧ RequestService.list_requests trip_completed = []
  ∧ SimulationStats.completedRides (SimulationEngine.get_stats trip_completed) = 0%nat.
Proof. split_and!; by vm_compute. Qed.

(** C4: removing a driver that is on a trip leaves its request in the
    registry, assigned and naming the removed driver, while no driver of
    the driver list carries the id of the request. *)
Theorem removed_driver_leaves_request_assigned :
  reachable driver_removed_mid_trip
  ∧ drivers driver_removed_mid_trip = []
  ∧ requests driver_removed_mid_trip !! "Request 1" = Some 0%nat
  ∧ RideRequest.status (req driver_removed_mid_trip 0) = assigned
  ∧ RideRequest.assigned_driver_id (req driver_removed_mid_trip 0) = Some "Driver 1"
  ∧ ¬ assignment_consistent driver_removed_mid_trip.
Proof.
  split_and!; try by vm_compute.
  - repeat constructor.
  - intros H.
    assert (requests driver_removed_mid_trip !! "Request 1" = Some 0%nat) as Hk
      by (by vm_compute).
    destruct (H "Request 1" 0%nat Hk) as [_ [Hd _]].
    assert (is_Some (RideRequest.assigned_driver_id (req driver_removed_mid_trip 0)))
      as Hsome by (exists "Driver 1"; by vm_compute).
    destruct (Hd Hsome) as (d & Hin & _).
    assert (drivers driver_removed_mid_trip = []) as Hnil by (by vm_compute).
    rewrite Hnil in Hin. by apply elem_of_nil in Hin.
Qed.

End reachable_states.

(** ** One drain never books a driver twice *)

Section drain.

Lemma queue_assign_driver_id (q b d : nat) (s : State) :
  Driver.id (drv (QueueService._assign_request_to_driver q b s).1 d)
  = Driver.id (drv s d).
Proof.
  unfold QueueService._assign_request_to_driver. mrun.
  destruct (decide (d = b)) as [->|Hne];
    [by rewrite fn_lookup_insert|by rewrite fn_lookup_insert_ne].
Qed.

Lemma queue_assign_request_same (q b p : nat) (s : State) :
  p ≠ q →
  req (QueueService._assign_request_to_driver q b s).1 p = req s p.
Proof.
  intros Hne. unfold QueueService._assign_request_to_driver. mrun.
  by rewrite fn_lookup_insert_ne.
Qed.

Lemma queue_assign_request_driver (q b : nat) (s : State) :
  RideRequest.assigned_driver_id (req (QueueService._assign_request_to_driver q b s).1 q)
  = Some (Driver.id (drv s b)).
Proof.
  unfold QueueService._assign_request_to_driver. mrun.
  by rewrite fn_lookup_insert.
Qed.

Lemma process_loop_distinct (queue_copy remaining processed : list nat) :
  triple
    (λ s, (∀ p d, p ∈ processed → d ∈ remaining →
             RideRequest.assigned_driver_id (req s p) ≠ Some (Driver.id (drv s d)))
          ∧ distinct_drivers s processed)
    (QueueService.process_loop queue_copy remaining processed)
    (λ res s, distinct_drivers s res)
    (λ _ _, False).
Proof.
  revert remaining processed.
  induction queue_copy as [|q rest IH]; intros remaining processed.
  - apply triple_ret. by intros s [? ?].
  - destruct remaining as [|d0 ds]; [apply triple_ret; by intros s [? ?]|].
    cbn [QueueService.process_loop].
    set (remaining := d0 :: ds).
    apply triple_pre. intros s [Hrem Hdist].
    apply triple_bind with (R := λ s0 s', s' = s ∧ s0 = s); [by apply triple_gets|].
    intros s0.
    destruct (find_best_driver_result (drv s0) remaining (req s0 q))
      as [[? _]|(best & Hbest & Hfind)]; [done|].
    rewrite Hfind.
    set (s1 := (QueueService._assign_request_to_driver q best s).1).
    apply triple_bind with (R := λ _ s', s' = s1).
    { apply triple_returns with (f := λ _, tt); [done|]. by intros s' [-> _]. }
    intros _.
    apply triple_bind with (R := λ s0' s', s' = s1 ∧ s0' = s1); [by apply triple_gets|].
    intros s1'. apply triple_pre. intros s' [-> ->].
    eapply triple_conseq; [apply IH|..]; simpl; [|done|done].
    intros s' ->. subst s1.
    assert (∀ p, p ≠ q → p ∈ processed ++ [q] → p ∈ processed) as Hold.
    { intros p Hne [Hp|Hp%list_elem_of_singleton]%elem_of_app; done. }
    destruct Hdist as [Hsome Hdist].
    split; [|split].
    + intros p d Hp [Hd Hin]%list_elem_of_filter.
      assert (Driver.id (drv s d) ≠ Driver.id (drv s best)) as Hd'.
      { intros Heq. apply Hd.
        change (Driver.id (drv (QueueService._assign_request_to_driver q best s).1 d)
                = Driver.id (drv (QueueService._assign_request_to_driver q best s).1 best)).
        by rewrite !queue_assign_driver_id. }
      rewrite queue_assign_driver_id.
      destruct (decide (p = q)) as [->|Hne].
      * rewrite queue_assign_request_driver. congruence.
      * rewrite queue_assign_request_same by done. apply Hrem; [by apply Hold|done].
    + intros p Hp. destruct (decide (p = q)) as [->|Hne].
      * rewrite queue_assign_request_driver. by eexists.
      * rewrite queue_assign_request_same by done. by apply Hsome, Hold.
    + intros p1 p2 Hp1 Hp2 Hne.
      destruct (decide (p1 = q)) as [->|Hne1]; destruct (decide (p2 = q)) as [->|Hne2];
        try done.
      * rewrite queue_assign_request_driver, queue_assign_request_same by done.
        intros Heq. by destruct (Hrem p2 best (Hold _ Hne2 Hp2) Hbest).
      * rewrite queue_assign_request_driver, queue_assign_request_same by done.
        intros Heq. by destruct (Hrem p1 best (Hold _ Hne1 Hp1) Hbest).
      * rewrite !queue_assign_request_same by done.
        apply Hdist; [by apply Hold|by apply Hold|done].
Qed.

Lemma process_queue_distinct (available_drivers : list nat) :
  triple (λ _, True)
    (QueueService.process_queue available_drivers)
    (λ res s, distinct_drivers s res)
    (λ _ _, False).
Proof.
  assert (∀ s, distinct_drivers s []) as Hnil.
  { intros s. split; [intros p Hp|intros p1 p2 Hp]; by apply elem_of_nil in Hp. }
  unfold QueueService.process_queue.
  destruct available_drivers as [|d0 ds]; [by apply triple_ret|].
  apply triple_bind with (R := λ _ _, True); [by apply triple_gets|].
  intros empty. destruct empty; [by apply triple_ret|].
  apply triple_bind with (R := λ _ _, True); [by apply triple_gets|].
  intros queue_copy.
  apply triple_bind with (R := λ res s, distinct_drivers s res).
  { eapply triple_conseq; [apply process_loop_distinct|..]; simpl; [|done|done].
    intros s _. split; [|done]. intros p d Hp. by apply elem_of_nil in Hp. }
  intros processed.
  apply triple_bind with (R := λ _ s, distinct_drivers s processed).
  - apply triple_for_each. by intros r _ s Hs.
  - intros _. by apply triple_ret.
Qed.

(** C7: in the list of requests that one call of [process_queue] returns,
    every request names a driver, and two different requests name
    different drivers, whatever the queue and the pool of drivers. *)
Theorem process_queue_never_double_books
    (s s' : State) (pool processed : list nat) (p1 p2 : nat) :
  QueueService.process_queue pool s = (s', Ok processed) →
  p1 ∈ processed → p2 ∈ processed → p1 ≠ p2 →
  is_Some (RideRequest.assigned_driver_id (req s' p1))
  ∧ is_Some (RideRequest.assigned_driver_id (req s' p2))
  ∧ RideRequest.assigned_driver_id (req s' p1)
    ≠ RideRequest.assigned_driver_id (req s' p2).
Proof.
  intros Hrun Hp1 Hp2 Hne.
  pose proof (triple_run _ _ _ _ s (process_queue_distinct pool) I) as Ht.
  rewrite Hrun in Ht. destruct Ht as [Hsome Hdist].
  split_and!; [by apply Hsome|by apply Hsome|by apply Hdist].
Qed.

Lemma process_queue_never_double_books_witness :
  let s' := (QueueService.process_queue [0; 1]%nat two_waiting_two_idle).1 in
  is_Some (RideRequest.assigned_driver_id (req s' 0))
  ∧ is_Some (RideRequest.assigned_driver_id (req s' 1))
  ∧ RideRequest.assigned_driver_id (req s' 0)
    ≠ RideRequest.assigned_driver_id (req s' 1).
Proof.
  intros s'.
  apply (process_queue_never_double_books two_waiting_two_idle s'
           [0; 1]%nat [0; 1]%nat 0%nat 1%nat).
  - vm_compute. reflexivity.
  - left.
  - right. left.
  - lia.
Defined.

End drain.

(** ** A drain that assigns makes the engine raise *)

Section drain_raises.

Lemma process_loop_progress (queue_copy remaining processed : list nat) :
  triple (λ _, True)
    (QueueService.process_loop queue_copy remaining processed)
    (λ res _, (queue_copy ≠ [] → remaining ≠ [] → res ≠ [])
              ∧ (processed ≠ [] → res ≠ []))
    (λ _ _, False).
Proof.
  revert remaining processed.
  induction queue_copy as [|q rest IH]; intros remaining processed.
  - by apply triple_ret.
  - destruct remaining as [|d0 ds]; [by apply triple_ret|].
    cbn [QueueService.process_loop].
    apply triple_bind with (R := λ _ _, True); [by apply triple_gets|].
    intros s0.
    destruct (find_best_driver_result (drv s0) (d0 :: ds) (req s0 q))
      as [[? _]|(best & _ & Hfind)]; [done|].
    rewrite Hfind.
    apply triple_bind with (R := λ _ _, True).
    { apply triple_returns with (f := λ _, tt); done. }
    intros _. apply triple_bind with (R := λ _ _, True); [by apply triple_gets|].
    intros s1. eapply triple_conseq; [apply IH|..]; simpl; [done| |done].
    intros res _ [_ Hres].
    assert (res ≠ []) as Hne by (apply Hres; by destruct processed).
    done.
Qed.

Lemma process_queue_progress (available_drivers : list nat) :
  available_drivers ≠ [] →
  triple (λ s, request_queue s ≠ [])
    (QueueService.process_queue available_drivers)
    (λ res _, res ≠ [])
    (λ _ _, False).
Proof.
  intros Hav. unfold QueueService.process_queue.
  destruct available_drivers as [|d0 ds]; [done|].
  apply triple_bind with (R := λ empty s, empty = false ∧ request_queue s ≠ []).
  { apply triple_gets. intros s Hs. split; [|done].
    apply bool_decide_eq_false. by destruct (request_queue s). }
  intros empty.
  apply triple_pre. intros s [-> Hq].
  apply triple_bind with (R := λ queue_copy _, queue_copy ≠ []).
  { apply triple_gets. by intros s' ->. }
  intros queue_copy. apply triple_pre. intros s' Hqc.
  apply triple_bind with (R := λ res _, res ≠ []).
  { eapply triple_conseq; [apply process_loop_progress|..]; simpl; [done| |done].
    intros res _ [Hres _]. by apply Hres. }
  intros processed. apply triple_bind with (R := λ _ _, processed ≠ []).
  - apply (triple_for_each (λ _ : State, processed ≠ [])).
    by intros r _ s'' Hs.
  - intros _. by apply triple_ret.
Qed.

(** With a request in the queue and a driver available, [_process_queue]
    raises [AttributeError]: it passes the id string of the driver where
    [assign_request] reads the [id] of a driver object. *)
Lemma _process_queue_raises :
  triple
    (λ s, request_queue s ≠ []
          ∧ filter (λ d, Driver.status (drv s d) = available) (drivers s) ≠ [])
    SimulationEngine._process_queue
    (λ _ _, False) (λ e _, e = AttributeError).
Proof.
  unfold SimulationEngine._process_queue.
  apply triple_bind with (R := λ available s, available ≠ [] ∧ request_queue s ≠ []).
  { apply triple_gets. by intros s [? ?]. }
  intros available. apply triple_pre. intros s [Hav Hq].
  apply triple_bind with (R := λ res _, res ≠ []).
  { eapply triple_conseq; [apply (process_queue_progress available Hav)|..]; simpl;
      [by intros ? ->|done|done]. }
  intros [|r processed]; [by apply triple_pre|].
  cbn [for_each]. intros s' _. unfold bind, read_req, gets.
  unfold RequestService.assign_request. mrun.
  by destruct (RideRequest.assigned_driver_id (req s' r)).
Qed.

Lemma add_driver_raises_while_requests_wait (x y : Z) :
  0 ≤ x < DEFAULT_GRID_WIDTH ∧ 0 ≤ y < DEFAULT_GRID_HEIGHT →
  triple (λ s, request_queue s ≠ [])
    (SimulationEngine.add_driver x y)
    (λ _ _, False) (λ e _, e = AttributeError).
Proof.
  intros Hin. unfold SimulationEngine.add_driver.
  apply triple_bind with
    (R := λ _ s, request_queue s ≠ []
                 ∧ filter (λ d, Driver.status (drv s d) = available) (drivers s) ≠ []).
  - intros s Hq. unfold DriverService.add_driver.
    rewrite bool_decide_true by done. cbn [negb].
    unfold DriverService.generate_driver_id. mrun. split; [done|].
    rewrite list.filter_app, filter_cons_True by (by rewrite fn_lookup_insert).
    by destruct (filter _ (drivers s)).
  - intros d. apply triple_bind with (R := λ _ _, False).
    + apply _process_queue_raises.
    + intros _. by apply triple_pre.
Qed.

(** C2: a rider is waiting in the queue and no driver exists.
    [add_driver(0, 0)] does hand the waiting request to the new driver and
    empties the queue, but it does not return the driver: it raises
    [AttributeError].  It does so whenever a request waits in the queue. *)
Theorem add_driver_raises_on_waiting_request :
  request_queue rider_waiting = [0%nat]
  ∧ RideRequest.status (req rider_waiting 0) = waiting
  ∧ (SimulationEngine.add_driver 0 0 rider_waiting).2 = Raise AttributeError
  ∧ RideRequest.status (req (SimulationEngine.add_driver 0 0 rider_waiting).1 0) = assigned
  ∧ request_queue (SimulationEngine.add_driver 0 0 rider_waiting).1 = []
  ∧ (∀ s x y, 0 ≤ x < 20 ∧ 0 ≤ y < 20 → request_queue s ≠ [] →
       (SimulationEngine.add_driver x y s).2 = Raise AttributeError).
Proof.
  split_and!; try by vm_compute.
  intros s x y Hin Hq.
  pose proof (triple_run _ _ _ _ s (add_driver_raises_while_requests_wait x y Hin) Hq) as Ht.
  destruct (SimulationEngine.add_driver x y s) as [s' [a|e]]; [done|]. simpl. by subst e.
Qed.

End drain_raises.

(** ** One driver through a tick *)

Section driver_frame.

Variables (d : nat) (l0 : list nat) (n0 : nat) (P : Driver.t → Prop).
Hypothesis P_on_trip : ∀ v, Driver.status v = on_trip → P v.
Hypothesis P_same : ∀ v v',
  Driver.status v' = Driver.status v → Driver.idleTicks v' = Driver.idleTicks v →
  P v → P v'.
Hypothesis P_completed : ∀ v,
  Driver.status v = available → Driver.idleTicks v = 0 → P v.

Let tracked (s : State) : Prop :=
  drivers s = l0 ∧ next_drv s = n0 ∧ P (drv s d).

Lemma frame_remove_from_queue (r : nat) :
  triple tracked (QueueService.remove_from_queue r) (λ _, tracked) (λ _ _, False).
Proof. by intros s Hs. Qed.

Lemma frame_remove_rider (rider_id : string) :
  triple tracked (SimulationEngine.remove_rider rider_id)
    (λ _, tracked) (λ _ _, False).
Proof.
  unfold SimulationEngine.remove_rider.
  apply triple_bind with (R := λ _, tracked); [by intros s Hs|].
  intros _. apply triple_bind with (R := λ _, tracked); [by apply triple_gets|].
  intros queued. apply triple_bind with (R := λ _, tracked).
  - apply triple_for_each. intros r _.
    apply triple_bind with (R := λ _, tracked); [by apply triple_gets|].
    intros rq. destruct (decide _); [apply frame_remove_from_queue|by apply triple_ret].
  - intros _. unfold RiderService.remove_rider.
    apply triple_bind with (R := λ _, tracked); [by apply triple_gets|].
    intros m. destruct (m !! rider_id); [|by apply triple_ret].
    apply triple_bind with (R := λ _, tracked); [by intros s Hs|].
    intros _. by apply triple_ret.
Qed.

Lemma frame_queue_assign (q b : nat) :
  triple tracked (QueueService._assign_request_to_driver q b)
    (λ _, tracked) (λ _ _, False).
Proof.
  intros s (Hl & Hn & HP). unfold QueueService._assign_request_to_driver. mrun.
  split_and!; [done|done|]. simpl. destruct (decide (d = b)) as [->|Hne].
  - rewrite fn_lookup_insert. by apply P_on_trip.
  - by rewrite fn_lookup_insert_ne.
Qed.

Lemma frame_process_loop (queue_copy remaining processed : list nat) :
  triple tracked (QueueService.process_loop queue_copy remaining processed)
    (λ _, tracked) (λ _ _, False).
Proof.
  revert remaining processed.
  induction queue_copy as [|q rest IH]; intros remaining processed.
  - by apply triple_ret.
  - destruct remaining as [|d0 ds]; [by apply triple_ret|].
    cbn [QueueService.process_loop].
    apply triple_bind with (R := λ _, tracked); [by apply triple_gets|].
    intros s0.
    destruct (find_best_driver_result (drv s0) (d0 :: ds) (req s0 q))
      as [[? _]|(best & _ & Hfind)]; [done|].
    rewrite Hfind.
    apply triple_bind with (R := λ _, tracked); [apply frame_queue_assign|].
    intros _. apply triple_bind with (R := λ _, tracked); [by apply triple_gets|].
    intros s1. apply IH.
Qed.

Lemma frame_process_queue (available_drivers : list nat) :
  triple tracked (QueueService.process_queue available_drivers)
    (λ _, tracked) (λ _ _, False).
Proof.
  unfold QueueService.process_queue.
  destruct available_drivers as [|d0 ds]; [by apply triple_ret|].
  apply triple_bind with (R := λ _, tracked); [by apply triple_gets|].
  intros empty. destruct empty; [by apply triple_ret|].
  apply triple_bind with (R := λ _, tracked); [by apply triple_gets|].
  intros queue_copy.
  apply triple_bind with (R := λ _, tracked); [apply frame_process_loop|].
  intros processed. apply triple_bind with (R := λ _, tracked).
  - apply triple_for_each. intros r _. apply frame_remove_from_queue.
  - intros _. by apply triple_ret.
Qed.

Lemma frame__process_queue :
  triple tracked SimulationEngine._process_queue (λ _, tracked) (λ _, tracked).
Proof.
  unfold SimulationEngine._process_queue.
  apply triple_bind with (R := λ _, tracked); [by apply triple_gets|].
  intros available. apply triple_bind with (R := λ _, tracked).
  { eapply triple_conseq; [apply frame_process_queue|..]; done. }
  intros processed. apply triple_for_each. intros r _ s Hs.
  unfold RequestService.assign_request. mrun.
  by destruct (RideRequest.assigned_driver_id (req s r)).
Qed.

Lemma frame_engine_assign (q b : nat) :
  triple tracked (SimulationEngine._assign_request_to_driver q b)
    (λ _, tracked) (λ _ _, False).
Proof.
  intros s (Hl & Hn & HP).
  unfold SimulationEngine._assign_request_to_driver, RequestService.assign_request.
  mrun. split_and!; [done|done|]. simpl. destruct (decide (d = b)) as [->|Hne].
  - rewrite fn_lookup_insert. by apply P_on_trip.
  - by rewrite fn_lookup_insert_ne.
Qed.

Lemma frame__try_assign_request (q : nat) :
  triple tracked (SimulationEngine._try_assign_request q)
    (λ _, tracked) (λ _ _, False).
Proof.
  unfold SimulationEngine._try_assign_request.
  apply triple_bind with (R := λ _, tracked); [by apply triple_gets|].
  intros [|d0 ds]; [by apply triple_ret|].
  apply triple_bind with (R := λ _, tracked); [by apply triple_gets|].
  intros s.
  destruct (find_best_driver_result (drv s) (d0 :: ds) (req s q))
    as [[? _]|(best & _ & Hbest)]; [done|].
  rewrite Hbest.
  apply triple_bind with (R := λ _, tracked); [apply frame_engine_assign|].
  intros _. by apply triple_ret.
Qed.

Lemma frame_move_driver_one_step (b : nat) :
  triple tracked (DriverService.move_driver_one_step b)
    (λ _, tracked) (λ _ _, False).
Proof.
  intros s (Hl & Hn & HP).
  unfold DriverService.move_driver_one_step. mrun.
  destruct (Driver.targetX (drv s b)); [|done].
  destruct (Driver.targetY (drv s b)); [|done].
  split_and!; [done|done|]. cbn. destruct (decide (d = b)) as [->|Hne].
  - rewrite fn_lookup_insert. by apply (P_same (drv s b)).
  - by rewrite fn_lookup_insert_ne.
Qed.

Lemma frame__complete_trip (b r : nat) :
  triple tracked (SimulationEngine._complete_trip b r)
    (λ _, tracked) (λ _, tracked).
Proof.
  unfold SimulationEngine._complete_trip.
  apply triple_bind with (R := λ _, tracked); [by intros s Hs|].
  intros _. apply triple_bind with (R := λ _, tracked).
  { intros s (Hl & Hn & HP). unfold DriverService.complete_trip. mrun.
    split_and!; [done|done|]. simpl. destruct (decide (d = b)) as [->|Hne].
    - rewrite fn_lookup_insert. by apply P_completed.
    - by rewrite fn_lookup_insert_ne. }
  intros _. apply triple_bind with (R := λ _, tracked); [by apply triple_gets|].
  intros rq. apply triple_bind with (R := λ _, tracked).
  - eapply triple_conseq; [apply frame_remove_rider|..]; done.
  - intros _. apply frame__process_queue.
Qed.

Lemma frame__move_driver_one_step (b : nat) :
  triple tracked (SimulationEngine._move_driver_one_step b)
    (λ _, tracked) (λ _, tracked).
Proof.
  unfold SimulationEngine._move_driver_one_step.
  apply triple_bind with (R := λ _, tracked).
  { eapply triple_conseq; [apply frame_move_driver_one_step|..]; done. }
  intros _.
  apply triple_bind with (R := λ dv s, tracked s ∧ dv = drv s b); [by apply triple_gets|].
  intros dv.
  destruct (Driver.targetX dv) as [tx|]; [|apply triple_ret; by intros s [? ?]].
  destruct (Driver.targetY dv) as [ty|]; [|apply triple_ret; by intros s [? ?]].
  destruct (decide _); [|apply triple_ret; by intros s [? ?]].
  apply triple_bind with (R := λ _ s, tracked s ∧ dv = drv s b); [by apply triple_gets|].
  intros [r|]; [|apply triple_ret; by intros s [? ?]].
  destruct (Driver.tripPhase dv) as [[|]|].
  - apply triple_bind with (R := λ _ s, tracked s ∧ dv = drv s b); [by apply triple_gets|].
    intros rq. apply triple_modify. intros s [(Hl & Hn & HP) ->].
    split_and!; [done|done|].
    simpl. destruct (decide (d = b)) as [->|Hne].
    + rewrite fn_lookup_insert. by apply (P_same (drv s b)).
    + by rewrite fn_lookup_insert_ne.
  - eapply triple_conseq; [apply frame__complete_trip|..]; simpl; [|done|done].
    by intros s [? ?].
  - apply triple_ret. by intros s [? ?].
Qed.

End driver_frame.

Section tick.

Variables (d : nat) (l0 : list nat) (n0 : nat).

Let fresh (s : State) : Prop :=
  drivers s = l0 ∧ next_drv s = n0 ∧ busy_or_fresh (drv s d).
Let counted (s : State) : Prop :=
  drivers s = l0 ∧ next_drv s = n0 ∧ busy_or_counted (drv s d).

Lemma busy_or_fresh_same (v v' : Driver.t) :
  Driver.status v' = Driver.status v → Driver.idleTicks v' = Driver.idleTicks v →
  busy_or_fresh v → busy_or_fresh v'.
Proof. unfold busy_or_fresh. intros -> ->. done. Qed.

Lemma fresh__move_driver_one_step (b : nat) :
  triple fresh (SimulationEngine._move_driver_one_step b) (λ _, fresh) (λ _, fresh).
Proof.
  apply (frame__move_driver_one_step d l0 n0 busy_or_fresh).
  - by left.
  - apply busy_or_fresh_same.
  - by right.
Qed.

Lemma counted_increment_loop (l : list nat) :
  NoDup l →
  triple
    (λ s, drivers s = l0 ∧ next_drv s = n0
          ∧ ((d ∈ l ∧ Driver.status (drv s d) = available
                    ∧ Driver.idleTicks (drv s d) = 0)
             ∨ ((d ∉ l) ∧ busy_or_counted (drv s d))))
    (for_each l DriverService.increment_idle_ticks)
    (λ _, counted) (λ _ _, False).
Proof.
  induction 1 as [|a l Ha Hl IH].
  - apply triple_ret.
    intros s (Hd & Hn & [[Hin _]|[_ HK]]); [by apply elem_of_nil in Hin|done].
  - cbn [for_each].
    apply triple_bind with
      (R := λ _ s, drivers s = l0 ∧ next_drv s = n0
                   ∧ ((d ∈ l ∧ Driver.status (drv s d) = available
                             ∧ Driver.idleTicks (drv s d) = 0)
                      ∨ ((d ∉ l) ∧ busy_or_counted (drv s d))));
      [|intros _; apply IH].
    intros s (Hd & Hn & Hcase). unfold DriverService.increment_idle_ticks. mrun.
    split_and!; [done|done|]. simpl. destruct (decide (d = a)) as [->|Hne].
    + rewrite fn_lookup_insert. right. split; [done|].
      destruct Hcase as [(_ & Hst & Hidle)|[Hnot _]].
      * right. simpl. rewrite Hidle. done.
      * destruct Hnot. left.
    + rewrite fn_lookup_insert_ne by done.
      destruct Hcase as [(Hin & Hst & Hidle)|[Hnot HK]].
      * left. split; [|done]. by apply elem_of_cons in Hin as [?|?].
      * right. split; [|done]. intros Hin. apply Hnot. by right.
Qed.

Lemma tick_idle_ticks :
  NoDup l0 → d ∈ l0 →
  triple (λ s, drivers s = l0 ∧ next_drv s = n0 ∧ Driver.status (drv s d) = on_trip)
    SimulationEngine.advance_tick
    (λ _ s, busy_or_counted (drv s d))
    (λ _ s, busy_or_fresh (drv s d) ∨ busy_or_counted (drv s d)).
Proof.
  intros Hnodup Hd. unfold SimulationEngine.advance_tick.
  apply triple_bind with (R := λ _, fresh).
  { apply triple_gets. intros s (Hl & Hn & Hst). split_and!; [done|done|by left]. }
  intros busy. apply triple_bind with (R := λ _, fresh).
  { eapply triple_conseq with (E' := λ _, fresh);
      [apply triple_for_each; intros b _; apply fresh__move_driver_one_step|..];
      simpl; [done|done|]. intros _ s (_ & _ & HJ). by left. }
  intros _.
  apply triple_bind with
    (R := λ idle s, fresh s
                    ∧ idle = filter (λ b, Driver.status (drv s b) = available) (drivers s)).
  { by apply triple_gets. }
  intros idle. apply triple_bind with (R := λ _, counted).
  - apply triple_pre. intros s [(Hl & Hn & HJ) ->].
    eapply triple_conseq;
      [apply (counted_increment_loop
                (filter (λ b, Driver.status (drv s b) = available) (drivers s)))|..];
      simpl; [by apply list.NoDup_filter; rewrite Hl| |done|done].
    intros s' ->. split_and!; [done|done|].
    destruct HJ as [Hbusy|[Hav Hidle]].
    + right. split; [|by left].
      intros [Hst _]%list_elem_of_filter. congruence.
    + left. split_and!; [|done|done].
      apply list_elem_of_filter. split; [done|by rewrite Hl].
  - intros _.
    eapply triple_conseq; [apply (frame__process_queue d l0 n0 busy_or_counted)|..];
      simpl; [by left|done|by intros _ s (_ & _ & ?)|by intros e s (_ & _ & ?); right].
Qed.

End tick.

(** ** The driver list of a reachable state *)

Section driver_list.

Let same_drivers (l : list nat) (n : nat) (s : State) : Prop :=
  drivers s = l ∧ next_drv s = n ∧ True.

Lemma drivers_wf_frame {A} (m : M A) (s : State) :
  (∀ l n, triple (same_drivers l n) m (λ _, same_drivers l n) (λ _, same_drivers l n)) →
  drivers_wf s → drivers_wf (m s).1.
Proof.
  intros Hm Hs.
  destruct (triple_final _ _ m s (Hm (drivers s) (next_drv s))) as (Hl & Hn & _); [done|].
  unfold drivers_wf. by rewrite Hl, Hn.
Qed.

Lemma same_drivers__process_queue (l : list nat) (n : nat) :
  triple (same_drivers l n) SimulationEngine._process_queue
    (λ _, same_drivers l n) (λ _, same_drivers l n).
Proof. by apply (frame__process_queue 0%nat l n (λ _, True)). Qed.

Lemma same_drivers_request_or_queue (l : list nat) (n : nat) (q : nat) (A : Type)
    (a : A) :
  triple (same_drivers l n)
    (let* ok := SimulationEngine._try_assign_request q in
     (if (ok : bool) then ret tt else QueueService.add_to_queue q) ;;;
     ret a)
    (λ _, same_drivers l n) (λ _, same_drivers l n).
Proof.
  apply triple_bind with (R := λ _, same_drivers l n).
  { eapply triple_conseq;
      [by apply (frame__try_assign_request 0%nat l n (λ _, True))|..]; done. }
  intros ok. apply triple_bind with (R := λ _, same_drivers l n).
  - destruct ok; [by apply triple_ret|by intros s Hs].
  - intros _. by apply triple_ret.
Qed.

Lemma same_drivers_add_rider (l : list nat) (n : nat) (px py dx dy : Z) :
  triple (same_drivers l n) (SimulationEngine.add_rider px py dx dy)
    (λ _, same_drivers l n) (λ _, same_drivers l n).
Proof.
  unfold SimulationEngine.add_rider.
  apply triple_bind with (R := λ _, same_drivers l n).
  { intros s Hs. unfold RiderService.add_rider.
    destruct (RiderService._is_valid_position px py); [|done].
    by destruct (RiderService._is_valid_position dx dy). }
  intros rider. apply triple_bind with (R := λ _, same_drivers l n); [by intros s Hs|].
  intros q. apply same_drivers_request_or_queue.
Qed.

Lemma same_drivers_create_request (l : list nat) (n : nat) (rider_id : string) :
  triple (same_drivers l n) (SimulationEngine.create_request rider_id)
    (λ _, same_drivers l n) (λ _, same_drivers l n).
Proof.
  unfold SimulationEngine.create_request.
  apply triple_bind with (R := λ _, same_drivers l n); [by apply triple_gets|].
  intros [rider|]; [|by apply triple_ret].
  apply triple_bind with (R := λ _, same_drivers l n); [by intros s Hs|].
  intros q. apply same_drivers_request_or_queue.
Qed.

Lemma same_drivers_advance_tick (l : list nat) (n : nat) :
  triple (same_drivers l n) SimulationEngine.advance_tick
    (λ _, same_drivers l n) (λ _, same_drivers l n).
Proof.
  unfold SimulationEngine.advance_tick.
  apply triple_bind with (R := λ _, same_drivers l n); [by apply triple_gets|].
  intros busy. apply triple_bind with (R := λ _, same_drivers l n).
  { apply triple_for_each. intros b _.
    by apply (frame__move_driver_one_step 0%nat l n (λ _, True)). }
  intros _. apply triple_bind with (R := λ _, same_drivers l n); [by apply triple_gets|].
  intros idle. apply triple_bind with (R := λ _, same_drivers l n).
  { apply triple_for_each. by intros b _ s Hs. }
  intros _. apply same_drivers__process_queue.
Qed.

Lemma remove_first_with_id_nodup (f : nat → Driver.t) (k : string) (l l' : list nat) :
  DriverService.remove_first_with_id f k l = Some l' → NoDup l → NoDup l'.
Proof.
  revert l'. induction l as [|a l IH]; intros l'; simpl; [done|].
  intros Hrm [Ha Hl]%list.NoDup_cons. destruct (decide (Driver.id (f a) = k)).
  - by injection Hrm as <-.
  - destruct (DriverService.remove_first_with_id f k l) as [l''|] eqn:Hrec; [|done].
    injection Hrm as <-. apply list.NoDup_cons. split; [|by apply IH].
    intros Hin. apply Ha. by eapply elem_of_remove_first_with_id.
Qed.

Lemma triple_drivers_wf {A} (m : M A) :
  (∀ l n, triple (same_drivers l n) m (λ _, same_drivers l n) (λ _, same_drivers l n)) →
  triple drivers_wf m (λ _, drivers_wf) (λ _, drivers_wf).
Proof. intros Hm. apply triple_total. intros s Hs. by apply drivers_wf_frame. Qed.

Lemma drivers_wf_add_driver (x y : Z) :
  triple drivers_wf (SimulationEngine.add_driver x y)
    (λ _, drivers_wf) (λ _, drivers_wf).
Proof.
  unfold SimulationEngine.add_driver.
  apply triple_bind with (R := λ _, drivers_wf).
  - intros s [Hnd Hlt]. unfold DriverService.add_driver.
    destruct (bool_decide _); [|done].
    unfold DriverService.generate_driver_id. mrun. split; simpl.
    + apply list.NoDup_app. split_and!; [done| |apply list.NoDup_singleton].
      intros d Hd ->%list_elem_of_singleton. specialize (Hlt _ Hd). lia.
    + intros d [Hd| ->%list_elem_of_singleton]%elem_of_app; [|lia].
      specialize (Hlt _ Hd). lia.
  - intros d. apply triple_bind with (R := λ _, drivers_wf).
    + apply triple_drivers_wf, same_drivers__process_queue.
    + intros _. by apply triple_ret.
Qed.

Lemma drivers_wf_perform (o : operation) (s : State) :
  drivers_wf s → drivers_wf (perform o s).
Proof.
  intros Hs. destruct o; unfold perform.
  - by apply (triple_final _ _ _ s (drivers_wf_add_driver x y)).
  - unfold SimulationEngine.remove_driver, DriverService.remove_driver. mrun.
    destruct (DriverService.remove_first_with_id _ _ _) as [l|] eqn:Hl; [|done].
    destruct Hs as [Hnd Hlt]. split; simpl.
    + by eapply remove_first_with_id_nodup.
    + intros d Hd. apply Hlt. by eapply elem_of_remove_first_with_id.
  - apply drivers_wf_frame; [|done]. intros l n. apply same_drivers_add_rider.
  - apply drivers_wf_frame; [|done]. intros l n.
    eapply triple_conseq;
      [by apply (frame_remove_rider 0%nat l n (λ _, True))|..]; done.
  - apply drivers_wf_frame; [|done]. intros l n. apply same_drivers_create_request.
  - apply drivers_wf_frame; [|done]. intros l n. apply same_drivers_advance_tick.
  - split; simpl; [apply NoDup_nil_2|]. intros d Hd. by apply elem_of_nil in Hd.
Qed.

Lemma reachable_drivers_wf (s : State) : reachable s → drivers_wf s.
Proof.
  induction 1 as [|s o _ IH]; [|by apply drivers_wf_perform].
  split; simpl; [apply NoDup_nil_2|]. intros d Hd. by apply elem_of_nil in Hd.
Qed.

End driver_list.

(** * Further properties of the services *)

(** ** Distance, eta and score *)

Section scoring_more.
Import ScoringService.

(** X1: [calculate_distance] is a metric on grid points: never negative,
    zero exactly between a point and itself, the same in both directions,
    and no longer through a third point. *)
Theorem calculate_distance_metric (x1 y1 x2 y2 x3 y3 : Z) :
  0 ≤ calculate_distance x1 y1 x2 y2
  ∧ (calculate_distance x1 y1 x2 y2 = 0 ↔ x1 = x2 ∧ y1 = y2)
  ∧ calculate_distance x1 y1 x2 y2 = calculate_distance x2 y2 x1 y1
  ∧ calculate_distance x1 y1 x3 y3
    ≤ calculate_distance x1 y1 x2 y2 + calculate_distance x2 y2 x3 y3.
Proof. unfold calculate_distance. lia. Qed.

(** X2: at a speed of at least 1 the eta lies between 0 and the distance,
    is 0 only from a point to itself, equals the distance at speed 1, and
    does not grow when the speed grows. *)
Theorem calculate_eta_bounds (x1 y1 x2 y2 speed speed' : Z) :
  1 ≤ speed → speed ≤ speed' →
  ∃ eta eta',
    calculate_eta x1 y1 x2 y2 speed = Ok eta
    ∧ calculate_eta x1 y1 x2 y2 speed' = Ok eta'
    ∧ 0 ≤ eta' ≤ eta
    ∧ eta ≤ calculate_distance x1 y1 x2 y2
    ∧ (eta = 0 ↔ x1 = x2 ∧ y1 = y2)
    ∧ calculate_eta x1 y1 x2 y2 1 = Ok (calculate_distance x1 y1 x2 y2).
Proof.
  intros Hs Hs'. unfold calculate_eta, calculate_distance.
  set (dist := Z.abs (x1 - x2) + Z.abs (y1 - y2)).
  assert (0 ≤ dist) as Hd by (unfold dist; lia).
  destruct (decide (speed = 0)) as [|_]; [lia|].
  destruct (decide (speed' = 0)) as [|_]; [lia|].
  destruct (decide (1 = 0)) as [|_]; [lia|].
  pose proof (ceiling_division_bounds dist speed Hs) as Hb.
  pose proof (ceiling_division_bounds dist speed' ltac:(lia)) as Hb'.
  cbv zeta in Hb, Hb'.
  set (eta := (dist + speed - 1) `div` speed) in *.
  set (eta' := (dist + speed' - 1) `div` speed') in *.
  exists eta, eta'. split; [done|]. split; [done|].
  assert (0 ≤ eta') as H0' by nia.
  assert (0 ≤ eta) as H0 by nia.
  split; [|split; [|split]].
  - split; [done|]. nia.
  - nia.
  - split.
    + intros He. assert (dist = 0) by nia. unfold dist in *. lia.
    + intros [-> ->]. assert (dist = 0) as Hz by (unfold dist; lia). nia.
  - do 2 f_equal. rewrite Z.div_1_r. lia.
Qed.

Lemma calculate_eta_bounds_witness :
  ∃ eta eta',
    calculate_eta 0 0 3 4 2 = Ok eta
    ∧ calculate_eta 0 0 3 4 3 = Ok eta'
    ∧ 0 ≤ eta' ≤ eta
    ∧ eta ≤ calculate_distance 0 0 3 4
    ∧ (eta = 0 ↔ 0 = 3 ∧ 0 = 4)
    ∧ calculate_eta 0 0 3 4 1 = Ok (calculate_distance 0 0 3 4).
Proof. apply (calculate_eta_bounds 0 0 3 4 2 3); lia. Defined.

(** X3: on the grid the trip count outweighs everything else once it
    differs by nine: the pickup is at most 38 away and the idle bonus at
    most 50, so [find_best_driver] never returns a driver that has nine or
    more trips more than another candidate.  The candidates stand on the
    grid and have no negative idle ticks, the pickup lies on the grid. *)
Theorem find_best_driver_trip_gap
    (drv : nat → Driver.t) (pool : list nat) (r : RideRequest.t) (best d : nat) :
  (∀ c, c ∈ pool → in_grid (Driver.x (drv c)) (Driver.y (drv c))
                   ∧ 0 ≤ Driver.idleTicks (drv c)) →
  in_grid (RideRequest.pickup_x r) (RideRequest.pickup_y r) →
  find_best_driver drv pool r = Ok best →
  d ∈ pool →
  Driver.totalTrips (drv best) < Driver.totalTrips (drv d) + 9.
Proof.
  intros Hpool Hr Hbest Hd.
  destruct pool as [|d0 ds]; [by apply elem_of_nil in Hd|].
  destruct (find_best_driver_first_minimum drv r d0 ds)
    as (l1 & b & l2 & Hl & Hf & H1 & H2).
  rewrite Hf in Hbest. injection Hbest as ->.
  assert (best ∈ d0 :: ds) as Hb.
  { rewrite Hl. apply elem_of_app. right. left. }
  assert (score_value (drv best) r ≤ score_value (drv d) r) as Hle.
  { rewrite Hl in Hd. apply elem_of_app in Hd as [Hd|Hd].
    - specialize (H1 d Hd). lia.
    - apply elem_of_cons in Hd as [->|Hd]; [lia|]. by apply H2. }
  rewrite !score_value_eq in Hle. unfold calculate_distance in Hle.
  destruct (Hpool best Hb) as [[Hbx Hby] Hbi].
  destruct (Hpool d Hd) as [[Hdx Hdy] Hdi].
  destruct Hr as [Hrx Hry].
  unfold DEFAULT_GRID_WIDTH, DEFAULT_GRID_HEIGHT in *. lia.
Qed.

Lemma find_best_driver_trip_gap_witness :
  let drv := λ n : nat,
    match n with
    | O => Driver.mk "Driver 1" 0 0 available 9 50 None None None None
    | _ => Driver.mk "Driver 2" 19 19 available 1 0 None None None None
    end in
  Driver.totalTrips (drv 0%nat) < Driver.totalTrips (drv 1%nat) + 9.
Proof.
  intros drv.
  apply (find_best_driver_trip_gap drv [0; 1]%nat
           (RideRequest.mk "Request 1" "Rider 1" waiting 0 0 5 5 None) 0%nat 1%nat).
  - intros c Hc. destruct c as [|[|c]]; vm_compute; intuition discriminate.
  - vm_compute. intuition discriminate.
  - reflexivity.
  - right. left.
Defined.

End scoring_more.

(** ** One step of a driver *)

Section movement.

Lemma move_driver_one_step_effect (d : nat) (s : State) :
  let s' := (DriverService.move_driver_one_step d s).1 in
  let v := drv s d in
  let v' := drv s' d in
  (DriverService.move_driver_one_step d s).2 = Ok tt
  ∧ (∀ d', d' ≠ d → drv s' d' = drv s d')
  ∧ v' = Driver.mk (Driver.id v) (Driver.x v') (Driver.y v') (Driver.status v)
           (Driver.totalTrips v) (Driver.idleTicks v) (Driver.assignedRequestId v)
           (Driver.tripPhase v) (Driver.targetX v) (Driver.targetY v)
  ∧ (∀ tx ty, Driver.targetX v = Some tx → Driver.targetY v = Some ty →
       Z.abs (tx - Driver.x v') = Z.max 0 (Z.abs (tx - Driver.x v) - 1)
       ∧ Z.abs (ty - Driver.y v') = Z.max 0 (Z.abs (ty - Driver.y v) - 1)
       ∧ Z.abs (Driver.x v' - Driver.x v) ≤ 1
       ∧ Z.abs (Driver.y v' - Driver.y v) ≤ 1)
  ∧ (Driver.targetX v = None ∨ Driver.targetY v = None → s' = s)
  ∧ same_registries s s' ∧ req s' = req s ∧ request_queue s' = request_queue s.
Proof.
  unfold DriverService.move_driver_one_step, same_registries. mrun.
  destruct (drv s d) as [i x y st tt' it ar tp [tx|] [ty|]] eqn:Hv; cbn.
  - rewrite fn_lookup_insert. cbn. split_and!; try done.
    + intros d' Hne. by rewrite fn_lookup_insert_ne.
    + intros tx' ty' [= <-] [= <-]. repeat case_decide; lia.
    + by intros [|].
  - rewrite Hv. by split_and!.
  - rewrite Hv. by split_and!.
  - rewrite Hv. by split_and!.
Qed.

(** X4: [move_driver_one_step] never raises and writes only the position
    of the one driver.  Each coordinate moves by one toward its target
    coordinate and stays when it is there, so the step never passes the
    target; a driver without a target is not moved.  The other fields of
    the driver, the other drivers, the requests, the driver list, the
    riders, the registry, the queue and every counter are as they were. *)
Theorem move_driver_one_step_toward_target (d : nat) (s : State) :
  let s' := (DriverService.move_driver_one_step d s).1 in
  let v := drv s d in
  let v' := drv s' d in
  (DriverService.move_driver_one_step d s).2 = Ok tt
  ∧ (∀ d', d' ≠ d → drv s' d' = drv s d')
  ∧ v' = Driver.mk (Driver.id v) (Driver.x v') (Driver.y v') (Driver.status v)
           (Driver.totalTrips v) (Driver.idleTicks v) (Driver.assignedRequestId v)
           (Driver.tripPhase v) (Driver.targetX v) (Driver.targetY v)
  ∧ (∀ tx ty, Driver.targetX v = Some tx → Driver.targetY v = Some ty →
       Z.abs (tx - Driver.x v') = Z.max 0 (Z.abs (tx - Driver.x v) - 1)
       ∧ Z.abs (ty - Driver.y v') = Z.max 0 (Z.abs (ty - Driver.y v) - 1)
       ∧ Z.abs (Driver.x v' - Driver.x v) ≤ 1
       ∧ Z.abs (Driver.y v' - Driver.y v) ≤ 1)
  ∧ (Driver.targetX v = None ∨ Driver.targetY v = None → s' = s)
  ∧ same_registries s s' ∧ req s' = req s ∧ request_queue s' = request_queue s.
Proof. apply move_driver_one_step_effect. Qed.

Lemma move_steps_position (n : nat) (d : nat) (s : State) (tx ty : Z) :
  Driver.targetX (drv s d) = Some tx → Driver.targetY (drv s d) = Some ty →
  let v' := drv (move_steps n d s) d in
  Driver.targetX v' = Some tx ∧ Driver.targetY v' = Some ty
  ∧ Z.abs (tx - Driver.x v') = Z.max 0 (Z.abs (tx - Driver.x (drv s d)) - Z.of_nat n)
  ∧ Z.abs (ty - Driver.y v') = Z.max 0 (Z.abs (ty - Driver.y (drv s d)) - Z.of_nat n).
Proof.
  intros Htx Hty. induction n as [|n IH].
  - simpl. split_and!; try done; lia.
  - cbn zeta in *. destruct IH as (Hx & Hy & Hdx & Hdy).
    change (move_steps (S n) d s)
      with (DriverService.move_driver_one_step d (move_steps n d s)).1.
    destruct (move_driver_one_step_effect d (move_steps n d s))
      as (_ & _ & Hrec & Hstep & _).
    cbn zeta in Hrec, Hstep.
    destruct (Hstep tx ty Hx Hy) as (Hsx & Hsy & _).
    set (s1 := move_steps n d s) in *.
    set (s2 := (DriverService.move_driver_one_step d s1).1) in *.
    split_and!.
    + rewrite Hrec. exact Hx.
    + rewrite Hrec. exact Hy.
    + rewrite Hsx, Hdx. lia.
    + rewrite Hsy, Hdy. lia.
Qed.

(** X5: the two coordinates move in the same call, so a driver that is
    stepped [n] times stands on its target exactly when [n] is at least the
    larger of the two coordinate distances, not their sum.  The eta that
    the scoring computes for the same trip, [calculate_eta] at speed 1, is
    the sum: after that many steps the driver has arrived, so the eta is an
    upper bound of the travel time, and it is the travel time, the least
    number of steps that arrives, exactly when the driver and the target
    share a coordinate, that is along a straight line. *)
Theorem move_steps_arrival (n : nat) (d : nat) (s : State) (tx ty : Z) :
  Driver.targetX (drv s d) = Some tx → Driver.targetY (drv s d) = Some ty →
  let arrived (m : nat) :=
    Driver.x (drv (move_steps m d s) d) = tx
    ∧ Driver.y (drv (move_steps m d s) d) = ty in
  (arrived n
   ↔ Z.max (Z.abs (tx - Driver.x (drv s d))) (Z.abs (ty - Driver.y (drv s d)))
     ≤ Z.of_nat n)
  ∧ ∃ eta,
      ScoringService.calculate_eta (Driver.x (drv s d)) (Driver.y (drv s d)) tx ty 1
      = Ok eta
      ∧ eta = Z.abs (tx - Driver.x (drv s d)) + Z.abs (ty - Driver.y (drv s d))
      ∧ arrived (Z.to_nat eta)
      ∧ ((∀ m, arrived m → eta ≤ Z.of_nat m)
         ↔ Driver.x (drv s d) = tx ∨ Driver.y (drv s d) = ty).
Proof.
  intros Htx Hty arrived.
  assert (∀ m, arrived m
               ↔ Z.max (Z.abs (tx - Driver.x (drv s d)))
                       (Z.abs (ty - Driver.y (drv s d))) ≤ Z.of_nat m) as Harr.
  { intros m. unfold arrived.
    destruct (move_steps_position m d s tx ty Htx Hty) as (_ & _ & Hx & Hy).
    cbn zeta in *. lia. }
  split; [apply Harr|].
  exists (Z.abs (tx - Driver.x (drv s d)) + Z.abs (ty - Driver.y (drv s d))).
  split_and!.
  - unfold ScoringService.calculate_eta. rewrite decide_False by done.
    f_equal. rewrite Z.div_1_r. lia.
  - done.
  - apply Harr. lia.
  - split.
    + intros Hleast.
      specialize (Hleast
        (Z.to_nat (Z.max (Z.abs (tx - Driver.x (drv s d)))
                         (Z.abs (ty - Driver.y (drv s d)))))).
      rewrite Harr in Hleast. lia.
    + intros Hline m Hm%Harr. lia.
Qed.

Lemma move_steps_arrival_witness :
  let s := run [op_add_driver 0 0; op_add_rider 3 4 5 5] SimulationEngine.initial in
  (Driver.x (drv (move_steps 4 0 s) 0) = 3 ∧ Driver.y (drv (move_steps 4 0 s) 0) = 4)
  ∧ ScoringService.calculate_eta 0 0 3 4 1 = Ok 7.
Proof.
  intros s.
  assert (Driver.targetX (drv s 0%nat) = Some 3) as Htx by (vm_compute; reflexivity).
  assert (Driver.targetY (drv s 0%nat) = Some 4) as Hty by (vm_compute; reflexivity).
  destruct (move_steps_arrival 4 0%nat s 3 4 Htx Hty) as [Harrived _].
  split; [|vm_compute; reflexivity].
  apply Harrived. vm_compute. discriminate.
Defined.

End movement.

(** ** Removing a driver *)

Section remove_driver.

Lemma remove_first_with_id_spec (f : nat → Driver.t) (k : string) (l : list nat) :
  match DriverService.first_with_id f k l with
  | None =>
      DriverService.remove_first_with_id f k l = None
      ∧ ∀ d, d ∈ l → Driver.id (f d) ≠ k
  | Some d =>
      ∃ l1 l2, l = l1 ++ d :: l2
               ∧ Driver.id (f d) = k
               ∧ (∀ d', d' ∈ l1 → Driver.id (f d') ≠ k)
               ∧ DriverService.remove_first_with_id f k l = Some (l1 ++ l2)
  end.
Proof.
  induction l as [|a l IH]; simpl.
  - split; [done|]. intros d Hd. by apply elem_of_nil in Hd.
  - destruct (decide (Driver.id (f a) = k)) as [Ha|Ha].
    + exists [], l. split_and!; try done. intros d' Hd'. by apply elem_of_nil in Hd'.
    + destruct (DriverService.first_with_id f k l) as [d|].
      * destruct IH as (l1 & l2 & -> & Hd & Hl1 & ->).
        exists (a :: l1), l2. split_and!; try done.
        intros d' [->|Hd']%elem_of_cons; [done|by apply Hl1].
      * destruct IH as [-> Hl]. split; [done|].
        intros d [->|Hd]%elem_of_cons; [done|by apply Hl].
Qed.

(** X6: [remove_driver] never raises.  When no driver has the id it
    returns [False] and changes nothing.  Otherwise it returns [True] and
    takes the first driver with that id out of the driver list, the one
    [get_driver] finds; the other drivers keep their order, and nothing
    else is written: a request assigned to the removed driver stays as it
    was. *)
Theorem remove_driver_spec (driver_id : string) (s : State) :
  match (SimulationEngine.get_driver driver_id s).2 with
  | Ok None =>
      SimulationEngine.remove_driver driver_id s = (s, Ok false)
      ∧ ∀ d, d ∈ drivers s → Driver.id (drv s d) ≠ driver_id
  | Ok (Some d) =>
      ∃ l1 l2, drivers s = l1 ++ d :: l2
               ∧ Driver.id (drv s d) = driver_id
               ∧ (∀ d', d' ∈ l1 → Driver.id (drv s d') ≠ driver_id)
               ∧ SimulationEngine.remove_driver driver_id s
                 = (set_drivers (l1 ++ l2) s, Ok true)
  | Raise _ => False
  end.
Proof.
  unfold SimulationEngine.get_driver, DriverService.get_driver,
    SimulationEngine.remove_driver, DriverService.remove_driver. mrun.
  pose proof (remove_first_with_id_spec (drv s) driver_id (drivers s)) as Hspec.
  destruct (DriverService.first_with_id (drv s) driver_id (drivers s)) as [d|].
  - destruct Hspec as (l1 & l2 & Hl & Hd & Hl1 & ->). by exists l1, l2.
  - by destruct Hspec as [-> Hl].
Qed.

End remove_driver.

(** ** Removing a rider *)

Lemma filter_all {A} (P : A → Prop) `{!∀ x, Decision (P x)} (l : list A) :
  (∀ x, x ∈ l → P x) → filter P l = l.
Proof.
  induction l as [|a l IH]; intros Hl; [done|].
  rewrite filter_cons_True by (apply Hl; left).
  f_equal. apply IH. intros x Hx. apply Hl. by right.
Qed.

Section remove_rider.

Variables (f : nat → RideRequest.t) (rider_id : string).

Let of_rider (r : nat) : Prop := RideRequest.rider_id (f r) = rider_id.

(** One pass of the loop of [remove_rider] over the queue [q]. *)
Let drop_queued (q : list nat) (e : nat) : list nat :=
  if decide (of_rider e) then QueueService.remove_first_equal f e q else q.

Let same_count (x : nat) (l : list nat) : nat :=
  length (filter (λ y, f y = f x) l).

Lemma remove_first_equal_others (e : nat) (q : list nat) :
  of_rider e →
  filter (λ r, ¬ of_rider r) (QueueService.remove_first_equal f e q)
  = filter (λ r, ¬ of_rider r) q.
Proof.
  intros He. induction q as [|a q IH]; simpl; [done|].
  destruct (decide (f a = f e)) as [Hae|Hae].
  - rewrite filter_cons_False; [done|]. intros Hn. apply Hn.
    unfold of_rider. by rewrite Hae.
  - rewrite !filter_cons. by rewrite IH.
Qed.

Lemma same_count_remove_eq (x e : nat) (q : list nat) :
  x ∈ q → f x = f e →
  S (same_count x (QueueService.remove_first_equal f e q)) = same_count x q.
Proof.
  intros Hx Hxe. unfold same_count. induction q as [|a q IH]; simpl.
  - by apply elem_of_nil in Hx.
  - destruct (decide (f a = f e)) as [Hae|Hae].
    + rewrite filter_cons_True by congruence. done.
    + rewrite !filter_cons_False by congruence.
      apply IH. apply elem_of_cons in Hx as [->|Hx]; [done|done].
Qed.

Lemma same_count_remove_ne (x e : nat) (q : list nat) :
  f x ≠ f e →
  same_count x (QueueService.remove_first_equal f e q) = same_count x q.
Proof.
  intros Hxe. unfold same_count. induction q as [|a q IH]; simpl; [done|].
  destruct (decide (f a = f e)) as [Hae|Hae].
  - rewrite filter_cons_False by congruence. done.
  - rewrite !filter_cons. destruct (decide (f a = f x)); simpl; by rewrite IH.
Qed.

Lemma elem_of_same_count (x : nat) (q : list nat) :
  x ∈ q → (0 < same_count x q)%nat.
Proof.
  intros Hx. unfold same_count.
  assert (x ∈ filter (λ y, f y = f x) q) as Hin by (by apply list_elem_of_filter).
  destruct (filter _ q); [by apply elem_of_nil in Hin|simpl; lia].
Qed.

Lemma drop_queued_others (l q : list nat) :
  filter (λ r, ¬ of_rider r) (foldl drop_queued q l) = filter (λ r, ¬ of_rider r) q.
Proof.
  revert q. induction l as [|e l IH]; intros q; simpl; [done|].
  rewrite IH. unfold drop_queued. destruct (decide (of_rider e)); [|done].
  by apply remove_first_equal_others.
Qed.

Lemma drop_queued_all (l q : list nat) :
  (∀ x, x ∈ q → of_rider x → (same_count x q ≤ same_count x l)%nat) →
  ∀ x, x ∈ foldl drop_queued q l → ¬ of_rider x.
Proof.
  revert q. induction l as [|e l IH]; intros q Hq x Hx Hox; simpl in Hx.
  - specialize (Hq x Hx Hox). pose proof (elem_of_same_count x q Hx) as Hpos.
    unfold same_count in *. simpl in Hq. lia.
  - refine (IH (drop_queued q e) _ x Hx Hox).
    clear x Hx Hox. intros x Hx Hox. unfold drop_queued in *.
    destruct (decide (of_rider e)) as [He|He].
    + assert (x ∈ q) as Hxq by (by eapply elem_of_remove_first_equal).
      specialize (Hq x Hxq Hox).
      destruct (decide (f x = f e)) as [Hxe|Hxe].
      * pose proof (same_count_remove_eq x e q Hxq Hxe) as Hc.
        unfold same_count in *.
        rewrite filter_cons_True in Hq by congruence. simpl in Hq. lia.
      * pose proof (same_count_remove_ne x e q Hxe) as Hc.
        unfold same_count in *.
        rewrite filter_cons_False in Hq by congruence. lia.
    + specialize (Hq x Hx Hox).
      assert (f e ≠ f x) as Hne.
      { intros Heq. apply He. unfold of_rider in *. by rewrite Heq. }
      unfold same_count in *. rewrite filter_cons_False in Hq by done. done.
Qed.

Lemma drop_queued_result (q : list nat) :
  foldl drop_queued q q = filter (λ r, ¬ of_rider r) q.
Proof.
  rewrite <- (drop_queued_others q q).
  symmetry. apply filter_all.
  intros x Hx. by apply (drop_queued_all q q).
Qed.

End remove_rider.

Section remove_rider_result.

Lemma set_request_queue_same (s : State) : set_request_queue (request_queue s) s = s.
Proof. by destruct s. Qed.

Lemma set_riders_same (s : State) : set_riders (riders s) s = s.
Proof. by destruct s. Qed.

Lemma remove_rider_loop (rider_id : string) (l : list nat) (s : State) :
  for_each l (λ request,
    let* r := read_req request in
    if decide (RideRequest.rider_id r = rider_id)
    then QueueService.remove_from_queue request
    else ret tt) s
  = (set_request_queue
       (foldl (λ q e,
          if decide (RideRequest.rider_id (req s e) = rider_id)
          then QueueService.remove_first_equal (req s) e q else q)
          (request_queue s) l) s,
     Ok tt).
Proof.
  revert s. induction l as [|e l IH]; intros s.
  - simpl. unfold ret. by rewrite set_request_queue_same.
  - cbn [for_each foldl]. unfold bind at 1. unfold bind at 1.
    unfold read_req, gets.
    destruct (decide (RideRequest.rider_id (req s e) = rider_id)) as [He|He].
    + unfold QueueService.remove_from_queue, modify. by rewrite IH.
    + unfold ret. by rewrite IH.
Qed.

Lemma remove_rider_eq (rider_id : string) (s : State) :
  SimulationEngine.remove_rider rider_id s
  = (set_riders (delete rider_id (riders s))
       (set_request_queue
          (filter (λ r, RideRequest.rider_id (req s r) ≠ rider_id) (request_queue s))
          (set_requests
             (filter (λ kr, RideRequest.rider_id (req s kr.2) ≠ rider_id) (requests s))
             s)),
     Ok (bool_decide (is_Some (riders s !! rider_id)))).
Proof.
  unfold SimulationEngine.remove_rider.
  unfold bind at 1. unfold RequestService.remove_requests_for_rider, modify.
  unfold bind at 1. unfold QueueService.get_queued_requests, gets.
  unfold bind at 1. rewrite remove_rider_loop.
  cbn [req request_queue set_requests].
  rewrite drop_queued_result.
  unfold RiderService.remove_rider, bind, gets, modify, ret. cbn [riders set_request_queue set_requests].
  destruct (riders s !! rider_id) as [rider|] eqn:Hr.
  - rewrite bool_decide_true by eauto. done.
  - rewrite bool_decide_false by (by intros [? ?]).
    rewrite delete_id by done.
    match goal with |- (?st, _) = _ => by rewrite <- (set_riders_same st) at 1 end.
Qed.

(** X7: [remove_rider] never raises and returns whether the rider was
    registered.  It takes out of the registry every request of the rider
    and out of the queue every queued request of the rider, leaves the other
    queued requests in their order, and removes the rider.  Drivers and
    request objects are not written: a driver on a trip for the rider keeps
    its assignment. *)
Theorem remove_rider_spec (rider_id : string) (s : State) :
  SimulationEngine.remove_rider rider_id s
  = (set_riders (delete rider_id (riders s))
       (set_request_queue
          (filter (λ r, RideRequest.rider_id (req s r) ≠ rider_id) (request_queue s))
          (set_requests
             (filter (λ kr, RideRequest.rider_id (req s kr.2) ≠ rider_id) (requests s))
             s)),
     Ok (bool_decide (is_Some (riders s !! rider_id)))).
Proof. apply remove_rider_eq. Qed.

End remove_rider_result.

(** ** The drain of the queue *)

Section drain_order.

Lemma filter_other_ids_length (id0 : nat → string) (best : nat) (l : list nat) :
  best ∈ l →
  (length (filter (λ d, id0 d ≠ id0 best) l) < length l)%nat
  ∧ (NoDup (id0 <$> l) →
     S (length (filter (λ d, id0 d ≠ id0 best) l)) = length l
     ∧ NoDup (id0 <$> filter (λ d, id0 d ≠ id0 best) l)).
Proof.
  induction l as [|a l IH]; intros Hb; [by apply elem_of_nil in Hb|].
  rewrite filter_cons. destruct (decide (id0 a ≠ id0 best)) as [Ha|Ha].
  - assert (best ∈ l) as Hbl.
    { apply elem_of_cons in Hb as [->|Hb]; [done|done]. }
    destruct (IH Hbl) as [Hlt Hnd]. split; [simpl; lia|].
    rewrite !fmap_cons. intros [Hnot Hl]%list.NoDup_cons.
    destruct (Hnd Hl) as [Hlen Hnd']. split; [simpl; lia|].
    apply list.NoDup_cons. split; [|done].
    intros Hin. apply Hnot. apply list_elem_of_fmap in Hin as (d & Hd & Hin).
    apply list_elem_of_filter in Hin as [_ Hin]. apply list_elem_of_fmap. by exists d.
  - apply dec_stable in Ha.
    pose proof (length_filter (λ d, id0 d ≠ id0 best) l) as Hle.
    split; [simpl; lia|]. rewrite fmap_cons. intros [Hnot Hl]%list.NoDup_cons.
    rewrite filter_all; [done|].
    intros d Hd Heq. apply Hnot. apply list_elem_of_fmap. exists d.
    split; [congruence|done].
Qed.

Lemma process_loop_order (q0 : list nat) (id0 : nat → string) (s0 : State)
    (queue_copy remaining processed : list nat) :
  triple
    (λ s, request_queue s = q0 ∧ same_registries s0 s
          ∧ (∀ d, Driver.id (drv s d) = id0 d)
          ∧ (∀ p, p ∈ processed → assigned_ok s p))
    (QueueService.process_loop queue_copy remaining processed)
    (λ res s, request_queue s = q0 ∧ same_registries s0 s
              ∧ (∀ d, Driver.id (drv s d) = id0 d)
              ∧ (∀ p, p ∈ res → assigned_ok s p)
              ∧ ∃ k, res = processed ++ take k queue_copy
                     ∧ (k ≤ length queue_copy)%nat ∧ (k ≤ length remaining)%nat
                     ∧ (NoDup (id0 <$> remaining) →
                        k = (length queue_copy `min` length remaining)%nat))
    (λ _ _, False).
Proof.
  revert remaining processed.
  induction queue_copy as [|q rest IH]; intros remaining processed.
  - apply triple_ret. intros s (Hq & Hsame & Hid & Hp). split_and!; try done.
    exists 0%nat. rewrite take_0, app_nil_r. split_and!; try done; simpl; lia.
  - destruct remaining as [|d0 ds].
    { apply triple_ret. intros s (Hq & Hsame & Hid & Hp). split_and!; try done.
      exists 0%nat. rewrite take_0, app_nil_r. split_and!; try done; simpl; lia. }
    cbn [QueueService.process_loop]. set (remaining := d0 :: ds).
    apply triple_pre. intros s (Hq & Hsame & Hid & Hp).
    apply triple_bind with (R := λ s1 s', s' = s ∧ s1 = s); [by apply triple_gets|].
    intros s1.
    destruct (find_best_driver_result (drv s1) remaining (req s1 q))
      as [[? _]|(best & Hbest & Hfind)]; [done|].
    rewrite Hfind.
    set (s2 := (QueueService._assign_request_to_driver q best s).1).
    apply triple_bind with (R := λ _ s', s' = s2).
    { apply triple_returns with (f := λ _, tt); [done|]. by intros s' [-> _]. }
    intros _.
    apply triple_bind with (R := λ s2' s', s' = s2 ∧ s2' = s2); [by apply triple_gets|].
    intros s2'. apply triple_pre. intros s' [-> ->].
    assert (∀ d, Driver.id (drv s2 d) = id0 d) as Hid2.
    { intros d. unfold s2. by rewrite queue_assign_driver_id. }
    assert (filter (λ d, Driver.id (drv s2 d) ≠ Driver.id (drv s2 best)) remaining
            = filter (λ d, id0 d ≠ id0 best) remaining) as ->.
    { apply list_filter_iff. intros d. by rewrite !Hid2. }
    destruct (filter_other_ids_length id0 best remaining Hbest) as [Hlt Hnd].
    eapply triple_conseq; [apply IH|..]; simpl; [| |done].
    + intros s' ->. split_and!; try done.
      intros p Hp'. apply assigned_ok_queue_assign.
      apply elem_of_app in Hp' as [Hp'|Hp'%list_elem_of_singleton]; auto.
    + intros res s' (Hq' & Hsame' & Hid' & Hp' & k & -> & Hk1 & Hk2 & Hk3).
      split_and!; try done. exists (S k). split_and!.
      * by rewrite <- app_assoc.
      * simpl. lia.
      * simpl in *. lia.
      * intros Hnodup. destruct (Hnd Hnodup) as [Hlen Hnodup'].
        specialize (Hk3 Hnodup'). simpl in *. lia.
Qed.

Lemma remove_prefix_from_queue (l q : list nat) (s : State) :
  request_queue s = l ++ q →
  for_each l QueueService.remove_from_queue s = (set_request_queue q s, Ok tt).
Proof.
  revert s. induction l as [|a l IH]; intros s Hs.
  - cbn. simpl in Hs. rewrite <- Hs. by destruct s.
  - cbn [for_each]. unfold bind at 1.
    unfold QueueService.remove_from_queue at 1. unfold modify. cbn beta iota.
    rewrite Hs. cbn [app QueueService.remove_first_equal].
    rewrite decide_True by done.
    rewrite (IH (set_request_queue (l ++ q) s)) by done. done.
Qed.

(** X8: [QueueService.process_queue] always returns. What it returns is a
    prefix of the queue, in queue order, and the queue that is left is the
    rest of it. The prefix is at most as long as the list of drivers, and
    when the drivers have pairwise different ids it is exactly as long as
    the shorter of the queue and the driver list. Every returned request is
    assigned and names a driver, and nothing is added to or removed from
    the driver list or the request registry. *)
Theorem process_queue_fifo (available_drivers : list nat) (s : State) :
  ∃ k : nat,
    (QueueService.process_queue available_drivers s).2
    = Ok (take k (request_queue s))
    ∧ request_queue (QueueService.process_queue available_drivers s).1
      = drop k (request_queue s)
    ∧ (k ≤ length (request_queue s) `min` length available_drivers)%nat
    ∧ (NoDup ((λ d, Driver.id (drv s d)) <$> available_drivers) →
       k = (length (request_queue s) `min` length available_drivers)%nat)
    ∧ (∀ p, p ∈ take k (request_queue s) →
       assigned_ok (QueueService.process_queue available_drivers s).1 p)
    ∧ same_registries s (QueueService.process_queue available_drivers s).1.
Proof.
  assert (same_registries s s) as Hrefl by (by repeat split).
  destruct (QueueService.process_queue available_drivers s) as [s' out] eqn:Heq.
  cbn [fst snd]. unfold QueueService.process_queue in Heq.
  destruct available_drivers as [|d0 ds].
  { injection Heq as <- <-. exists 0%nat. rewrite take_0, drop_0.
    split; [done|]. split; [done|]. split; [lia|]. split; [simpl; lia|].
    split; [|done]. intros p Hp. by apply elem_of_nil in Hp. }
  set (pool := d0 :: ds) in *.
  unfold bind at 1 in Heq. unfold QueueService.is_queue_empty, gets at 1 in Heq.
  cbn beta iota in Heq.
  destruct (bool_decide_reflect (length (request_queue s) = 0%nat)) as [Hlen|Hlen].
  { injection Heq as <- <-. exists 0%nat. rewrite take_0, drop_0.
    split; [done|]. split; [done|]. split; [lia|]. split; [lia|].
    split; [|done]. intros p Hp. by apply elem_of_nil in Hp. }
  unfold bind at 1 in Heq. unfold gets at 1 in Heq. cbn beta iota in Heq.
  pose proof (triple_run _ _ _ _ s
    (process_loop_order (request_queue s) (λ d, Driver.id (drv s d)) s
       (request_queue s) pool [])) as Hloop.
  unfold bind at 1 in Heq.
  destruct (QueueService.process_loop (request_queue s) pool [] s)
    as [s1 [res|e]]; [|exfalso; apply Hloop; split_and!; try done;
                        intros p Hp; by apply elem_of_nil in Hp].
  destruct Hloop as (Hq & Hsame & Hid & Hp & k & -> & Hk1 & Hk2 & Hk3).
  { split_and!; try done. intros p Hp. by apply elem_of_nil in Hp. }
  rewrite app_nil_l in *.
  unfold bind at 1 in Heq.
  rewrite (remove_prefix_from_queue (take k (request_queue s))
             (drop k (request_queue s)) s1) in Heq
    by (by rewrite take_drop).
  injection Heq as <- <-. exists k.
  split; [done|]. split; [done|]. split; [lia|]. split; [done|].
  split; [|unfold same_registries in *; by destruct s1].
  intros p Hp'. destruct (Hp p Hp') as [? ?]. unfold assigned_ok. by destruct s1.
Qed.

End drain_order.

(** ** When the engine's queue step returns *)

Section queue_step.

Lemma _process_queue_cases (s : State) :
  let idle := filter (λ d, Driver.status (drv s d) = available) (drivers s) in
  (request_queue s = [] ∨ idle = [] → SimulationEngine._process_queue s = (s, Ok tt))
  ∧ (request_queue s ≠ [] → idle ≠ [] →
     (SimulationEngine._process_queue s).2 = Raise AttributeError).
Proof.
  intros idle. split.
  - intros Hnone. unfold SimulationEngine._process_queue.
    unfold bind at 1. unfold DriverService.get_available_drivers, gets at 1.
    cbn beta iota. fold idle. unfold QueueService.process_queue.
    destruct idle as [|d0 ds]; [done|].
    destruct Hnone as [Hq|?]; [|done].
    unfold bind, QueueService.is_queue_empty, gets. cbn beta iota.
    by rewrite Hq.
  - intros Hq Hidle.
    pose proof (triple_run _ _ _ _ s _process_queue_raises (conj Hq Hidle)) as H.
    destruct (SimulationEngine._process_queue s) as [s' [[]|e]]; [done|].
    by rewrite H.
Qed.

Lemma _process_queue_returns_same (s s' : State) :
  SimulationEngine._process_queue s = (s', Ok tt) → s' = s.
Proof.
  intros Heq. destruct (_process_queue_cases s) as [Hret Hraise].
  destruct (decide (request_queue s = [])) as [Hq|Hq].
  { rewrite Hret in Heq by auto. congruence. }
  destruct (decide (filter (λ d, Driver.status (drv s d) = available) (drivers s) = []))
    as [Hidle|Hidle].
  { rewrite Hret in Heq by auto. congruence. }
  specialize (Hraise Hq Hidle). by rewrite Heq in Hraise.
Qed.

(** X9: [SimulationEngine._process_queue] returns exactly when there is nothing
    to assign: the queue is empty or no driver is available. It then leaves
    the state as it was. In every other state it raises [AttributeError]. *)
Theorem _process_queue_returns_iff (s : State) :
  let idle := filter (λ d, Driver.status (drv s d) = available) (drivers s) in
  ((SimulationEngine._process_queue s).2 = Ok tt
   ↔ request_queue s = [] ∨ idle = [])
  ∧ (request_queue s = [] ∨ idle = [] → SimulationEngine._process_queue s = (s, Ok tt))
  ∧ (request_queue s ≠ [] → idle ≠ [] →
     (SimulationEngine._process_queue s).2 = Raise AttributeError).
Proof.
  intros idle. destruct (_process_queue_cases s) as [Hret Hraise].
  fold idle in Hret, Hraise.
  split; [|done]. split.
  - intros Hok. destruct (decide (request_queue s = [])) as [?|Hq]; [by left|].
    destruct (decide (idle = [])) as [?|Hidle]; [by right|].
    rewrite (Hraise Hq Hidle) in Hok. done.
  - intros Hnone. by rewrite (Hret Hnone).
Qed.

End queue_step.

(** ** Adding a rider *)

Section add_rider.

Lemma engine_assign_effect (r d : nat) (s : State) :
  let s' := (SimulationEngine._assign_request_to_driver r d s).1 in
  (SimulationEngine._assign_request_to_driver r d s).2 = Ok tt
  ∧ req s' r
    = RideRequest.mk (RideRequest.id (req s r)) (RideRequest.rider_id (req s r))
        assigned (RideRequest.pickup_x (req s r)) (RideRequest.pickup_y (req s r))
        (RideRequest.dropoff_x (req s r)) (RideRequest.dropoff_y (req s r))
        (Some (Driver.id (drv s d)))
  ∧ (∀ r', r' ≠ r → req s' r' = req s r')
  ∧ drv s' d
    = Driver.mk (Driver.id (drv s d)) (Driver.x (drv s d)) (Driver.y (drv s d))
        on_trip (Driver.totalTrips (drv s d)) 0
        (Some (RideRequest.id (req s r))) (Some to_pickup)
        (Some (RideRequest.pickup_x (req s r)))
        (Some (RideRequest.pickup_y (req s r)))
  ∧ (∀ d', d' ≠ d → drv s' d' = drv s d')
  ∧ same_registries s s'
  ∧ request_queue s' = request_queue s.
Proof.
  unfold SimulationEngine._assign_request_to_driver, RequestService.assign_request.
  mrun. rewrite !fn_lookup_insert. cbn.
  split_and!; try done.
  - intros r' Hr'. by rewrite !fn_lookup_insert_ne.
  - intros d' Hd'. by rewrite fn_lookup_insert_ne.
Qed.

Lemma _try_assign_request_effect (r : nat) (s : State) :
  let idle := filter (λ d, Driver.status (drv s d) = available) (drivers s) in
  match ScoringService.find_best_driver (drv s) idle (req s r) with
  | Ok best =>
      best ∈ idle
      ∧ SimulationEngine._try_assign_request r s
        = ((SimulationEngine._assign_request_to_driver r best s).1, Ok true)
  | Raise _ => idle = [] ∧ SimulationEngine._try_assign_request r s = (s, Ok false)
  end.
Proof.
  intros idle.
  assert (SimulationEngine._try_assign_request r s
          = match idle with
            | [] => (s, Ok false)
            | _ =>
                match ScoringService.find_best_driver (drv s) idle (req s r) with
                | Ok best =>
                    (bind (SimulationEngine._assign_request_to_driver r best)
                       (λ _, ret true)) s
                | Raise ValueError => (s, Ok false)
                | Raise e => (s, Raise e)
                end
            end) as ->.
  { unfold SimulationEngine._try_assign_request.
    unfold bind at 1. unfold DriverService.get_available_drivers, gets at 1.
    cbn beta iota. change (filter _ (drivers s)) with idle.
    destruct idle as [|d0 ds]; [done|].
    unfold bind at 1. unfold gets at 1. cbn beta iota. unfold id.
    by destruct (ScoringService.find_best_driver _ _ _) as [best|[]]. }
  clearbody idle.
  destruct (find_best_driver_result (drv s) idle (req s r))
    as [[Hnil Hfind]|(best & Hbest & Hfind)]; rewrite Hfind.
  - by rewrite Hnil.
  - split; [done|]. destruct idle as [|d0 ds]; [by apply elem_of_nil in Hbest|].
    unfold bind, ret.
    destruct (engine_assign_effect r best s) as [Hok _].
    destruct (SimulationEngine._assign_request_to_driver r best s) as [s' res].
    simpl in Hok. by rewrite Hok.
Qed.

Lemma create_request_effect (rider : Rider.t) (s : State) :
  let s' := (RequestService.create_request rider s).1 in
  let request_id := "Request " +:+ pretty (S (request_counter s)) in
  (RequestService.create_request rider s).2 = Ok (next_req s)
  ∧ req s' (next_req s)
    = RideRequest.mk request_id (Rider.id rider) waiting
        (Rider.pickup_x rider) (Rider.pickup_y rider)
        (Rider.dropoff_x rider) (Rider.dropoff_y rider) None
  ∧ (∀ r', r' ≠ next_req s → req s' r' = req s r')
  ∧ requests s' = <[request_id := next_req s]> (requests s)
  ∧ request_counter s' = S (request_counter s)
  ∧ next_req s' = S (next_req s)
  ∧ drv s' = drv s ∧ next_drv s' = next_drv s
  ∧ drivers s' = drivers s ∧ driver_counter s' = driver_counter s
  ∧ riders s' = riders s ∧ rider_counter s' = rider_counter s
  ∧ request_queue s' = request_queue s.
Proof.
  unfold RequestService.create_request, RequestService.generate_request_id.
  mrun. rewrite fn_lookup_insert. split_and!; try done.
  intros r' Hr'. by rewrite fn_lookup_insert_ne.
Qed.

(** The part that [add_rider] and [create_request] of the engine share:
    the request is created, offered to the available drivers, and queued
    when none takes it. *)
Lemma place_request {A} (f : nat → A) (rider : Rider.t) (s s' : State)
    (out : result A) :
  (let* request := RequestService.create_request rider in
   let* ok := SimulationEngine._try_assign_request request in
   (if (ok : bool) then ret tt else QueueService.add_to_queue request) ;;;
   ret (f request)) s = (s', out) →
  let request := next_req s in
  let request_id := "Request " +:+ pretty (S (request_counter s)) in
  let idle := filter (λ d, Driver.status (drv s d) = available) (drivers s) in
  let fresh := RideRequest.mk request_id (Rider.id rider) waiting
                 (Rider.pickup_x rider) (Rider.pickup_y rider)
                 (Rider.dropoff_x rider) (Rider.dropoff_y rider) None in
  out = Ok (f request)
  ∧ requests s' = <[request_id := request]> (requests s)
  ∧ request_counter s' = S (request_counter s)
  ∧ next_req s' = S (next_req s)
  ∧ riders s' = riders s ∧ rider_counter s' = rider_counter s
  ∧ drivers s' = drivers s ∧ driver_counter s' = driver_counter s
  ∧ next_drv s' = next_drv s
  ∧ (∀ r', r' ≠ request → req s' r' = req s r')
  ∧ match ScoringService.find_best_driver (drv s) idle fresh with
    | Ok best =>
        best ∈ idle
        ∧ req s' request
          = RideRequest.mk request_id (Rider.id rider) assigned
              (Rider.pickup_x rider) (Rider.pickup_y rider)
              (Rider.dropoff_x rider) (Rider.dropoff_y rider)
              (Some (Driver.id (drv s best)))
        ∧ drv s' best
          = Driver.mk (Driver.id (drv s best)) (Driver.x (drv s best))
              (Driver.y (drv s best)) on_trip (Driver.totalTrips (drv s best)) 0
              (Some request_id) (Some to_pickup)
              (Some (Rider.pickup_x rider)) (Some (Rider.pickup_y rider))
        ∧ (∀ d, d ≠ best → drv s' d = drv s d)
        ∧ request_queue s' = request_queue s
    | Raise _ =>
        idle = []
        ∧ req s' request = fresh
        ∧ drv s' = drv s
        ∧ request_queue s' = request_queue s ++ [request]
    end.
Proof.
  intros Heq request request_id idle fresh. subst request.
  unfold bind at 1 in Heq.
  destruct (create_request_effect rider s)
    as (Hok & Hreq & Hreq' & Hrequests & Hrc & Hnr & Hdrv & Hnd & Hdrivers & Hdc
        & Hriders & Hric & Hqueue).
  destruct (RequestService.create_request rider s) as [s1 out1].
  cbn [fst snd] in *. subst out1.
  pose proof (_try_assign_request_effect (next_req s) s1) as Htry.
  cbn zeta in Htry. rewrite Hdrv, Hdrivers, Hreq in Htry.
  fold request_id fresh idle in Htry, Hreq.
  unfold bind at 1 in Heq.
  destruct (ScoringService.find_best_driver (drv s) idle fresh) as [best|e].
  - destruct Htry as [Hbest Htry]. rewrite Htry in Heq.
    pose proof (engine_assign_effect (next_req s) best s1) as Heff.
    cbn zeta in Heff.
    destruct (SimulationEngine._assign_request_to_driver (next_req s) best s1)
      as [s2 out2].
    cbn [fst snd] in Heff, Heq.
    destruct Heff as (_ & Hr & Hr' & Hd & Hd' & Hsame & Hq).
    injection Heq as <- <-.
    destruct Hsame as (Hs1 & Hs2 & Hs3 & Hs4 & Hs5 & Hs6 & Hs7 & Hs8).
    rewrite Hreq in Hr, Hd. unfold fresh in Hr, Hd. simpl in Hr, Hd.
    rewrite Hdrv in Hr, Hd.
    split_and!; try congruence.
    + by rewrite Hs5, Hrequests.
    + intros r' Hne. rewrite Hr' by done. by apply Hreq'.
    + intros d Hne. rewrite Hd' by done. by rewrite Hdrv.
  - destruct Htry as [Hnil Htry]. rewrite Htry in Heq.
    cbn in Heq. injection Heq as <- <-. cbn.
    split_and!; try congruence; try done.
Qed.

(** X10: [SimulationEngine.add_rider] with both positions on the grid never
    rejects the rider: it returns the new rider and the new request, whose
    ids are numbered by the two counters, and registers both. When some
    driver is available the request is assigned to the driver that
    [find_best_driver] picks among the available ones: that driver goes on
    trip towards the pickup with its idle ticks reset, no other driver is
    touched and the queue stays as it was. When no driver is available the
    request stays waiting and is appended to the end of the queue. *)
Theorem add_rider_never_rejects (px py dx dy : Z) (s : State) :
  0 ≤ px < DEFAULT_GRID_WIDTH ∧ 0 ≤ py < DEFAULT_GRID_HEIGHT →
  0 ≤ dx < DEFAULT_GRID_WIDTH ∧ 0 ≤ dy < DEFAULT_GRID_HEIGHT →
  let rider_id := "Rider " +:+ pretty (S (rider_counter s)) in
  let request_id := "Request " +:+ pretty (S (request_counter s)) in
  let rider := Rider.mk rider_id px py dx dy in
  let request := next_req s in
  let idle := filter (λ d, Driver.status (drv s d) = available) (drivers s) in
  let s' := (SimulationEngine.add_rider px py dx dy s).1 in
  (SimulationEngine.add_rider px py dx dy s).2 = Ok (rider, request)
  ∧ riders s' = <[rider_id := rider]> (riders s)
  ∧ requests s' = <[request_id := request]> (requests s)
  ∧ drivers s' = drivers s
  ∧ (∀ r', r' ≠ request → req s' r' = req s r')
  ∧ match ScoringService.find_best_driver (drv s) idle
            (RideRequest.mk request_id rider_id waiting px py dx dy None) with
    | Ok best =>
        best ∈ idle
        ∧ req s' request
          = RideRequest.mk request_id rider_id assigned px py dx dy
              (Some (Driver.id (drv s best)))
        ∧ drv s' best
          = Driver.mk (Driver.id (drv s best)) (Driver.x (drv s best))
              (Driver.y (drv s best)) on_trip (Driver.totalTrips (drv s best)) 0
              (Some request_id) (Some to_pickup) (Some px) (Some py)
        ∧ (∀ d, d ≠ best → drv s' d = drv s d)
        ∧ request_queue s' = request_queue s
    | Raise _ =>
        idle = []
        ∧ req s' request
          = RideRequest.mk request_id rider_id waiting px py dx dy None
        ∧ drv s' = drv s
        ∧ request_queue s' = request_queue s ++ [request]
    end.
Proof.
  intros Hp Hd rider_id request_id rider request idle s'. subst s'.
  destruct (SimulationEngine.add_rider px py dx dy s) as [s' out] eqn:Heq.
  cbn [fst snd]. unfold SimulationEngine.add_rider in Heq.
  unfold bind at 1 in Heq.
  assert (RiderService.add_rider px py dx dy s
          = (set_riders (<[rider_id := rider]> (riders s))
               (set_rider_counter (S (rider_counter s)) s), Ok rider)) as Hadd.
  { unfold RiderService.add_rider, RiderService._is_valid_position.
    by rewrite !bool_decide_eq_true_2 by done. }
  rewrite Hadd in Heq.
  apply (place_request (λ r, (rider, r))) in Heq. cbn zeta in Heq.
  destruct Heq as (-> & Hrequests & _ & _ & Hriders & _ & Hdrivers & _ & _ & Hreq
                   & Hcase).
  split_and!; try done.
Qed.

Lemma add_rider_never_rejects_witness :
  let s := run [op_add_driver 3 4] SimulationEngine.initial in
  (SimulationEngine.add_rider 1 1 5 5 s).2
  = Ok (Rider.mk "Rider 1" 1 1 5 5, 0%nat)
  ∧ Driver.status (drv (SimulationEngine.add_rider 1 1 5 5 s).1 0%nat) = on_trip
  ∧ request_queue (SimulationEngine.add_rider 1 1 5 5 s).1 = [].
Proof.
  intros s.
  assert (0 ≤ 1 < DEFAULT_GRID_WIDTH ∧ 0 ≤ 1 < DEFAULT_GRID_HEIGHT) as Hp
    by (unfold DEFAULT_GRID_WIDTH, DEFAULT_GRID_HEIGHT; lia).
  assert (0 ≤ 5 < DEFAULT_GRID_WIDTH ∧ 0 ≤ 5 < DEFAULT_GRID_HEIGHT) as Hd
    by (unfold DEFAULT_GRID_WIDTH, DEFAULT_GRID_HEIGHT; lia).
  destruct (add_rider_never_rejects 1 1 5 5 s Hp Hd)
    as (Hout & _ & _ & _ & _ & Hcase).
  split; [exact Hout|].
  vm_compute. done.
Defined.

End add_rider.

(** ** The fleet invariant *)

Section fleet.

Lemma drv_id_inj (n m : nat) : drv_id n = drv_id m → n = m.
Proof.
  unfold drv_id. intros H. apply (inj _) in H. by apply (inj pretty) in H.
Qed.

Lemma fleet_invariant_view (s s' : State) :
  fleet_view s' = fleet_view s → fleet_invariant s → fleet_invariant s'.
Proof.
  unfold fleet_view. intros [= Hdrv Hl Hc Hn] [Hshape Hids Huniq [Hnd Hlt]].
  split; [| | |split]; rewrite ?Hdrv, ?Hl, ?Hc, ?Hn; done.
Qed.

Lemma fleet_invariant_step (s s' : State) :
  drivers s' = drivers s → driver_counter s' = driver_counter s →
  next_drv s' = next_drv s →
  (∀ d, d ∈ drivers s →
     Driver.id (drv s' d) = Driver.id (drv s d)
     ∧ (driver_shape (drv s d) → driver_shape (drv s' d))) →
  fleet_invariant s → fleet_invariant s'.
Proof.
  intros Hl Hc Hn Hd [Hshape Hids Huniq [Hnd Hlt]].
  split; [| | |split]; rewrite ?Hl, ?Hc, ?Hn; try done.
  - intros d Hin. by apply Hd, Hshape.
  - intros d Hin. destruct (Hd d Hin) as [-> _]. by apply Hids.
  - intros d1 d2 H1 H2. destruct (Hd d1 H1) as [-> _]. destruct (Hd d2 H2) as [-> _].
    by apply Huniq.
Qed.

Lemma fleet_invariant_write (s : State) (b : nat) (v : Driver.t) :
  Driver.id v = Driver.id (drv s b) →
  (driver_shape (drv s b) → driver_shape v) →
  fleet_invariant s → fleet_invariant (set_drv (<[b := v]> (drv s)) s).
Proof.
  intros Hid Hshape. apply fleet_invariant_step; try done.
  intros d _. simpl. destruct (decide (d = b)) as [->|Hne].
  - by rewrite fn_lookup_insert.
  - by rewrite fn_lookup_insert_ne.
Qed.

Let untouched (F : (nat → Driver.t) * list nat * nat * nat) (s : State) : Prop :=
  fleet_view s = F.

Lemma triple_fleet_untouched {A} (m : M A) :
  (∀ F, triple (untouched F) m (λ _, untouched F) (λ _, untouched F)) →
  triple fleet_invariant m (λ _, fleet_invariant) (λ _, fleet_invariant).
Proof.
  intros Hm. apply triple_total. intros s Hs.
  apply fleet_invariant_view with (s := s); [|done].
  by apply (triple_final _ _ m s (Hm (fleet_view s))).
Qed.

Lemma triple_fleet_untouched_returns {A} (m : M A) E :
  (∀ F, triple (untouched F) m (λ _, untouched F) (λ _ _, False)) →
  triple fleet_invariant m (λ _, fleet_invariant) E.
Proof.
  intros Hm s Hs. specialize (Hm (fleet_view s) s eq_refl).
  destruct (m s) as [s' [a|e]]; [|done].
  by apply fleet_invariant_view with (s := s).
Qed.

Lemma untouched_complete_request F (r : nat) E :
  triple (untouched F) (RequestService.complete_request r)
    (λ _, untouched F) E.
Proof. by intros s Hs. Qed.

Lemma untouched_assign_request F (r : nat) (a : pyarg) :
  triple (untouched F) (RequestService.assign_request r a)
    (λ _, untouched F) (λ _, untouched F).
Proof. intros s Hs. by destruct a. Qed.

Lemma untouched_remove_from_queue F (r : nat) E :
  triple (untouched F) (QueueService.remove_from_queue r)
    (λ _, untouched F) E.
Proof. by intros s Hs. Qed.

Lemma untouched_remove_rider F (rider_id : string) E :
  triple (untouched F) (SimulationEngine.remove_rider rider_id)
    (λ _, untouched F) E.
Proof.
  unfold SimulationEngine.remove_rider.
  apply triple_bind with (R := λ _, untouched F); [by intros s Hs|].
  intros _. apply triple_bind with (R := λ _, untouched F); [by apply triple_gets|].
  intros queued. apply triple_bind with (R := λ _, untouched F).
  - apply triple_for_each. intros r _.
    apply triple_bind with (R := λ _, untouched F); [by apply triple_gets|].
    intros rq. destruct (decide _); [apply untouched_remove_from_queue|by apply triple_ret].
  - intros _. unfold RiderService.remove_rider.
    apply triple_bind with (R := λ _, untouched F); [by apply triple_gets|].
    intros m. destruct (m !! rider_id); [|by apply triple_ret].
    apply triple_bind with (R := λ _, untouched F); [by intros s Hs|].
    intros _. by apply triple_ret.
Qed.

Lemma untouched_stamp F (l : list nat) :
  triple (untouched F)
    (for_each l (λ request,
       let* r := read_req request in
       RequestService.assign_request request
         match RideRequest.assigned_driver_id r with
         | Some driver_id => AStr driver_id
         | None => ANone
         end))
    (λ _, untouched F) (λ _, untouched F).
Proof.
  apply triple_for_each. intros r _.
  apply triple_bind with (R := λ _, untouched F); [by apply triple_gets|].
  intros rq. apply untouched_assign_request.
Qed.

Lemma fleet_queue_assign (q b : nat) E :
  triple fleet_invariant (QueueService._assign_request_to_driver q b)
    (λ _, fleet_invariant) E.
Proof.
  intros s Hs. unfold QueueService._assign_request_to_driver. mrun.
  apply fleet_invariant_step with (s := s); try done.
  intros d _. simpl. destruct (decide (d = b)) as [->|Hne].
  - rewrite fn_lookup_insert. split; [done|].
    unfold driver_shape. simpl. intros [_ Htrips]. by repeat split.
  - by rewrite fn_lookup_insert_ne.
Qed.

Lemma fleet_engine_assign (q b : nat) E :
  triple fleet_invariant (SimulationEngine._assign_request_to_driver q b)
    (λ _, fleet_invariant) E.
Proof.
  intros s Hs.
  unfold SimulationEngine._assign_request_to_driver, RequestService.assign_request.
  mrun.
  apply fleet_invariant_step with (s := s); try done.
  intros d _. simpl. destruct (decide (d = b)) as [->|Hne].
  - rewrite fn_lookup_insert. split; [done|].
    unfold driver_shape. simpl. intros [_ Htrips]. by repeat split.
  - by rewrite fn_lookup_insert_ne.
Qed.

Lemma fleet_move_driver_one_step (b : nat) E :
  triple fleet_invariant (DriverService.move_driver_one_step b)
    (λ _, fleet_invariant) E.
Proof.
  intros s Hs. unfold DriverService.move_driver_one_step. mrun.
  destruct (Driver.targetX (drv s b)) as [tx|] eqn:Hx; [|done].
  destruct (Driver.targetY (drv s b)) as [ty|] eqn:Hy; [|done].
  mrun. apply fleet_invariant_write; [done| |done].
  unfold driver_shape. simpl. by rewrite Hx, Hy.
Qed.

Lemma fleet_complete_trip (b : nat) E :
  triple fleet_invariant (DriverService.complete_trip b)
    (λ _, fleet_invariant) E.
Proof.
  intros s Hs. unfold DriverService.complete_trip. mrun.
  apply fleet_invariant_write; [done| |done].
  unfold driver_shape. simpl. intros [_ Htrips]. split; [done|lia].
Qed.

Lemma fleet_process_loop (queue_copy remaining processed : list nat) :
  triple fleet_invariant (QueueService.process_loop queue_copy remaining processed)
    (λ _, fleet_invariant) (λ _ _, False).
Proof.
  revert remaining processed.
  induction queue_copy as [|q rest IH]; intros remaining processed.
  - by apply triple_ret.
  - destruct remaining as [|d0 ds]; [by apply triple_ret|].
    cbn [QueueService.process_loop].
    apply triple_bind with (R := λ _, fleet_invariant); [by apply triple_gets|].
    intros s0.
    destruct (find_best_driver_result (drv s0) (d0 :: ds) (req s0 q))
      as [[? _]|(best & _ & Hfind)]; [done|].
    rewrite Hfind.
    apply triple_bind with (R := λ _, fleet_invariant); [apply fleet_queue_assign|].
    intros _. apply triple_bind with (R := λ _, fleet_invariant); [by apply triple_gets|].
    intros s1. apply IH.
Qed.

Lemma fleet_process_queue (available_drivers : list nat) :
  triple fleet_invariant (QueueService.process_queue available_drivers)
    (λ _, fleet_invariant) (λ _ _, False).
Proof.
  unfold QueueService.process_queue.
  destruct available_drivers as [|d0 ds]; [by apply triple_ret|].
  apply triple_bind with (R := λ _, fleet_invariant); [by apply triple_gets|].
  intros [|]; [by apply triple_ret|].
  apply triple_bind with (R := λ _, fleet_invariant); [by apply triple_gets|].
  intros queue_copy.
  apply triple_bind with (R := λ _, fleet_invariant); [apply fleet_process_loop|].
  intros processed. apply triple_bind with (R := λ _, fleet_invariant).
  - apply triple_for_each. intros r _ s Hs.
    by apply fleet_invariant_view with (s := s).
  - intros _. by apply triple_ret.
Qed.

Lemma fleet__process_queue :
  triple fleet_invariant SimulationEngine._process_queue
    (λ _, fleet_invariant) (λ _, fleet_invariant).
Proof.
  unfold SimulationEngine._process_queue.
  apply triple_bind with (R := λ _, fleet_invariant); [by apply triple_gets|].
  intros pool. apply triple_bind with (R := λ _, fleet_invariant).
  - eapply triple_conseq; [apply fleet_process_queue|..]; done.
  - intros processed.
    apply (triple_fleet_untouched _ (λ F, untouched_stamp F processed)).
Qed.

Lemma fleet__try_assign_request (q : nat) :
  triple fleet_invariant (SimulationEngine._try_assign_request q)
    (λ _, fleet_invariant) (λ _ _, False).
Proof.
  unfold SimulationEngine._try_assign_request.
  apply triple_bind with (R := λ _, fleet_invariant); [by apply triple_gets|].
  intros [|d0 ds]; [by apply triple_ret|].
  apply triple_bind with (R := λ _, fleet_invariant); [by apply triple_gets|].
  intros s0.
  destruct (find_best_driver_result (drv s0) (d0 :: ds) (req s0 q))
    as [[? _]|(best & _ & Hfind)]; [done|].
  rewrite Hfind.
  apply triple_bind with (R := λ _, fleet_invariant); [apply fleet_engine_assign|].
  intros _. by apply triple_ret.
Qed.

Lemma fleet_place {A} (q : nat) (a : A) :
  triple fleet_invariant
    (let* ok := SimulationEngine._try_assign_request q in
     (if (ok : bool) then ret tt else QueueService.add_to_queue q) ;;;
     ret a)
    (λ _, fleet_invariant) (λ _, fleet_invariant).
Proof.
  apply triple_bind with (R := λ _, fleet_invariant).
  { eapply triple_conseq; [apply fleet__try_assign_request|..]; done. }
  intros ok. apply triple_bind with (R := λ _, fleet_invariant).
  - destruct ok; [by apply triple_ret|].
    intros s Hs. by apply fleet_invariant_view with (s := s).
  - intros _. by apply triple_ret.
Qed.

Lemma fleet_add_rider (px py dx dy : Z) :
  triple fleet_invariant (SimulationEngine.add_rider px py dx dy)
    (λ _, fleet_invariant) (λ _, fleet_invariant).
Proof.
  unfold SimulationEngine.add_rider.
  apply triple_bind with (R := λ _, fleet_invariant).
  { intros s Hs. unfold RiderService.add_rider.
    destruct (RiderService._is_valid_position px py); [|done].
    destruct (RiderService._is_valid_position dx dy); [|done].
    by apply fleet_invariant_view with (s := s). }
  intros rider. apply triple_bind with (R := λ _, fleet_invariant).
  { intros s Hs. by apply fleet_invariant_view with (s := s). }
  intros q. apply fleet_place.
Qed.

Lemma fleet_create_request (rider_id : string) :
  triple fleet_invariant (SimulationEngine.create_request rider_id)
    (λ _, fleet_invariant) (λ _, fleet_invariant).
Proof.
  unfold SimulationEngine.create_request.
  apply triple_bind with (R := λ _, fleet_invariant); [by apply triple_gets|].
  intros [rider|]; [|by apply triple_ret].
  apply triple_bind with (R := λ _, fleet_invariant).
  { intros s Hs. by apply fleet_invariant_view with (s := s). }
  intros q. apply fleet_place.
Qed.

Lemma fleet__complete_trip (b r : nat) E :
  triple fleet_invariant SimulationEngine._process_queue (λ _, fleet_invariant) E →
  triple fleet_invariant (SimulationEngine._complete_trip b r)
    (λ _, fleet_invariant) E.
Proof.
  intros HE. unfold SimulationEngine._complete_trip.
  apply triple_bind with (R := λ _, fleet_invariant).
  { apply triple_fleet_untouched_returns. intros F.
    apply untouched_complete_request. }
  intros _. apply triple_bind with (R := λ _, fleet_invariant);
    [apply fleet_complete_trip|].
  intros _. apply triple_bind with (R := λ _, fleet_invariant); [by apply triple_gets|].
  intros rq. apply triple_bind with (R := λ _, fleet_invariant).
  - apply triple_fleet_untouched_returns. intros F. apply untouched_remove_rider.
  - intros _. apply HE.
Qed.

Lemma fleet__move_driver_one_step (b : nat) E :
  triple fleet_invariant SimulationEngine._process_queue (λ _, fleet_invariant) E →
  triple fleet_invariant (SimulationEngine._move_driver_one_step b)
    (λ _, fleet_invariant) E.
Proof.
  intros HE. unfold SimulationEngine._move_driver_one_step.
  apply triple_bind with (R := λ _, fleet_invariant);
    [apply fleet_move_driver_one_step|].
  intros _.
  apply triple_bind with (R := λ dv s, fleet_invariant s ∧ dv = drv s b);
    [by apply triple_gets|].
  intros dv.
  destruct (Driver.targetX dv) as [tx|] eqn:Hx; [|apply triple_ret; by intros s [? ?]].
  destruct (Driver.targetY dv) as [ty|] eqn:Hy; [|apply triple_ret; by intros s [? ?]].
  destruct (decide _); [|apply triple_ret; by intros s [? ?]].
  apply triple_bind with (R := λ _ s, fleet_invariant s ∧ dv = drv s b);
    [by apply triple_gets|].
  intros [r|]; [|apply triple_ret; by intros s [? ?]].
  destruct (Driver.tripPhase dv) as [[|]|] eqn:Hphase.
  - apply triple_bind with (R := λ _ s, fleet_invariant s ∧ dv = drv s b);
      [by apply triple_gets|].
    intros rq. apply triple_modify. intros s [Hs ->].
    apply fleet_invariant_write; [done| |done].
    unfold driver_shape. simpl. rewrite Hphase, Hx, Hy.
    destruct (Driver.status (drv s b)); intros [Hsh Ht].
    + by destruct Hsh as (_ & [=] & _).
    + destruct Hsh as (? & _ & _ & _ & ?). by repeat split.
    + done.
  - eapply triple_conseq; [by apply fleet__complete_trip|..]; simpl; [|done|done].
    by intros s [? ?].
  - apply triple_ret. by intros s [? ?].
Qed.

Lemma fleet_increment_loop (l : list nat) E :
  triple
    (λ s, fleet_invariant s ∧ ∀ b, b ∈ l → Driver.status (drv s b) = available)
    (for_each l DriverService.increment_idle_ticks)
    (λ _, fleet_invariant) E.
Proof.
  eapply triple_conseq with
    (Q' := λ _ s, fleet_invariant s ∧ ∀ b, b ∈ l → Driver.status (drv s b) = available)
    (E' := E); [apply triple_for_each|..]; [|done|by intros _ s [? _]|done].
  intros a Ha s [Hs Hidle]. unfold DriverService.increment_idle_ticks. mrun. split.
  - apply fleet_invariant_write; [done| |done].
    unfold driver_shape. simpl. rewrite (Hidle a Ha).
    intros [(? & ? & ? & ? & ?) ?]. split_and!; try done. lia.
  - intros b Hb. simpl. destruct (decide (b = a)) as [->|Hne].
    + rewrite fn_lookup_insert. simpl. by apply Hidle.
    + rewrite fn_lookup_insert_ne by done. by apply Hidle.
Qed.

Lemma fleet_advance_tick :
  triple fleet_invariant SimulationEngine.advance_tick
    (λ _, fleet_invariant) (λ _, fleet_invariant).
Proof.
  unfold SimulationEngine.advance_tick.
  apply triple_bind with (R := λ _, fleet_invariant); [by apply triple_gets|].
  intros busy. apply triple_bind with (R := λ _, fleet_invariant).
  { apply triple_for_each. intros b _.
    apply fleet__move_driver_one_step, fleet__process_queue. }
  intros _.
  apply triple_bind with
    (R := λ idle s, fleet_invariant s
                    ∧ ∀ b, b ∈ idle → Driver.status (drv s b) = available).
  { apply triple_gets. intros s Hs. split; [done|].
    intros b Hb. by apply list_elem_of_filter in Hb as [? _]. }
  intros idle. apply triple_bind with (R := λ _, fleet_invariant);
    [apply fleet_increment_loop|].
  intros _. apply fleet__process_queue.
Qed.

Lemma fleet_service_add_driver (x y : Z) :
  triple fleet_invariant (DriverService.add_driver x y)
    (λ _, fleet_invariant) (λ _ _, True).
Proof.
  intros s [Hshape Hids Huniq [Hnd Hlt]]. unfold DriverService.add_driver.
  destruct (bool_decide _); [|done].
  unfold DriverService.generate_driver_id. mrun.
  assert (∀ d, d ∈ drivers s → next_drv s ≠ d) as Hold.
  { intros d Hd <-. specialize (Hlt _ Hd). lia. }
  fold (drv_id (S (driver_counter s))).
  split; simpl.
  - intros d [Hd| ->%list_elem_of_singleton]%elem_of_app.
    + rewrite fn_lookup_insert_ne by auto. by apply Hshape.
    + rewrite fn_lookup_insert. by repeat split.
  - intros d [Hd| ->%list_elem_of_singleton]%elem_of_app.
    + rewrite fn_lookup_insert_ne by auto.
      destruct (Hids d Hd) as (n & Hn & Hid). exists n. split; [lia|done].
    + rewrite fn_lookup_insert. exists (S (driver_counter s)). split; [lia|done].
  - assert (∀ d, d ∈ drivers s →
            Driver.id (drv s d) ≠ drv_id (S (driver_counter s))) as Hfresh.
    { intros d Hd Heq. destruct (Hids d Hd) as (n & Hn & Hid).
      rewrite Hid in Heq. apply drv_id_inj in Heq. lia. }
    intros d1 d2 [H1| ->%list_elem_of_singleton]%elem_of_app
      [H2| ->%list_elem_of_singleton]%elem_of_app;
      rewrite ?fn_lookup_insert, ?fn_lookup_insert_ne by auto; simpl.
    + by apply Huniq.
    + intros Heq. by apply Hfresh in Heq.
    + intros Heq. symmetry in Heq. by apply Hfresh in Heq.
    + done.
  - split; simpl.
    + apply list.NoDup_app. split_and!; [done| |apply list.NoDup_singleton].
      intros d Hd ->%list_elem_of_singleton. by apply (Hold _ Hd).
    + intros d [Hd| ->%list_elem_of_singleton]%elem_of_app; [|lia].
      specialize (Hlt _ Hd). lia.
Qed.

Lemma add_driver_out_of_bounds_same (x y : Z) (s : State) :
  match DriverService.add_driver x y s with
  | (s', Ok _) => True
  | (s', Raise _) => s' = s
  end.
Proof. unfold DriverService.add_driver. by destruct (bool_decide _). Qed.

Lemma fleet_add_driver (x y : Z) :
  triple fleet_invariant (SimulationEngine.add_driver x y)
    (λ _, fleet_invariant) (λ _, fleet_invariant).
Proof.
  unfold SimulationEngine.add_driver.
  apply triple_bind with (R := λ _, fleet_invariant).
  - intros s Hs. pose proof (fleet_service_add_driver x y s Hs) as H.
    pose proof (add_driver_out_of_bounds_same x y s) as H'.
    destruct (DriverService.add_driver x y s) as [s' [d|e]]; [done|by subst].
  - intros d. apply triple_bind with (R := λ _, fleet_invariant).
    + apply fleet__process_queue.
    + intros _. by apply triple_ret.
Qed.

Lemma fleet_remove_driver (driver_id : string) :
  triple fleet_invariant (SimulationEngine.remove_driver driver_id)
    (λ _, fleet_invariant) (λ _, fleet_invariant).
Proof.
  intros s [Hshape Hids Huniq [Hnd Hlt]].
  unfold SimulationEngine.remove_driver, DriverService.remove_driver. mrun.
  destruct (DriverService.remove_first_with_id _ _ _) as [l|] eqn:Hl; [|done].
  assert (∀ d, d ∈ l → d ∈ drivers s) as Hsub.
  { intros d Hd. by eapply elem_of_remove_first_with_id. }
  split; [| | |split]; simpl; auto.
  by eapply remove_first_with_id_nodup.
Qed.

Lemma fleet_reset :
  triple fleet_invariant SimulationEngine.reset
    (λ _, fleet_invariant) (λ _, fleet_invariant).
Proof.
  intros s _. unfold SimulationEngine.reset, DriverService.clear_drivers,
    RiderService.clear_riders, RequestService.clear_requests,
    QueueService.clear_queue. mrun.
  split; [| | |split]; simpl; try (intros d Hd; by apply elem_of_nil in Hd).
  - intros d1 d2 Hd. by apply elem_of_nil in Hd.
  - apply NoDup_nil_2.
Qed.

Lemma fleet_invariant_perform (o : operation) (s : State) :
  fleet_invariant s → fleet_invariant (perform o s).
Proof.
  intros Hs. destruct o; unfold perform.
  - by apply (triple_final _ _ _ s (fleet_add_driver x y)).
  - by apply (triple_final _ _ _ s (fleet_remove_driver driver_id)).
  - by apply (triple_final _ _ _ s (fleet_add_rider pickup_x pickup_y dropoff_x dropoff_y)).
  - by apply (triple_final _ _ _ s
                (triple_fleet_untouched _ (λ F, untouched_remove_rider F rider_id _))).
  - by apply (triple_final _ _ _ s (fleet_create_request rider_id)).
  - by apply (triple_final _ _ _ s fleet_advance_tick).
  - by apply (triple_final _ _ _ s fleet_reset).
Qed.

Lemma reachable_fleet_invariant (s : State) : reachable s → fleet_invariant s.
Proof.
  induction 1 as [|s o _ IH]; [|by apply fleet_invariant_perform].
  split; [| | |split]; simpl; try (intros d Hd; by apply elem_of_nil in Hd).
  - intros d1 d2 Hd. by apply elem_of_nil in Hd.
  - apply NoDup_nil_2.
Qed.

End fleet.

(** ** What holds of the fleet in every reachable state *)

Section fleet_reachable.

(** X11: In every state that a sequence of public operations reaches, each
    driver of the driver list is available or on a trip, never offline. An
    available driver has no assigned request, no trip phase and no target,
    and its idle ticks are not negative. A driver on a trip has an assigned
    request, a trip phase and both target coordinates, and its idle ticks
    are 0. The trip count is never negative. *)
Theorem reachable_driver_shape (s : State) (d : nat) :
  reachable s → d ∈ drivers s → driver_shape (drv s d).
Proof. intros Hs. by apply fleet_shape, reachable_fleet_invariant. Qed.

Lemma reachable_driver_shape_witness :
  driver_shape
    (drv (run [op_add_driver 3 4; op_add_rider 1 1 5 5] SimulationEngine.initial)
       0%nat).
Proof.
  apply (reachable_driver_shape
           (run [op_add_driver 3 4; op_add_rider 1 1 5 5] SimulationEngine.initial)
           0%nat).
  - apply reachable_run. constructor.
  - vm_compute. left.
Defined.

Lemma first_with_id_none (f : nat → Driver.t) (k : string) (l : list nat) :
  (∀ d, d ∈ l → Driver.id (f d) ≠ k) → DriverService.first_with_id f k l = None.
Proof.
  induction l as [|a l IH]; intros Hl; [done|]. simpl.
  rewrite decide_False by (apply Hl; left).
  apply IH. intros d Hd. apply Hl. by right.
Qed.

(** X12: In every reachable state the drivers of the driver list have pairwise
    different ids, so that [remove_driver] leaves no driver with the removed
    id behind: [get_driver] with that id returns [None] afterwards. *)
Theorem removed_driver_is_gone (s : State) (driver_id : string) :
  reachable s →
  (∀ d1 d2, d1 ∈ drivers s → d2 ∈ drivers s →
     Driver.id (drv s d1) = Driver.id (drv s d2) → d1 = d2)
  ∧ (SimulationEngine.get_driver driver_id
       (SimulationEngine.remove_driver driver_id s).1).2 = Ok None.
Proof.
  intros [Hshape Hids Huniq [Hnd Hlt]]%reachable_fleet_invariant.
  split; [done|].
  unfold SimulationEngine.get_driver, DriverService.get_driver,
    SimulationEngine.remove_driver, DriverService.remove_driver. mrun.
  pose proof (remove_first_with_id_spec (drv s) driver_id (drivers s)) as Hspec.
  destruct (DriverService.first_with_id (drv s) driver_id (drivers s)) as [d|] eqn:Hfirst.
  - destruct Hspec as (l1 & l2 & Hl & Hd & Hl1 & ->). cbn. f_equal.
    apply first_with_id_none.
    intros d' [H1|H2]%elem_of_app; [by apply Hl1|].
    intros Hid. rewrite Hl in Hnd, Huniq.
    assert (d' = d) as ->.
    { apply Huniq; [set_solver|set_solver|congruence]. }
    apply list.NoDup_app in Hnd as (_ & _ & [Hnot _]%list.NoDup_cons). done.
  - destruct Hspec as [-> Hl]. cbn. f_equal. by apply first_with_id_none.
Qed.

Lemma removed_driver_is_gone_witness :
  (SimulationEngine.get_driver "Driver 1"
     (SimulationEngine.remove_driver "Driver 1"
        (run [op_add_driver 3 4; op_add_driver 5 5] SimulationEngine.initial)).1).2
  = Ok None.
Proof.
  apply (removed_driver_is_gone
           (run [op_add_driver 3 4; op_add_driver 5 5] SimulationEngine.initial)
           "Driver 1").
  apply reachable_run. constructor.
Defined.

(** X13: In every reachable state [get_stats] reports as many active drivers as
    drivers: no driver of the list is ever offline. *)
Theorem reachable_all_drivers_active (s : State) :
  reachable s →
  SimulationStats.activeDrivers (SimulationEngine.get_stats s)
  = SimulationStats.totalDrivers (SimulationEngine.get_stats s).
Proof.
  intros Hs. unfold SimulationEngine.get_stats. simpl.
  rewrite filter_all; [done|].
  intros d Hd Hoff.
  pose proof (fleet_shape s (reachable_fleet_invariant s Hs) d Hd) as [Hshape _].
  by rewrite Hoff in Hshape.
Qed.

Lemma reachable_all_drivers_active_witness :
  SimulationStats.activeDrivers
    (SimulationEngine.get_stats
       (run [op_add_driver 3 4; op_add_rider 1 1 5 5; op_add_driver 0 0]
          SimulationEngine.initial))
  = 2%nat.
Proof.
  rewrite (reachable_all_drivers_active
             (run [op_add_driver 3 4; op_add_rider 1 1 5 5; op_add_driver 0 0]
                SimulationEngine.initial)).
  - vm_compute. reflexivity.
  - apply reachable_run. constructor.
Defined.

End fleet_reachable.

(** ** No rider waits while a driver is idle *)

Section conserving.

Lemma triple_and {A} (P : State → Prop) (m : M A)
    (Q Q' : A → State → Prop) (E E' : exn → State → Prop) :
  triple P m Q E → triple P m Q' E' →
  triple P m (λ a s, Q a s ∧ Q' a s) (λ e s, E e s ∧ E' e s).
Proof.
  intros H H' s Hs. specialize (H s Hs). specialize (H' s Hs).
  by destruct (m s) as [s' [a|e]].
Qed.

Lemma work_conserving_view (s s' : State) :
  drv s' = drv s → drivers s' = drivers s → request_queue s' = request_queue s →
  work_conserving s → work_conserving s'.
Proof. unfold work_conserving. by intros -> -> ->. Qed.

Lemma no_idle_driver (s : State) :
  filter (λ d, Driver.status (drv s d) = available) (drivers s) = [] →
  ∀ d, d ∈ drivers s → Driver.status (drv s d) ≠ available.
Proof.
  intros Hnil d Hd Hidle.
  assert (d ∈ filter (λ d, Driver.status (drv s d) = available) (drivers s)) as Hin
    by (by apply list_elem_of_filter).
  rewrite Hnil in Hin. by apply elem_of_nil in Hin.
Qed.

Lemma queue_assign_status (q b : nat) (s : State) :
  Driver.status (drv (QueueService._assign_request_to_driver q b s).1 b) = on_trip
  ∧ (∀ d, d ≠ b → drv (QueueService._assign_request_to_driver q b s).1 d = drv s d)
  ∧ drivers (QueueService._assign_request_to_driver q b s).1 = drivers s
  ∧ request_queue (QueueService._assign_request_to_driver q b s).1 = request_queue s.
Proof.
  unfold QueueService._assign_request_to_driver. mrun.
  rewrite fn_lookup_insert. split_and!; try done.
  intros d Hne. by rewrite fn_lookup_insert_ne.
Qed.

Lemma process_loop_drains (l0 q0 : list nat) (id0 : nat → string)
    (queue_copy remaining processed : list nat) :
  (∀ d1 d2, d1 ∈ l0 → d2 ∈ l0 → id0 d1 = id0 d2 → d1 = d2) →
  triple
    (λ s, drivers s = l0 ∧ request_queue s = q0
          ∧ (∀ d, Driver.id (drv s d) = id0 d)
          ∧ (∀ d, d ∈ remaining → d ∈ l0)
          ∧ (∀ d, d ∈ l0 → Driver.status (drv s d) = available → d ∈ remaining))
    (QueueService.process_loop queue_copy remaining processed)
    (λ res s, drivers s = l0 ∧ request_queue s = q0
              ∧ ∃ k, res = processed ++ take k queue_copy
                     ∧ (k = length queue_copy
                        ∨ ∀ d, d ∈ l0 → Driver.status (drv s d) ≠ available))
    (λ _ _, False).
Proof.
  intros Huniq. revert remaining processed.
  induction queue_copy as [|q rest IH]; intros remaining processed.
  - apply triple_ret. intros s (Hl & Hq & _). split_and!; try done.
    exists 0%nat. rewrite take_0, app_nil_r. by split; [|left].
  - destruct remaining as [|d0 ds].
    { apply triple_ret. intros s (Hl & Hq & _ & _ & Hidle). split_and!; try done.
      exists 0%nat. rewrite take_0, app_nil_r. split; [done|right].
      intros d Hd Hav. by apply Hidle, elem_of_nil in Hav. }
    cbn [QueueService.process_loop]. set (remaining := d0 :: ds).
    apply triple_pre. intros s (Hl & Hq & Hid & Hsub & Hidle).
    apply triple_bind with (R := λ s1 s', s' = s ∧ s1 = s); [by apply triple_gets|].
    intros s1.
    destruct (find_best_driver_result (drv s1) remaining (req s1 q))
      as [[? _]|(best & Hbest & Hfind)]; [done|].
    rewrite Hfind.
    set (s2 := (QueueService._assign_request_to_driver q best s).1).
    apply triple_bind with (R := λ _ s', s' = s2).
    { apply triple_returns with (f := λ _, tt); [done|]. by intros s' [-> _]. }
    intros _.
    apply triple_bind with (R := λ s2' s', s' = s2 ∧ s2' = s2); [by apply triple_gets|].
    intros s2'. apply triple_pre. intros s' [-> ->].
    destruct (queue_assign_status q best s) as (Hst & Hother & Hl2 & Hq2).
    fold s2 in Hst, Hother, Hl2, Hq2.
    assert (∀ d, Driver.id (drv s2 d) = id0 d) as Hid2.
    { intros d. unfold s2. by rewrite queue_assign_driver_id. }
    assert (filter (λ d, Driver.id (drv s2 d) ≠ Driver.id (drv s2 best)) remaining
            = filter (λ d, id0 d ≠ id0 best) remaining) as ->.
    { apply list_filter_iff. intros d. by rewrite !Hid2. }
    eapply triple_conseq; [apply IH|..]; simpl; [| |done].
    + intros s' ->. split_and!; try congruence.
      * intros d [_ Hd]%list_elem_of_filter. by apply Hsub.
      * intros d Hd Hav. destruct (decide (d = best)) as [->|Hne]; [congruence|].
        rewrite Hother in Hav by done.
        apply list_elem_of_filter. split; [|by apply Hidle].
        intros Heq. apply Hne, Huniq; auto.
    + intros res s' (Hl' & Hq' & k & -> & Hk). split_and!; try done.
      exists (S k). split; [by rewrite <- app_assoc|].
      destruct Hk as [->|Hk]; [by left|by right].
Qed.

Lemma process_queue_conserving (pool : list nat) :
  triple
    (λ s, fleet_invariant s
          ∧ pool = filter (λ d, Driver.status (drv s d) = available) (drivers s))
    (QueueService.process_queue pool)
    (λ _, work_conserving) (λ _ _, False).
Proof.
  apply triple_pre. intros s [Hs Hpool].
  unfold QueueService.process_queue.
  destruct pool as [|d0 ds].
  { apply triple_ret. intros ? ->. right. by apply no_idle_driver. }
  set (pool := d0 :: ds) in *.
  apply triple_bind with
    (R := λ empty s', s' = s ∧ empty = bool_decide (length (request_queue s) = 0%nat));
    [by apply triple_gets; intros ? ->|].
  intros empty. apply triple_pre. intros ? [-> ->].
  destruct (bool_decide_reflect (length (request_queue s) = 0%nat)) as [Hlen|Hlen].
  { apply triple_ret. intros ? ->. left. by apply nil_length_inv. }
  apply triple_bind with (R := λ qc s', s' = s ∧ qc = request_queue s);
    [by apply triple_gets; intros ? ->|].
  intros qc. apply triple_pre. intros ? [-> ->].
  apply triple_bind with
    (R := λ res s', drivers s' = drivers s ∧ request_queue s' = request_queue s
              ∧ ∃ k, res = [] ++ take k (request_queue s)
                     ∧ (k = length (request_queue s)
                        ∨ ∀ d, d ∈ drivers s → Driver.status (drv s' d) ≠ available)).
  { eapply triple_conseq;
      [apply (process_loop_drains (drivers s) (request_queue s)
                (λ d, Driver.id (drv s d)))|..]; simpl; [| |done|done].
    - apply (fleet_unique s Hs).
    - intros ? ->. split_and!; try done.
      + subst pool. rewrite Hpool. intros d Hd. by apply list_elem_of_filter in Hd as [_ ?].
      + intros d Hd Hav. subst pool. rewrite Hpool. by apply list_elem_of_filter. }
  intros res. apply triple_pre. intros s1 (Hl & Hq & k & -> & Hk).
  rewrite app_nil_l.
  apply triple_bind with
    (R := λ _ s', s' = set_request_queue (drop k (request_queue s)) s1).
  { intros ? ->.
    rewrite (remove_prefix_from_queue (take k (request_queue s))
               (drop k (request_queue s)) s1); [done|].
    by rewrite take_drop. }
  intros _. apply triple_ret. intros ? ->. unfold work_conserving. simpl.
  destruct Hk as [->|Hk]; [left; by rewrite drop_all|right; by rewrite Hl].
Qed.

Let same_view (s0 s : State) : Prop :=
  drv s = drv s0 ∧ drivers s = drivers s0 ∧ request_queue s = request_queue s0.

Lemma stamp_view (l : list nat) (s0 : State) :
  triple (same_view s0)
    (for_each l (λ request,
       let* r := read_req request in
       RequestService.assign_request request
         match RideRequest.assigned_driver_id r with
         | Some driver_id => AStr driver_id
         | None => ANone
         end))
    (λ _, same_view s0) (λ _, same_view s0).
Proof.
  apply triple_for_each. intros r _.
  apply triple_bind with (R := λ _, same_view s0); [by apply triple_gets|].
  intros rq s Hs. unfold RequestService.assign_request. mrun.
  by destruct (RideRequest.assigned_driver_id rq).
Qed.

Lemma _process_queue_conserving :
  triple fleet_invariant SimulationEngine._process_queue
    (λ _, work_conserving) (λ _, work_conserving).
Proof.
  unfold SimulationEngine._process_queue.
  apply triple_bind with
    (R := λ pool s, fleet_invariant s
            ∧ pool = filter (λ d, Driver.status (drv s d) = available) (drivers s));
    [by apply triple_gets|].
  intros pool. apply triple_bind with (R := λ _, work_conserving).
  - eapply triple_conseq; [apply process_queue_conserving|..]; done.
  - intros processed. apply triple_pre. intros s Hs.
    apply triple_conseq with (P' := same_view s) (Q' := λ _, same_view s)
                             (E' := λ _, same_view s);
      [apply stamp_view|..].
    + by intros ? ->.
    + intros _ s' (? & ? & ?). by apply work_conserving_view with (s := s).
    + intros _ s' (? & ? & ?). by apply work_conserving_view with (s := s).
Qed.

Lemma fleet_and_conserving__process_queue :
  triple fleet_invariant SimulationEngine._process_queue
    (λ _, fleet_invariant) (λ _, work_conserving).
Proof.
  eapply triple_conseq;
    [apply (triple_and _ _ _ _ _ _ fleet__process_queue _process_queue_conserving)|..];
    simpl; [done|by intros _ s [? _]|by intros _ s [_ ?]].
Qed.

Lemma conserving_advance_tick :
  triple fleet_invariant SimulationEngine.advance_tick
    (λ _, work_conserving) (λ _, work_conserving).
Proof.
  unfold SimulationEngine.advance_tick.
  apply triple_bind with (R := λ _, fleet_invariant); [by apply triple_gets|].
  intros busy. apply triple_bind with (R := λ _, fleet_invariant).
  { apply triple_for_each. intros b _.
    apply fleet__move_driver_one_step, fleet_and_conserving__process_queue. }
  intros _.
  apply triple_bind with
    (R := λ idle s, fleet_invariant s
                    ∧ ∀ b, b ∈ idle → Driver.status (drv s b) = available).
  { apply triple_gets. intros s Hs. split; [done|].
    intros b Hb. by apply list_elem_of_filter in Hb as [? _]. }
  intros idle. apply triple_bind with (R := λ _, fleet_invariant);
    [apply fleet_increment_loop|].
  intros _. apply _process_queue_conserving.
Qed.

Lemma conserving_add_driver (x y : Z) :
  triple (λ s, fleet_invariant s ∧ work_conserving s)
    (SimulationEngine.add_driver x y)
    (λ _, work_conserving) (λ _, work_conserving).
Proof.
  unfold SimulationEngine.add_driver.
  apply triple_bind with (R := λ _, fleet_invariant).
  - intros s [Hs Hwc]. pose proof (fleet_service_add_driver x y s Hs) as H.
    pose proof (add_driver_out_of_bounds_same x y s) as H'.
    destruct (DriverService.add_driver x y s) as [s' [d|e]]; [done|by subst].
  - intros d. apply triple_bind with (R := λ _, work_conserving).
    + apply _process_queue_conserving.
    + intros _. by apply triple_ret.
Qed.

Lemma place_conserving {A} (f : nat → A) (rider : Rider.t) (s : State) :
  work_conserving s →
  work_conserving
    ((let* request := RequestService.create_request rider in
      let* ok := SimulationEngine._try_assign_request request in
      (if (ok : bool) then ret tt else QueueService.add_to_queue request) ;;;
      ret (f request)) s).1.
Proof.
  intros Hwc.
  destruct ((let* request := RequestService.create_request rider in
             let* ok := SimulationEngine._try_assign_request request in
             (if (ok : bool) then ret tt else QueueService.add_to_queue request) ;;;
             ret (f request)) s) as [s' out] eqn:Heq.
  apply place_request in Heq. cbn zeta in Heq.
  destruct Heq as (_ & _ & _ & _ & _ & _ & Hdrivers & _ & _ & _ & Hcase).
  cbn [fst]. unfold work_conserving. rewrite Hdrivers.
  destruct (ScoringService.find_best_driver _ _ _) as [best|e].
  - destruct Hcase as (Hbest & _ & _ & _ & Hq).
    apply list_elem_of_filter in Hbest as [Hav Hin].
    destruct Hwc as [Hnil|Hbusy]; [left; congruence|by apply Hbusy in Hav].
  - destruct Hcase as (Hidle & _ & Hdrv & _). right. rewrite Hdrv.
    by apply no_idle_driver.
Qed.

Lemma rider_service_add_rider_cases (px py dx dy : Z) (s : State) :
  RiderService.add_rider px py dx dy s = (s, Raise PositionOutOfBoundsError)
  ∨ RiderService.add_rider px py dx dy s
    = (set_riders
         (<["Rider " +:+ pretty (S (rider_counter s))
            := Rider.mk ("Rider " +:+ pretty (S (rider_counter s))) px py dx dy]>
            (riders s))
         (set_rider_counter (S (rider_counter s)) s),
       Ok (Rider.mk ("Rider " +:+ pretty (S (rider_counter s))) px py dx dy)).
Proof.
  unfold RiderService.add_rider.
  destruct (RiderService._is_valid_position px py); [|by left].
  destruct (RiderService._is_valid_position dx dy); [|by left].
  by right.
Qed.

Lemma conserving_add_rider (px py dx dy : Z) (s : State) :
  work_conserving s →
  work_conserving (SimulationEngine.add_rider px py dx dy s).1.
Proof.
  intros Hwc. unfold SimulationEngine.add_rider. unfold bind at 1.
  destruct (rider_service_add_rider_cases px py dx dy s) as [-> | ->]; [done|].
  apply (place_conserving
           (λ r, (Rider.mk ("Rider " +:+ pretty (S (rider_counter s))) px py dx dy, r))).
  by apply work_conserving_view with (s := s).
Qed.

Lemma conserving_create_request (rider_id : string) (s : State) :
  work_conserving s →
  work_conserving (SimulationEngine.create_request rider_id s).1.
Proof.
  intros Hwc. unfold SimulationEngine.create_request. unfold bind at 1.
  unfold RiderService.get_rider, gets.
  destruct (riders s !! rider_id) as [rider|]; [|done].
  by apply (place_conserving Some).
Qed.

Lemma work_conserving_perform (o : operation) (s : State) :
  fleet_invariant s → work_conserving s → work_conserving (perform o s).
Proof.
  intros Hs Hwc. destruct o; unfold perform.
  - by apply (triple_final _ _ _ s (conserving_add_driver x y)).
  - unfold SimulationEngine.remove_driver, DriverService.remove_driver. mrun.
    destruct (DriverService.remove_first_with_id _ _ _) as [l|] eqn:Hl; [|done].
    destruct Hwc as [Hnil|Hbusy]; [by left|right]. simpl.
    intros d Hd. apply Hbusy. by eapply elem_of_remove_first_with_id.
  - by apply conserving_add_rider.
  - rewrite remove_rider_eq. destruct Hwc as [Hnil|Hbusy]; [left|by right].
    simpl. by rewrite Hnil.
  - by apply conserving_create_request.
  - by apply (triple_final _ _ _ s conserving_advance_tick).
  - by left.
Qed.

Lemma reachable_fleet_conserving (s : State) :
  reachable s → fleet_invariant s ∧ work_conserving s.
Proof.
  induction 1 as [|s o _ [IH1 IH2]].
  - split; [by apply reachable_fleet_invariant; constructor|by left].
  - split; [by apply fleet_invariant_perform|by apply work_conserving_perform].
Qed.

(** X14: In every state that a sequence of public operations reaches, also one
    that an operation left by raising, no rider waits while a driver is
    idle: the queue is empty, or no driver of the driver list is
    available. *)
Theorem reachable_work_conserving (s : State) :
  reachable s → work_conserving s.
Proof. intros Hs. by apply reachable_fleet_conserving. Qed.

Lemma reachable_work_conserving_witness :
  work_conserving
    (run [op_add_rider 1 1 5 5; op_add_rider 8 8 0 0; op_add_driver 3 4]
       SimulationEngine.initial).
Proof.
  apply (reachable_work_conserving
           (run [op_add_rider 1 1 5 5; op_add_rider 8 8 0 0; op_add_driver 3 4]
              SimulationEngine.initial)).
  apply reachable_run. constructor.
Defined.

End conserving.

(** ** Operations on an empty queue *)

Section empty_queue.

(** X15: [add_driver] at a position on the grid, called while no request waits
    in the queue, returns the new driver. The driver is numbered by the
    driver counter, stands at the given position, is available and has no
    trips, idle ticks, request, phase or target. It is appended to the end
    of the driver list, and no other driver, request or queue entry is
    written. *)
Theorem add_driver_joins_fleet (x y : Z) (s : State) :
  0 ≤ x < DEFAULT_GRID_WIDTH ∧ 0 ≤ y < DEFAULT_GRID_HEIGHT →
  request_queue s = [] →
  let s' := (SimulationEngine.add_driver x y s).1 in
  let d := next_drv s in
  (SimulationEngine.add_driver x y s).2 = Ok d
  ∧ drv s' d
    = Driver.mk ("Driver " +:+ pretty (S (driver_counter s))) x y available 0 0
        None None None None
  ∧ (∀ d', d' ≠ d → drv s' d' = drv s d')
  ∧ drivers s' = drivers s ++ [d]
  ∧ driver_counter s' = S (driver_counter s)
  ∧ req s' = req s ∧ requests s' = requests s ∧ riders s' = riders s
  ∧ request_queue s' = [].
Proof.
  intros Hin Hq s' d. subst s' d.
  set (v := Driver.mk ("Driver " +:+ pretty (S (driver_counter s))) x y available 0 0
              None None None None).
  set (s1 := set_drivers (drivers s ++ [next_drv s])
               (set_drv (<[next_drv s := v]> (drv s))
                  (set_next_drv (S (next_drv s))
                     (set_driver_counter (S (driver_counter s)) s)))).
  assert (DriverService.add_driver x y s = (s1, Ok (next_drv s))) as Hadd.
  { unfold DriverService.add_driver. by rewrite bool_decide_true by done. }
  assert (SimulationEngine.add_driver x y s = (s1, Ok (next_drv s))) as ->.
  { unfold SimulationEngine.add_driver, bind. rewrite Hadd.
    destruct (_process_queue_cases s1) as [Hret _].
    by rewrite Hret by (by left). }
  subst s1. cbn. rewrite fn_lookup_insert. split_and!; try done.
  intros d' Hne. by rewrite fn_lookup_insert_ne.
Qed.

Lemma add_driver_joins_fleet_witness :
  (SimulationEngine.add_driver 3 4 SimulationEngine.initial).2 = Ok 0%nat
  ∧ drivers (SimulationEngine.add_driver 3 4 SimulationEngine.initial).1 = [0%nat].
Proof.
  assert (0 ≤ 3 < DEFAULT_GRID_WIDTH ∧ 0 ≤ 4 < DEFAULT_GRID_HEIGHT) as Hin
    by (unfold DEFAULT_GRID_WIDTH, DEFAULT_GRID_HEIGHT; lia).
  destruct (add_driver_joins_fleet 3 4 SimulationEngine.initial Hin eq_refl)
    as (Hout & _ & _ & Hl & _).
  split; [exact Hout|exact Hl].
Defined.

Let quiet (s : State) : Prop := request_queue s = [].

Lemma quiet__process_queue E :
  triple quiet SimulationEngine._process_queue (λ _, quiet) E.
Proof.
  intros s Hs. destruct (_process_queue_cases s) as [Hret _].
  by rewrite Hret by (by left).
Qed.

Lemma quiet_remove_rider (rider_id : string) E :
  triple quiet (SimulationEngine.remove_rider rider_id) (λ _, quiet) E.
Proof.
  intros s Hs. rewrite remove_rider_eq. unfold quiet in *. simpl. by rewrite Hs.
Qed.

Lemma quiet__move_driver_one_step (b : nat) E :
  triple quiet (SimulationEngine._move_driver_one_step b) (λ _, quiet) E.
Proof.
  unfold SimulationEngine._move_driver_one_step.
  apply triple_bind with (R := λ _, quiet).
  { intros s Hs. unfold DriverService.move_driver_one_step. mrun.
    destruct (Driver.targetX (drv s b)); [|done].
    by destruct (Driver.targetY (drv s b)). }
  intros _. apply triple_bind with (R := λ _, quiet); [by apply triple_gets|].
  intros dv.
  destruct (Driver.targetX dv) as [tx|]; [|by apply triple_ret].
  destruct (Driver.targetY dv) as [ty|]; [|by apply triple_ret].
  destruct (decide _); [|by apply triple_ret].
  apply triple_bind with (R := λ _, quiet); [by apply triple_gets|].
  intros [r|]; [|by apply triple_ret].
  destruct (Driver.tripPhase dv) as [[|]|]; [| |by apply triple_ret].
  - apply triple_bind with (R := λ _, quiet); [by apply triple_gets|].
    intros rq. by apply triple_modify.
  - unfold SimulationEngine._complete_trip.
    apply triple_bind with (R := λ _, quiet); [by intros s Hs|].
    intros _. apply triple_bind with (R := λ _, quiet); [by intros s Hs|].
    intros _. apply triple_bind with (R := λ _, quiet); [by apply triple_gets|].
    intros rq. apply triple_bind with (R := λ _, quiet); [apply quiet_remove_rider|].
    intros _. apply quiet__process_queue.
Qed.

Lemma quiet_advance_tick :
  triple quiet SimulationEngine.advance_tick (λ _, quiet) (λ _ _, False).
Proof.
  unfold SimulationEngine.advance_tick.
  apply triple_bind with (R := λ _, quiet); [by apply triple_gets|].
  intros busy. apply triple_bind with (R := λ _, quiet).
  { apply triple_for_each. intros b _. apply quiet__move_driver_one_step. }
  intros _. apply triple_bind with (R := λ _, quiet); [by apply triple_gets|].
  intros idle. apply triple_bind with (R := λ _, quiet).
  { apply triple_for_each. by intros b _ s Hs. }
  intros _. apply quiet__process_queue.
Qed.

(** X16: While no request waits in the queue, [advance_tick] never raises, and
    the queue is still empty when it returns. *)
Theorem advance_tick_returns_on_empty_queue (s : State) :
  request_queue s = [] →
  (SimulationEngine.advance_tick s).2 = Ok tt
  ∧ request_queue (SimulationEngine.advance_tick s).1 = [].
Proof.
  intros Hq. pose proof (triple_run _ _ _ _ s quiet_advance_tick Hq) as H.
  by destruct (SimulationEngine.advance_tick s) as [s' [[]|e]].
Qed.

Lemma advance_tick_returns_on_empty_queue_witness :
  (SimulationEngine.advance_tick trip_at_pickup).2 = Ok tt
  ∧ request_queue (SimulationEngine.advance_tick trip_at_pickup).1 = [].
Proof.
  apply (advance_tick_returns_on_empty_queue trip_at_pickup).
  vm_compute. reflexivity.
Defined.

End empty_queue.

(** ** The idle ticks of a driver that completes its trip *)

Section tick_raises.

Let all_busy (s : State) : Prop :=
  ∀ d, d ∈ drivers s → Driver.status (drv s d) ≠ available.

Let steady (s : State) : Prop := NoDup (drivers s) ∧ work_conserving s.

Let one_idle (b : nat) (s : State) : Prop :=
  NoDup (drivers s)
  ∧ (request_queue s = []
     ∨ ∀ d, d ∈ drivers s → Driver.status (drv s d) = available → d = b).

Lemma filter_single {A} (P : A → Prop) `{!∀ x, Decision (P x)} (l : list A) (b : A) :
  NoDup l → (∀ x, x ∈ l → P x → x = b) →
  filter P l = [] ∨ filter P l = [b].
Proof.
  intros Hnd Hall.
  assert (NoDup (filter P l)) as Hnd' by (by apply list.NoDup_filter).
  assert (∀ x, x ∈ filter P l → x = b) as Hall'.
  { intros x [HP Hx]%list_elem_of_filter. by apply Hall. }
  destruct (filter P l) as [|x [|y l']]; [by left| |].
  - right. f_equal. apply Hall'. left.
  - exfalso. apply list.NoDup_cons in Hnd' as [Hnot _]. apply Hnot.
    rewrite (Hall' x) by left. rewrite (Hall' y) by (right; left). left.
Qed.

Lemma queue_assign_returns (q b : nat) (s : State) :
  (QueueService._assign_request_to_driver q b s).2 = Ok tt.
Proof. unfold QueueService._assign_request_to_driver. by mrun. Qed.

Lemma process_loop_single (q b : nat) (rest processed : list nat) (s : State) :
  QueueService.process_loop (q :: rest) [b] processed s
  = ((QueueService._assign_request_to_driver q b s).1, Ok (processed ++ [q])).
Proof.
  cbn [QueueService.process_loop]. unfold bind at 1. unfold gets at 1.
  cbn beta iota. unfold id.
  destruct (find_best_driver_result (drv s) [b] (req s q))
    as [[? _]|(best & Hb & Hf)]; [done|].
  rewrite Hf. apply list_elem_of_singleton in Hb as ->.
  unfold bind at 1. pose proof (queue_assign_returns q b s) as Hok.
  destruct (QueueService._assign_request_to_driver q b s) as [s2 out].
  simpl in Hok. subst out. cbn [fst].
  unfold bind, gets. cbn beta iota. unfold id.
  rewrite filter_cons_False by (by intros ?). rewrite filter_nil.
  by destruct rest.
Qed.

Lemma process_queue_single (b : nat) (s : State) :
  request_queue s ≠ [] →
  triple (λ s0, s0 = s) (QueueService.process_queue [b])
    (λ _ s', Driver.status (drv s' b) = on_trip
             ∧ (∀ d, d ≠ b → drv s' d = drv s d)
             ∧ drivers s' = drivers s)
    (λ _ _, False).
Proof.
  intros Hq ? ->. unfold QueueService.process_queue.
  destruct (request_queue s) as [|q rest] eqn:Hqueue; [done|].
  unfold bind at 1. unfold QueueService.is_queue_empty, gets at 1.
  cbn beta iota. rewrite Hqueue. cbn [length]. rewrite bool_decide_false by done.
  unfold bind at 1. unfold gets at 1. cbn beta iota. rewrite Hqueue.
  unfold bind at 1. rewrite process_loop_single.
  destruct (queue_assign_status q b s) as (Hst & Hother & Hl & _).
  set (s2 := (QueueService._assign_request_to_driver q b s).1) in *.
  rewrite app_nil_l. cbn. by split_and!.
Qed.

Lemma _process_queue_one_idle (b : nat) :
  triple (one_idle b) SimulationEngine._process_queue
    (λ _, steady) (λ _, all_busy).
Proof.
  intros s [Hnd Hcase]. destruct (_process_queue_cases s) as [Hret Hraise].
  destruct (decide (request_queue s = [])) as [Hq|Hq].
  { rewrite Hret by auto. split; [done|by left]. }
  destruct (decide (filter (λ d, Driver.status (drv s d) = available) (drivers s) = []))
    as [Hpool|Hpool].
  { rewrite Hret by auto. split; [done|]. right. by apply no_idle_driver. }
  destruct Hcase as [?|Hidle]; [done|].
  destruct (filter_single (λ d, Driver.status (drv s d) = available) (drivers s) b
              Hnd Hidle) as [?|Hb]; [done|].
  assert (triple (λ s0, s0 = s) SimulationEngine._process_queue
            (λ _ s', Driver.status (drv s' b) = on_trip
                     ∧ (∀ d, d ≠ b → drv s' d = drv s d)
                     ∧ drivers s' = drivers s)
            (λ _ s', Driver.status (drv s' b) = on_trip
                     ∧ (∀ d, d ≠ b → drv s' d = drv s d)
                     ∧ drivers s' = drivers s)) as Ht.
  { unfold SimulationEngine._process_queue.
    apply triple_bind with (R := λ pool s', s' = s ∧ pool = [b]).
    { apply triple_gets. by intros ? ->. }
    intros pool. apply triple_pre. intros ? [-> ->].
    apply triple_bind with
      (R := λ _ s', Driver.status (drv s' b) = on_trip
                    ∧ (∀ d, d ≠ b → drv s' d = drv s d)
                    ∧ drivers s' = drivers s).
    { eapply triple_conseq; [by apply (process_queue_single b s)|..]; done. }
    intros processed. apply triple_pre. intros s1 (Hst & Hother & Hl).
    eapply triple_conseq; [apply (stamp_view processed s1)|..]; simpl.
    - by intros ? ->.
    - intros _ s' (Hd & Hl' & _). rewrite Hd, Hl'. done.
    - intros _ s' (Hd & Hl' & _). rewrite Hd, Hl'. done. }
  specialize (Ht s eq_refl). specialize (Hraise Hq Hpool).
  destruct (SimulationEngine._process_queue s) as [s' [[]|e]]; [done|].
  destruct Ht as (Hst & Hother & Hl). intros d Hd Hav. rewrite Hl in Hd.
  destruct (decide (d = b)) as [->|Hne]; [congruence|].
  rewrite Hother in Hav by done. by apply Hne, Hidle.
Qed.

Lemma steady_view (s s' : State) :
  drivers s' = drivers s → request_queue s' = request_queue s →
  (∀ d, Driver.status (drv s' d) = Driver.status (drv s d)) →
  steady s → steady s'.
Proof.
  unfold steady, work_conserving. intros -> -> Hst [Hnd Hwc]. split; [done|].
  destruct Hwc as [?|Hbusy]; [by left|right]. intros d Hd. rewrite Hst. by apply Hbusy.
Qed.

Lemma steady_write (s : State) (b : nat) (v : Driver.t) :
  Driver.status v = Driver.status (drv s b) →
  steady s → steady (set_drv (<[b := v]> (drv s)) s).
Proof.
  intros Hv. apply steady_view; [done|done|]. intros d. simpl.
  destruct (decide (d = b)) as [->|Hne].
  - by rewrite fn_lookup_insert.
  - by rewrite fn_lookup_insert_ne.
Qed.

Lemma steady__complete_trip (b r : nat) :
  triple steady (SimulationEngine._complete_trip b r) (λ _, steady) (λ _, all_busy).
Proof.
  unfold SimulationEngine._complete_trip.
  apply triple_bind with (R := λ _, steady).
  { intros s Hs. by apply steady_view with (s := s). }
  intros _. apply triple_bind with (R := λ _, one_idle b).
  { intros s [Hnd Hwc]. unfold DriverService.complete_trip. mrun.
    split; [done|]. destruct Hwc as [?|Hbusy]; [by left|right].
    intros d Hd. simpl. destruct (decide (d = b)) as [->|Hne]; [done|].
    rewrite fn_lookup_insert_ne by done. intros Hav. by apply Hbusy in Hav. }
  intros _. apply triple_bind with (R := λ _, one_idle b); [by apply triple_gets|].
  intros rq. apply triple_bind with (R := λ _, one_idle b).
  { intros s [Hnd Hcase]. rewrite remove_rider_eq. split; [done|]. simpl.
    destruct Hcase as [->|?]; [by left|by right]. }
  intros _. apply _process_queue_one_idle.
Qed.

Lemma steady__move_driver_one_step (b : nat) :
  triple steady (SimulationEngine._move_driver_one_step b)
    (λ _, steady) (λ _, all_busy).
Proof.
  unfold SimulationEngine._move_driver_one_step.
  apply triple_bind with (R := λ _, steady).
  { intros s Hs. unfold DriverService.move_driver_one_step. mrun.
    destruct (Driver.targetX (drv s b)); [|done].
    destruct (Driver.targetY (drv s b)); [|done].
    mrun. by apply steady_write. }
  intros _.
  apply triple_bind with (R := λ dv s, steady s ∧ dv = drv s b); [by apply triple_gets|].
  intros dv.
  destruct (Driver.targetX dv) as [tx|]; [|apply triple_ret; by intros s [? ?]].
  destruct (Driver.targetY dv) as [ty|]; [|apply triple_ret; by intros s [? ?]].
  destruct (decide _); [|apply triple_ret; by intros s [? ?]].
  apply triple_bind with (R := λ _ s, steady s ∧ dv = drv s b); [by apply triple_gets|].
  intros [r|]; [|apply triple_ret; by intros s [? ?]].
  destruct (Driver.tripPhase dv) as [[|]|]; [| |apply triple_ret; by intros s [? ?]].
  - apply triple_bind with (R := λ _ s, steady s ∧ dv = drv s b);
      [by apply triple_gets|].
    intros rq. apply triple_modify. intros s [Hs ->]. by apply steady_write.
  - eapply triple_conseq; [apply steady__complete_trip|..]; simpl; [|done|done].
    by intros s [? ?].
Qed.

Lemma steady_advance_tick :
  triple steady SimulationEngine.advance_tick (λ _ _, True) (λ _, all_busy).
Proof.
  unfold SimulationEngine.advance_tick.
  apply triple_bind with (R := λ _, steady); [by apply triple_gets|].
  intros busy. apply triple_bind with (R := λ _, steady).
  { apply triple_for_each. intros b _. apply steady__move_driver_one_step. }
  intros _. apply triple_bind with (R := λ _, steady); [by apply triple_gets|].
  intros idle. apply triple_bind with (R := λ _, steady).
  { apply triple_for_each. intros b _ s Hs.
    unfold DriverService.increment_idle_ticks. mrun. by apply steady_write. }
  intros _.
  eapply triple_conseq; [apply (_process_queue_one_idle 0%nat)|..]; simpl;
    [|done|done].
  intros s [Hnd Hwc]. split; [done|]. destruct Hwc as [?|Hbusy]; [by left|right].
  intros d Hd Hav. by apply Hbusy in Hav.
Qed.

(** In a reachable state a tick that raises leaves no driver of the list
    available: the exception comes from the drain that follows the first
    trip completed while riders wait, and that drain has put the one idle
    driver on a trip again. *)
Lemma raising_tick_leaves_no_idle_driver (s s' : State) (e : exn) (d : nat) :
  reachable s → SimulationEngine.advance_tick s = (s', Raise e) →
  d ∈ drivers s → Driver.status (drv s' d) ≠ available.
Proof.
  intros Hs Hrun Hd.
  destruct (reachable_fleet_conserving s Hs) as [Hfleet Hwc].
  destruct (fleet_wf s Hfleet) as [Hnd _].
  pose proof (triple_run _ _ _ _ s steady_advance_tick (conj Hnd Hwc)) as Hbusy.
  pose proof (triple_run _ _ _ _ s
                (same_drivers_advance_tick (drivers s) (next_drv s))
                (conj eq_refl (conj eq_refl I))) as Hsame.
  rewrite Hrun in Hbusy, Hsame. destruct Hsame as (Hl & _).
  apply Hbusy. by rewrite Hl.
Qed.

End tick_raises.

(** C3 as the code has it: a driver that is on a trip when [advance_tick]
    is called and available when the call ends has completed its trip in
    this tick without being reassigned, and its [idleTicks] is then 1, not
    0: the tick counts the driver idle once, in the step after the one
    that completed the trip.  This holds in every state that a sequence of
    public operations reaches, whether the call returns or raises. *)
Theorem completed_driver_is_counted_idle
    (s s' : State) (res : result unit) (d : nat) :
  reachable s → d ∈ drivers s →
  Driver.status (drv s d) = on_trip →
  SimulationEngine.advance_tick s = (s', res) →
  Driver.status (drv s' d) = available →
  Driver.idleTicks (drv s' d) = 1.
Proof.
  intros Hs Hd Hst Hrun Hav. destruct res as [[]|e].
  - destruct (reachable_drivers_wf s Hs) as [Hnodup _].
    pose proof (triple_run _ _ _ _ s
                  (tick_idle_ticks d (drivers s) (next_drv s) Hnodup Hd)
                  (conj eq_refl (conj eq_refl Hst))) as Ht.
    rewrite Hrun in Ht. destruct Ht as [Hbusy|[_ Hidle]]; [congruence|done].
  - by destruct (raising_tick_leaves_no_idle_driver s s' e d Hs Hrun Hd).
Qed.

Lemma completed_driver_is_counted_idle_witness :
  Driver.idleTicks (drv trip_completed 0) = 1.
Proof.
  apply (completed_driver_is_counted_idle
           trip_at_pickup trip_completed (Ok tt) 0%nat).
  - constructor. constructor. constructor. constructor.
  - vm_compute. left.
  - vm_compute. reflexivity.
  - vm_compute. reflexivity.
  - vm_compute. reflexivity.
Defined.

(** C3 with an [idleTicks] of 0 fails: the driver of [trip_at_pickup]
    completes its trip in the next tick and is not reassigned, and its
    [idleTicks] is 1 when the tick ends, not 0. *)
Lemma completed_driver_idle_ticks_not_reset :
  0%nat ∈ drivers trip_at_pickup
  ∧ Driver.status (drv trip_at_pickup 0) = on_trip
  ∧ SimulationEngine.advance_tick trip_at_pickup = (trip_completed, Ok tt)
  ∧ Driver.status (drv trip_completed 0) = available
  ∧ Driver.idleTicks (drv trip_completed 0) = 1
  ∧ Driver.idleTicks (drv trip_completed 0) ≠ 0.
Proof. split_and!; try by vm_compute. vm_compute. left. Qed.

(** ** One tick, seen from one driver *)

Section tick_motion.

Variables (d : nat) (l0 : list nat).

Let kept (v0 : Driver.t) (s : State) : Prop := drv s d = v0 ∧ drivers s = l0.

Lemma kept__process_queue (v0 : Driver.t) :
  triple (kept v0) SimulationEngine._process_queue (λ _, kept v0) (λ _ _, True).
Proof.
  intros s Hs. destruct (SimulationEngine._process_queue s) as [s' [[]|e]] eqn:Heq; [|done].
  apply _process_queue_returns_same in Heq. by subst.
Qed.

Lemma kept_remove_rider (v0 : Driver.t) (rider_id : string) E :
  triple (kept v0) (SimulationEngine.remove_rider rider_id) (λ _, kept v0) E.
Proof. intros s Hs. by rewrite remove_rider_eq. Qed.

Lemma kept__move_driver_one_step (v0 : Driver.t) (b : nat) :
  b ≠ d →
  triple (kept v0) (SimulationEngine._move_driver_one_step b)
    (λ _, kept v0) (λ _ _, True).
Proof.
  intros Hne. unfold SimulationEngine._move_driver_one_step.
  apply triple_bind with (R := λ _, kept v0).
  { intros s [Hs Hl]. unfold DriverService.move_driver_one_step. mrun.
    destruct (Driver.targetX (drv s b)); [|done].
    destruct (Driver.targetY (drv s b)); [|done].
    mrun. split; [|done]. simpl. by rewrite fn_lookup_insert_ne. }
  intros _. apply triple_bind with (R := λ _, kept v0); [by apply triple_gets|].
  intros dv.
  destruct (Driver.targetX dv) as [tx|]; [|by apply triple_ret].
  destruct (Driver.targetY dv) as [ty|]; [|by apply triple_ret].
  destruct (decide _); [|by apply triple_ret].
  apply triple_bind with (R := λ _, kept v0); [by apply triple_gets|].
  intros [r|]; [|by apply triple_ret].
  destruct (Driver.tripPhase dv) as [[|]|]; [| |by apply triple_ret].
  - apply triple_bind with (R := λ _, kept v0); [by apply triple_gets|].
    intros rq. apply triple_modify. intros s [Hs Hl]. split; [|done].
    simpl. by rewrite fn_lookup_insert_ne.
  - unfold SimulationEngine._complete_trip.
    apply triple_bind with (R := λ _, kept v0); [by intros s Hs|].
    intros _. apply triple_bind with (R := λ _, kept v0).
    { intros s [Hs Hl]. unfold DriverService.complete_trip. mrun.
      split; [|done]. simpl. by rewrite fn_lookup_insert_ne. }
    intros _. apply triple_bind with (R := λ _, kept v0); [by apply triple_gets|].
    intros rq. apply triple_bind with (R := λ _, kept v0); [apply kept_remove_rider|].
    intros _. apply kept__process_queue.
Qed.

Lemma kept_busy_loop (v0 : Driver.t) (l : list nat) :
  d ∉ l →
  triple (kept v0) (for_each l SimulationEngine._move_driver_one_step)
    (λ _, kept v0) (λ _ _, True).
Proof.
  intros Hd. apply triple_for_each. intros b Hb.
  apply kept__move_driver_one_step. by intros ->.
Qed.

Lemma kept_increment_loop (v0 : Driver.t) (l : list nat) :
  NoDup l →
  triple
    (λ s, drivers s = l0
          ∧ ((d ∈ l ∧ drv s d = v0) ∨ ((d ∉ l) ∧ drv s d = idle_once v0)))
    (for_each l DriverService.increment_idle_ticks)
    (λ _, kept (idle_once v0)) (λ _ _, False).
Proof.
  induction 1 as [|a l Ha Hl IH].
  - apply triple_ret.
    intros s (Hd & [[Hin _]|[_ HK]]); [by apply elem_of_nil in Hin|done].
  - cbn [for_each].
    apply triple_bind with
      (R := λ _ s, drivers s = l0
              ∧ ((d ∈ l ∧ drv s d = v0) ∨ ((d ∉ l) ∧ drv s d = idle_once v0)));
      [|intros _; apply IH].
    intros s (Hd & Hcase). unfold DriverService.increment_idle_ticks. mrun.
    split; [done|]. simpl.
    destruct (decide (d = a)) as [->|Hne].
    + rewrite fn_lookup_insert. right. split; [done|].
      destruct Hcase as [[_ Hv]|[Hnot _]]; [by rewrite Hv|].
      exfalso. apply Hnot. left.
    + rewrite fn_lookup_insert_ne by done.
      destruct Hcase as [[Hin Hv]|[Hnot Hv]].
      * left. split; [|done]. by apply elem_of_cons in Hin as [?|?].
      * right. split; [|done]. intros Hin. apply Hnot. by right.
Qed.

Let at_pos (p : Z * Z) (s : State) : Prop :=
  (Driver.x (drv s d) = p.1 ∧ Driver.y (drv s d) = p.2) ∧ drivers s = l0.

Lemma at_pos__process_queue (p : Z * Z) :
  triple (at_pos p) SimulationEngine._process_queue (λ _, at_pos p) (λ _ _, True).
Proof.
  intros s Hs. destruct (SimulationEngine._process_queue s) as [s' [[]|e]] eqn:Heq; [|done].
  apply _process_queue_returns_same in Heq. by subst.
Qed.

Lemma at_pos_other (p : Z * Z) (b : nat) :
  b ≠ d →
  triple (at_pos p) (SimulationEngine._move_driver_one_step b)
    (λ _, at_pos p) (λ _ _, True).
Proof.
  intros Hne. apply triple_pre. intros s [Hp Hl].
  apply triple_conseq with (P' := kept (drv s d)) (Q' := λ _, kept (drv s d))
                           (E' := λ _ _, True);
    [by apply kept__move_driver_one_step|..]; [by intros ? ->| |done].
  intros _ s' [Hv Hl']. split; [by rewrite Hv|done].
Qed.

Lemma at_pos_rest (p : Z * Z) :
  triple (at_pos p)
    (let* dv := read_drv d in
     match Driver.targetX dv, Driver.targetY dv with
     | Some targetX, Some targetY =>
         if decide (Driver.x dv = targetX ∧ Driver.y dv = targetY) then
           let* request := RequestService.get_request (Driver.assignedRequestId dv) in
           match request with
           | None => ret tt
           | Some request =>
               match Driver.tripPhase dv with
               | Some to_pickup =>
                   let* r := read_req request in
                   write_drv d
                     (Driver.mk (Driver.id dv) (Driver.x dv) (Driver.y dv)
                        (Driver.status dv) (Driver.totalTrips dv) (Driver.idleTicks dv)
                        (Driver.assignedRequestId dv) (Some to_dropoff)
                        (Some (RideRequest.dropoff_x r))
                        (Some (RideRequest.dropoff_y r)))
               | Some to_dropoff => SimulationEngine._complete_trip d request
               | None => ret tt
               end
           end
         else ret tt
     | _, _ => ret tt
     end)
    (λ _, at_pos p) (λ _ _, True).
Proof.
  apply triple_bind with (R := λ dv s, at_pos p s ∧ dv = drv s d);
    [by apply triple_gets|].
  intros dv.
  destruct (Driver.targetX dv) as [tx|]; [|apply triple_ret; by intros s [? ?]].
  destruct (Driver.targetY dv) as [ty|]; [|apply triple_ret; by intros s [? ?]].
  destruct (decide _); [|apply triple_ret; by intros s [? ?]].
  apply triple_bind with (R := λ _ s, at_pos p s ∧ dv = drv s d);
    [by apply triple_gets|].
  intros [r|]; [|apply triple_ret; by intros s [? ?]].
  destruct (Driver.tripPhase dv) as [[|]|]; [| |apply triple_ret; by intros s [? ?]].
  - apply triple_bind with (R := λ _ s, at_pos p s ∧ dv = drv s d);
      [by apply triple_gets|].
    intros rq. apply triple_modify. intros s [[Hp Hl] ->]. split; [|done].
    simpl. by rewrite fn_lookup_insert.
  - unfold SimulationEngine._complete_trip.
    apply triple_bind with (R := λ _, at_pos p); [by intros s [Hs _]|].
    intros _. apply triple_bind with (R := λ _, at_pos p).
    { intros s [Hp Hl]. unfold DriverService.complete_trip. mrun.
      split; [|done]. simpl. by rewrite fn_lookup_insert. }
    intros _. apply triple_bind with (R := λ _, at_pos p); [by apply triple_gets|].
    intros rq. apply triple_bind with (R := λ _, at_pos p).
    { intros s Hs. by rewrite remove_rider_eq. }
    intros _. apply at_pos__process_queue.
Qed.

Lemma at_pos_own (v0 : Driver.t) (tx ty : Z) :
  Driver.targetX v0 = Some tx → Driver.targetY v0 = Some ty →
  triple (kept v0) (SimulationEngine._move_driver_one_step d)
    (λ _, at_pos (step_toward (Driver.x v0) tx, step_toward (Driver.y v0) ty))
    (λ _ _, True).
Proof.
  intros Hx Hy. unfold SimulationEngine._move_driver_one_step.
  apply triple_bind with
    (R := λ _, at_pos (step_toward (Driver.x v0) tx, step_toward (Driver.y v0) ty));
    [|intros _; apply at_pos_rest].
  intros s [Hv Hl]. unfold DriverService.move_driver_one_step. mrun.
  rewrite Hv, Hx, Hy. mrun. split; [|done]. simpl. by rewrite fn_lookup_insert.
Qed.

Lemma at_pos_busy_loop (v0 : Driver.t) (tx ty : Z) (l : list nat) :
  Driver.targetX v0 = Some tx → Driver.targetY v0 = Some ty →
  NoDup l →
  triple
    (λ s, (d ∈ l ∧ kept v0 s)
          ∨ ((d ∉ l)
             ∧ at_pos (step_toward (Driver.x v0) tx, step_toward (Driver.y v0) ty) s))
    (for_each l SimulationEngine._move_driver_one_step)
    (λ _, at_pos (step_toward (Driver.x v0) tx, step_toward (Driver.y v0) ty))
    (λ _ _, True).
Proof.
  intros Hx Hy. induction 1 as [|a l Ha Hl IH].
  - apply triple_ret.
    intros s [[Hin _]|[_ HK]]; [by apply elem_of_nil in Hin|done].
  - cbn [for_each].
    apply triple_bind with
      (R := λ _ s, (d ∈ l ∧ kept v0 s)
          ∨ ((d ∉ l)
             ∧ at_pos (step_toward (Driver.x v0) tx, step_toward (Driver.y v0) ty) s));
      [|intros _; apply IH].
    apply triple_pre. intros s Hcase.
    destruct (decide (a = d)) as [->|Hne].
    + destruct Hcase as [[_ Hk]|[Hnot _]]; [|exfalso; apply Hnot; left].
      eapply triple_conseq; [apply (at_pos_own v0 tx ty Hx Hy)|..]; simpl;
        [by intros ? ->| |done].
      intros _ s' Hs'. by right.
    + destruct Hcase as [[Hin Hk]|[Hnot Hp]].
      * eapply triple_conseq; [apply (kept__move_driver_one_step v0 a Hne)|..]; simpl;
          [by intros ? ->| |done].
        intros _ s' Hs'. left. split; [|done].
        apply elem_of_cons in Hin as [?|?]; [congruence|done].
      * eapply triple_conseq;
          [apply (at_pos_other
                    (step_toward (Driver.x v0) tx, step_toward (Driver.y v0) ty)
                    a Hne)|..]; simpl;
          [intros ? ->; exact Hp| |done].
        intros _ s' Hs'. right. split; [|done]. intros Hin. apply Hnot. by right.
Qed.

Lemma at_pos_increment_loop (p : Z * Z) (l : list nat) E :
  triple (at_pos p) (for_each l DriverService.increment_idle_ticks)
    (λ _, at_pos p) E.
Proof.
  apply triple_for_each. intros b _ s [Hp Hl].
  unfold DriverService.increment_idle_ticks. mrun. split; [|done]. simpl.
  destruct (decide (d = b)) as [->|Hne].
  - by rewrite fn_lookup_insert.
  - by rewrite fn_lookup_insert_ne.
Qed.

End tick_motion.

Section tick_drivers.

(** X17: When [advance_tick] returns, a driver of the list that was available
    when it was called has been counted idle exactly once: its idle ticks
    are one higher, and no other field of the driver has changed. The
    driver list is taken to hold each driver object once, as it does in
    every reachable state. *)
Theorem advance_tick_counts_idle_driver (s s' : State) (d : nat) :
  NoDup (drivers s) → d ∈ drivers s →
  Driver.status (drv s d) = available →
  SimulationEngine.advance_tick s = (s', Ok tt) →
  drv s' d = idle_once (drv s d).
Proof.
  intros Hnd Hd Hidle Hrun.
  assert (triple (λ s1, s1 = s) SimulationEngine.advance_tick
            (λ _ s1, drv s1 d = idle_once (drv s d) ∧ drivers s1 = drivers s)
            (λ _ _, True)) as Ht.
  { unfold SimulationEngine.advance_tick.
    apply triple_bind with
      (R := λ busy s1, s1 = s
              ∧ busy = filter (λ b, Driver.status (drv s b) = on_trip) (drivers s));
      [by apply triple_gets; intros ? ->|].
    intros busy. apply triple_pre. intros ? [-> ->].
    apply triple_bind with (R := λ _ s1, drv s1 d = drv s d ∧ drivers s1 = drivers s).
    { eapply triple_conseq; [apply (kept_busy_loop d (drivers s) (drv s d))|..];
        simpl; [|by intros ? ->|done|done].
      intros [Hon _]%list_elem_of_filter. congruence. }
    intros _.
    apply triple_bind with
      (R := λ idle s1, (drv s1 d = drv s d ∧ drivers s1 = drivers s)
              ∧ idle = filter (λ b, Driver.status (drv s1 b) = available) (drivers s1));
      [by apply triple_gets|].
    intros idle. apply triple_pre. intros s1 [[Hv Hl] ->].
    apply triple_bind with
      (R := λ _ s2, drv s2 d = idle_once (drv s d) ∧ drivers s2 = drivers s).
    { eapply triple_conseq;
        [apply (kept_increment_loop d (drivers s) (drv s d))|..];
        simpl; [| |done|done].
      - apply list.NoDup_filter. by rewrite Hl.
      - intros ? ->. split; [done|]. left. split; [|done].
        apply list_elem_of_filter. rewrite Hv, Hl. done. }
    intros _. apply (kept__process_queue d (drivers s)). }
  pose proof (triple_run _ _ _ _ s Ht eq_refl) as H. rewrite Hrun in H. by destruct H.
Qed.

Lemma advance_tick_counts_idle_driver_witness :
  Driver.idleTicks
    (drv (SimulationEngine.advance_tick
            (run [op_add_driver 3 4] SimulationEngine.initial)).1 0%nat)
  = 1.
Proof.
  rewrite (advance_tick_counts_idle_driver
             (run [op_add_driver 3 4] SimulationEngine.initial)
             (SimulationEngine.advance_tick
                (run [op_add_driver 3 4] SimulationEngine.initial)).1 0%nat).
  - vm_compute. reflexivity.
  - vm_compute. apply list.NoDup_singleton.
  - vm_compute. left.
  - vm_compute. reflexivity.
  - vm_compute. reflexivity.
Defined.

(** X18: When [advance_tick] returns, a driver of the list that was on a trip
    when it was called has been moved exactly once: each coordinate is one
    step closer to the target the driver had, or unchanged when it was
    there already. This holds whatever else the tick did with the driver:
    switching it to the dropoff, completing its trip, or assigning it a new
    request. The driver list is taken to hold each driver object once. *)
Theorem advance_tick_moves_busy_driver (s s' : State) (d : nat) (tx ty : Z) :
  NoDup (drivers s) → d ∈ drivers s →
  Driver.status (drv s d) = on_trip →
  Driver.targetX (drv s d) = Some tx → Driver.targetY (drv s d) = Some ty →
  SimulationEngine.advance_tick s = (s', Ok tt) →
  Driver.x (drv s' d) = step_toward (Driver.x (drv s d)) tx
  ∧ Driver.y (drv s' d) = step_toward (Driver.y (drv s d)) ty.
Proof.
  intros Hnd Hd Hbusy Hx Hy Hrun.
  set (p := (step_toward (Driver.x (drv s d)) tx, step_toward (Driver.y (drv s d)) ty)).
  assert (triple (λ s1, s1 = s) SimulationEngine.advance_tick
            (λ _ s1, (Driver.x (drv s1 d) = p.1 ∧ Driver.y (drv s1 d) = p.2)
                     ∧ drivers s1 = drivers s)
            (λ _ _, True)) as Ht.
  { unfold SimulationEngine.advance_tick.
    apply triple_bind with
      (R := λ busy s1, s1 = s
              ∧ busy = filter (λ b, Driver.status (drv s b) = on_trip) (drivers s));
      [by apply triple_gets; intros ? ->|].
    intros busy. apply triple_pre. intros ? [-> ->].
    apply triple_bind with
      (R := λ _ s1, (Driver.x (drv s1 d) = p.1 ∧ Driver.y (drv s1 d) = p.2)
                    ∧ drivers s1 = drivers s).
    { eapply triple_conseq;
        [apply (at_pos_busy_loop d (drivers s) (drv s d) tx ty _ Hx Hy)|..];
        simpl; [| |done|done].
      - by apply list.NoDup_filter.
      - intros ? ->. left. split; [|done]. by apply list_elem_of_filter. }
    intros _.
    apply triple_bind with
      (R := λ _ s1, (Driver.x (drv s1 d) = p.1 ∧ Driver.y (drv s1 d) = p.2)
                    ∧ drivers s1 = drivers s);
      [by apply triple_gets|].
    intros idle.
    apply triple_bind with
      (R := λ _ s1, (Driver.x (drv s1 d) = p.1 ∧ Driver.y (drv s1 d) = p.2)
                    ∧ drivers s1 = drivers s);
      [apply (at_pos_increment_loop d (drivers s) p)|].
    intros _. apply (at_pos__process_queue d (drivers s) p). }
  pose proof (triple_run _ _ _ _ s Ht eq_refl) as H. rewrite Hrun in H. by destruct H.
Qed.

Lemma advance_tick_moves_busy_driver_witness :
  Driver.x (drv (SimulationEngine.advance_tick trip_started).1 0%nat) = 0
  ∧ Driver.y (drv (SimulationEngine.advance_tick trip_started).1 0%nat) = 1.
Proof.
  apply (advance_tick_moves_busy_driver trip_started
           (SimulationEngine.advance_tick trip_started).1 0%nat 0 1).
  - vm_compute. apply list.NoDup_singleton.
  - vm_compute. left.
  - vm_compute. reflexivity.
  - vm_compute. reflexivity.
  - vm_compute. reflexivity.
  - vm_compute. reflexivity.
Defined.

End tick_drivers.

(** ** The queue holds the waiting requests *)

Section queue_registry.

Lemma queue_invariant_view (s s' : State) :
  request_queue s' = request_queue s → requests s' = requests s →
  (∀ r, RideRequest.status (req s' r) = waiting
        ↔ RideRequest.status (req s r) = waiting) →
  queue_invariant s → queue_invariant s'.
Proof.
  unfold queue_invariant, registered. intros -> -> Hst [Hnd Hq]. split; [done|].
  intros r. by rewrite Hst.
Qed.

Lemma queue_invariant_drivers (s s' : State) :
  request_queue s' = request_queue s → requests s' = requests s → req s' = req s →
  queue_invariant s → queue_invariant s'.
Proof. intros Hq Hm Hr. apply queue_invariant_view; [done|done|]. by rewrite Hr. Qed.

Lemma fresh_request (s : State) :
  engine_invariant s →
  requests s !! req_id (S (request_counter s)) = None
  ∧ (next_req s ∉ request_queue s)
  ∧ ¬ registered s (next_req s).
Proof.
  intros [_ _ Hlive _ Hreg]. split_and!.
  - destruct (requests s !! req_id (S (request_counter s))) as [r0|] eqn:Hk; [|done].
    destruct (Hreg _ _ Hk) as [Hid _].
    destruct (Hlive r0) as (_ & _ & n & Hn & Hidn); [right; by exists (req_id (S (request_counter s)))|].
    rewrite Hidn in Hid. apply req_id_inj in Hid. lia.
  - intros Hin. destruct (Hlive (next_req s)) as (Hlt & _); [by left|lia].
  - intros Hin. destruct (Hlive (next_req s)) as (Hlt & _); [by right|lia].
Qed.

Lemma queue_invariant_place {A} (f : nat → A) (rider : Rider.t) (s : State) :
  engine_invariant s → queue_invariant s →
  queue_invariant
    ((let* request := RequestService.create_request rider in
      let* ok := SimulationEngine._try_assign_request request in
      (if (ok : bool) then ret tt else QueueService.add_to_queue request) ;;;
      ret (f request)) s).1.
Proof.
  intros Hs [Hnd Hq].
  destruct (fresh_request s Hs) as (Hkey & Hnotq & Hnotr).
  destruct ((let* request := RequestService.create_request rider in
             let* ok := SimulationEngine._try_assign_request request in
             (if (ok : bool) then ret tt else QueueService.add_to_queue request) ;;;
             ret (f request)) s) as [s' out] eqn:Heq.
  apply place_request in Heq. cbn zeta in Heq.
  destruct Heq as (_ & Hrequests & _ & _ & _ & _ & _ & _ & _ & Hreq & Hcase).
  cbn [fst].
  assert (∀ r, registered s' r ↔ r = next_req s ∨ registered s r) as Hreg'.
  { intros r. unfold registered. rewrite Hrequests. split.
    - intros [k Hk]. apply lookup_insert_Some in Hk as [[_ <-]|[_ Hk]]; [by left|].
      right. by exists k.
    - intros [->|[k Hk]].
      + eexists. apply lookup_insert_eq.
      + exists k. rewrite lookup_insert_ne; [done|]. intros Heq.
        rewrite <- Heq in Hk. unfold req_id in Hkey. by rewrite Hkey in Hk. }
  unfold queue_invariant.
  destruct (ScoringService.find_best_driver _ _ _) as [best|e].
  - destruct Hcase as (_ & Hnew & _ & _ & Hqueue). rewrite Hqueue.
    split; [done|]. intros r. rewrite Hreg', Hq.
    destruct (decide (r = next_req s)) as [->|Hne].
    + rewrite Hnew. simpl. split; [by intros [? _]|by intros [_ ?]].
    + rewrite Hreq by done. split; [intros [? ?]; auto|].
      intros [[?|?] ?]; [done|auto].
  - destruct Hcase as (_ & Hnew & _ & Hqueue). rewrite Hqueue. split.
    + apply list.NoDup_app. split_and!; [done| |apply list.NoDup_singleton].
      intros r Hr ->%list_elem_of_singleton. done.
    + intros r. rewrite elem_of_app, list_elem_of_singleton, Hreg', Hq.
      destruct (decide (r = next_req s)) as [->|Hne].
      * rewrite Hnew. simpl. split; [auto|by right].
      * rewrite Hreq by done. split.
        -- intros [[? ?]|?]; [auto|done].
        -- intros [[?|?] ?]; [done|auto].
Qed.

Lemma queue_invariant_remove_rider (rider_id : string) (s : State) :
  queue_invariant s →
  queue_invariant (SimulationEngine.remove_rider rider_id s).1.
Proof.
  intros [Hnd Hq]. rewrite remove_rider_eq. unfold queue_invariant, registered. simpl.
  split; [by apply list.NoDup_filter|].
  intros r. rewrite list_elem_of_filter, Hq. unfold registered. split.
  - intros (Hne & [k Hk] & Hw). split; [|done]. exists k.
    by apply map_lookup_filter_Some.
  - intros ([k Hk] & Hw). apply map_lookup_filter_Some in Hk as [Hk Hne].
    split_and!; [done|by exists k|done].
Qed.

Lemma process_loop_statuses (q0 : list nat) (m0 : gmap string nat)
    (st0 : nat → RideRequestStatus) (queue_copy remaining processed : list nat) :
  triple
    (λ s, request_queue s = q0 ∧ requests s = m0
          ∧ (∀ r, r ∉ processed → RideRequest.status (req s r) = st0 r)
          ∧ (∀ p, p ∈ processed → RideRequest.status (req s p) = assigned))
    (QueueService.process_loop queue_copy remaining processed)
    (λ res s, request_queue s = q0 ∧ requests s = m0
              ∧ (∀ r, r ∉ res → RideRequest.status (req s r) = st0 r)
              ∧ (∀ p, p ∈ res → RideRequest.status (req s p) = assigned)
              ∧ ∃ k, res = processed ++ take k queue_copy)
    (λ _ _, False).
Proof.
  revert remaining processed.
  induction queue_copy as [|q rest IH]; intros remaining processed.
  - apply triple_ret. intros s (Hq & Hm & Hst & Hp). split_and!; try done.
    exists 0%nat. by rewrite take_0, app_nil_r.
  - destruct remaining as [|d0 ds].
    { apply triple_ret. intros s (Hq & Hm & Hst & Hp). split_and!; try done.
      exists 0%nat. by rewrite take_0, app_nil_r. }
    cbn [QueueService.process_loop].
    apply triple_bind with
      (R := λ _ s, request_queue s = q0 ∧ requests s = m0
          ∧ (∀ r, r ∉ processed → RideRequest.status (req s r) = st0 r)
          ∧ (∀ p, p ∈ processed → RideRequest.status (req s p) = assigned));
      [by apply triple_gets|].
    intros s0.
    destruct (find_best_driver_result (drv s0) (d0 :: ds) (req s0 q))
      as [[? _]|(best & _ & Hfind)]; [done|].
    rewrite Hfind.
    apply triple_bind with
      (R := λ _ s, request_queue s = q0 ∧ requests s = m0
          ∧ (∀ r, r ∉ processed ++ [q] → RideRequest.status (req s r) = st0 r)
          ∧ (∀ p, p ∈ processed ++ [q] → RideRequest.status (req s p) = assigned)).
    { intros s (Hq & Hm & Hst & Hp).
      unfold QueueService._assign_request_to_driver. mrun. split_and!; try done.
      - intros r Hr. simpl. rewrite fn_lookup_insert_ne.
        + apply Hst. intros Hin. apply Hr, elem_of_app. by left.
        + intros ->. apply Hr, elem_of_app. right. by apply list_elem_of_singleton.
      - intros p Hin. simpl. destruct (decide (p = q)) as [->|Hne].
        + by rewrite fn_lookup_insert.
        + rewrite fn_lookup_insert_ne by done. apply Hp.
          by apply elem_of_app in Hin as [?|?%list_elem_of_singleton]. }
    intros _.
    apply triple_bind with
      (R := λ _ s, request_queue s = q0 ∧ requests s = m0
          ∧ (∀ r, r ∉ processed ++ [q] → RideRequest.status (req s r) = st0 r)
          ∧ (∀ p, p ∈ processed ++ [q] → RideRequest.status (req s p) = assigned));
      [by apply triple_gets|].
    intros s1. eapply triple_conseq; [apply IH|..]; simpl; [done| |done].
    intros res s (Hq & Hm & Hst & Hp & k & ->). split_and!; try done.
    exists (S k). by rewrite <- app_assoc.
Qed.

Lemma queue_invariant_process_queue (pool : list nat) :
  triple queue_invariant (QueueService.process_queue pool)
    (λ res s, queue_invariant s
              ∧ ∀ p, p ∈ res → RideRequest.status (req s p) = assigned)
    (λ _ _, False).
Proof.
  assert (∀ s, queue_invariant s →
               queue_invariant s
               ∧ ∀ p, p ∈ @nil nat → RideRequest.status (req s p) = assigned) as Hnil.
  { intros s Hs. split; [done|]. intros p Hp. by apply elem_of_nil in Hp. }
  unfold QueueService.process_queue.
  destruct pool as [|d0 ds]; [by apply triple_ret|].
  apply triple_bind with (R := λ _, queue_invariant); [by apply triple_gets|].
  intros [|]; [by apply triple_ret|].
  apply triple_bind with (R := λ qc s, queue_invariant s ∧ qc = request_queue s);
    [by apply triple_gets|].
  intros qc. apply triple_pre. intros s [[Hnd Hq] ->].
  apply triple_bind with
    (R := λ res s1, request_queue s1 = request_queue s ∧ requests s1 = requests s
              ∧ (∀ r, r ∉ res → RideRequest.status (req s1 r) = RideRequest.status (req s r))
              ∧ (∀ p, p ∈ res → RideRequest.status (req s1 p) = assigned)
              ∧ ∃ k, res = [] ++ take k (request_queue s)).
  { eapply triple_conseq;
      [apply (process_loop_statuses (request_queue s) (requests s)
                (λ r, RideRequest.status (req s r)))|..]; simpl; [|done|done].
    intros ? ->. split_and!; try done. intros p Hp. by apply elem_of_nil in Hp. }
  intros res. apply triple_pre. intros s1 (Hq1 & Hm1 & Hst & Hp & k & ->).
  rewrite app_nil_l in *.
  apply triple_bind with
    (R := λ _ s', s' = set_request_queue (drop k (request_queue s)) s1).
  { intros ? ->.
    rewrite (remove_prefix_from_queue (take k (request_queue s))
               (drop k (request_queue s)) s1); [done|].
    by rewrite Hq1, take_drop. }
  intros _. apply triple_ret. intros ? ->. split; [|done].
  pose proof Hnd as Hnd'. rewrite <- (take_drop k (request_queue s)) in Hnd'.
  apply list.NoDup_app in Hnd' as (_ & Hdisj & Hdrop).
  unfold queue_invariant, registered. simpl. rewrite Hm1. split; [done|].
  intros r. split.
  - intros Hr.
    assert (r ∉ take k (request_queue s)) as Hnot by (intros Hin; by apply (Hdisj r)).
    rewrite (Hst r Hnot). apply Hq.
    rewrite <- (take_drop k (request_queue s)). apply elem_of_app. by right.
  - intros [Hreg Hw].
    assert (r ∉ take k (request_queue s)) as Hnot.
    { intros Hin. by rewrite (Hp r Hin) in Hw. }
    rewrite (Hst r Hnot) in Hw.
    assert (r ∈ request_queue s) as Hin by (by apply Hq).
    rewrite <- (take_drop k (request_queue s)) in Hin.
    by apply elem_of_app in Hin as [?|?].
Qed.

Lemma queue_invariant__process_queue :
  triple queue_invariant SimulationEngine._process_queue
    (λ _, queue_invariant) (λ _, queue_invariant).
Proof.
  unfold SimulationEngine._process_queue.
  apply triple_bind with (R := λ _, queue_invariant); [by apply triple_gets|].
  intros pool.
  apply triple_bind with
    (R := λ res s, queue_invariant s
              ∧ ∀ p, p ∈ res → RideRequest.status (req s p) = assigned).
  { eapply triple_conseq; [apply queue_invariant_process_queue|..]; done. }
  intros processed.
  apply triple_conseq with
    (P' := λ s, queue_invariant s
              ∧ ∀ p, p ∈ processed → RideRequest.status (req s p) = assigned)
    (Q' := λ _ s, queue_invariant s
              ∧ ∀ p, p ∈ processed → RideRequest.status (req s p) = assigned)
    (E' := λ _ s, queue_invariant s
              ∧ ∀ p, p ∈ processed → RideRequest.status (req s p) = assigned);
    [apply triple_for_each|done|by intros _ s [? _]|by intros _ s [? _]].
  intros p Hp.
  apply triple_bind with
    (R := λ _ s, queue_invariant s
              ∧ ∀ p, p ∈ processed → RideRequest.status (req s p) = assigned);
    [by apply triple_gets|].
  intros rq s [Hs Hall]. unfold RequestService.assign_request. mrun.
  assert (∀ r, RideRequest.status
                 ((<[p := RideRequest.mk (RideRequest.id (req s p))
                            (RideRequest.rider_id (req s p)) assigned
                            (RideRequest.pickup_x (req s p)) (RideRequest.pickup_y (req s p))
                            (RideRequest.dropoff_x (req s p)) (RideRequest.dropoff_y (req s p))
                            (RideRequest.assigned_driver_id (req s p))]> (req s)) r)
               = RideRequest.status (req s r)) as Hsame.
  { intros r. destruct (decide (r = p)) as [->|Hne].
    - rewrite fn_lookup_insert. simpl. symmetry. by apply Hall.
    - by rewrite fn_lookup_insert_ne. }
  destruct (RideRequest.assigned_driver_id rq); simpl; (split;
    [apply queue_invariant_view with (s := s); [done|done| |done];
     intros r; simpl; by rewrite Hsame
    |intros p' Hp'; simpl; rewrite Hsame; by apply Hall]).
Qed.

Lemma queue_invariant__complete_trip (b r : nat) :
  triple (λ s, queue_invariant s ∧ RideRequest.status (req s r) ≠ waiting)
    (SimulationEngine._complete_trip b r)
    (λ _, queue_invariant) (λ _, queue_invariant).
Proof.
  unfold SimulationEngine._complete_trip.
  apply triple_bind with (R := λ _, queue_invariant).
  { intros s [Hs Hr]. unfold RequestService.complete_request. mrun.
    apply queue_invariant_view with (s := s); [done|done| |done].
    intros r'. simpl. destruct (decide (r' = r)) as [->|Hne].
    - rewrite fn_lookup_insert. simpl. split; [done|by intros ?].
    - by rewrite fn_lookup_insert_ne. }
  intros _. apply triple_bind with (R := λ _, queue_invariant).
  { intros s Hs. by apply queue_invariant_drivers with (s := s). }
  intros _. apply triple_bind with (R := λ _, queue_invariant); [by apply triple_gets|].
  intros rq. apply triple_bind with (R := λ _, queue_invariant).
  - apply triple_total. intros s Hs. by apply queue_invariant_remove_rider.
  - intros _. apply queue_invariant__process_queue.
Qed.

Lemma queue_invariant__move_driver_one_step (b : nat) :
  triple (λ s, queue_invariant s ∧ engine_invariant s ∧ b ∈ drivers s)
    (SimulationEngine._move_driver_one_step b)
    (λ _, queue_invariant) (λ _, queue_invariant).
Proof.
  unfold SimulationEngine._move_driver_one_step.
  apply triple_bind with
    (R := λ _ s, queue_invariant s ∧ engine_invariant s ∧ b ∈ drivers s).
  { intros s (Hq & Hs & Hb).
    pose proof (invariant_move_driver_one_step b s Hs) as Hs'.
    unfold DriverService.move_driver_one_step in *. revert Hs'. mrun.
    destruct (Driver.targetX (drv s b)); [|done].
    destruct (Driver.targetY (drv s b)); [|done].
    mrun. intros Hs'. split_and!; [|done|done].
    by apply queue_invariant_drivers with (s := s). }
  intros _.
  apply triple_bind with
    (R := λ dv s, (queue_invariant s ∧ engine_invariant s ∧ b ∈ drivers s)
                  ∧ dv = drv s b); [by apply triple_gets|].
  intros dv.
  destruct (Driver.targetX dv) as [tx|]; [|apply triple_ret; by intros s [[? _] _]].
  destruct (Driver.targetY dv) as [ty|]; [|apply triple_ret; by intros s [[? _] _]].
  destruct (decide _); [|apply triple_ret; by intros s [[? _] _]].
  apply triple_bind with
    (R := λ request s, (queue_invariant s ∧ engine_invariant s ∧ b ∈ drivers s)
                  ∧ dv = drv s b
                  ∧ request = match Driver.assignedRequestId dv with
                              | Some k => requests s !! k
                              | None => None
                              end); [by apply triple_gets; intros s [? ?]|].
  intros [r|]; [|apply triple_ret; by intros s [[? _] _]].
  destruct (Driver.tripPhase dv) as [[|]|];
    [| |apply triple_ret; by intros s [[? _] _]].
  - apply triple_bind with (R := λ _, queue_invariant);
      [apply triple_gets; by intros s [[? _] _]|].
    intros rq. apply triple_modify. intros s Hs.
    by apply queue_invariant_drivers with (s := s).
  - eapply triple_conseq; [apply queue_invariant__complete_trip|..]; simpl;
      [|done|done].
    intros s ((Hq & Hs & Hb) & -> & Hr). split; [done|].
    destruct (Driver.assignedRequestId (drv s b)) as [k|] eqn:Hk; [|done].
    destruct (inv_drivers s Hs b Hb) as (_ & _ & Hreq).
    destruct (Hreq k Hk) as [_ Hassigned].
    rewrite (Hassigned r) by done. done.
Qed.

Lemma queue_invariant_advance_tick :
  triple (λ s, queue_invariant s ∧ engine_invariant s)
    SimulationEngine.advance_tick
    (λ _, queue_invariant) (λ _, queue_invariant).
Proof.
  apply triple_pre. intros s0 [Hq0 Hs0].
  unfold SimulationEngine.advance_tick.
  set (I := λ s, (queue_invariant s ∧ engine_invariant s)
                 ∧ (drivers s = drivers s0 ∧ next_drv s = next_drv s0 ∧ True)).
  apply triple_bind with
    (R := λ busy s, I s ∧ ∀ b, b ∈ busy → b ∈ drivers s0).
  { apply triple_gets. intros ? ->. split; [done|].
    intros b Hb. by apply list_elem_of_filter in Hb as [_ ?]. }
  intros busy. apply triple_pre. intros s1 [HI Hbusy].
  apply triple_bind with (R := λ _, I).
  { apply triple_conseq with (P' := I) (Q' := λ _, I) (E' := λ _ s, queue_invariant s);
      [|by intros ? ->|done|done].
    apply triple_for_each. intros b Hb.
    assert (triple I (SimulationEngine._move_driver_one_step b)
              (λ _, queue_invariant) (λ _, queue_invariant)) as T1.
    { eapply triple_conseq; [apply (queue_invariant__move_driver_one_step b)|..];
        simpl; [|done|done].
      intros s [[Hq Hs] (Hl & Hn & _)]. split_and!; try done.
      rewrite Hl. by apply Hbusy. }
    assert (triple I (SimulationEngine._move_driver_one_step b)
              (λ _, engine_invariant) (λ _, engine_invariant)) as T2.
    { eapply triple_conseq; [apply (triple_invariant__move_driver_one_step b)|..];
        simpl; [|done|done].
      by intros s [[Hq Hs] _]. }
    assert (triple I (SimulationEngine._move_driver_one_step b)
              (λ _ s, drivers s = drivers s0 ∧ next_drv s = next_drv s0 ∧ True)
              (λ _ s, drivers s = drivers s0 ∧ next_drv s = next_drv s0 ∧ True)) as T3.
    { eapply triple_conseq;
        [by apply (frame__move_driver_one_step 0%nat (drivers s0) (next_drv s0)
                     (λ _, True))|..]; simpl; [|done|done].
      by intros s [_ ?]. }
    intros s Hs. specialize (T1 s Hs). specialize (T2 s Hs). specialize (T3 s Hs).
    by destruct (SimulationEngine._move_driver_one_step b s) as [s' [[]|e]]. }
  intros _. apply triple_bind with (R := λ _, I); [by apply triple_gets|].
  intros idle. apply triple_bind with (R := λ _, queue_invariant).
  { apply triple_conseq with (P' := queue_invariant) (Q' := λ _, queue_invariant)
                             (E' := λ _, queue_invariant);
      [|by intros ? [[? _] _]|done|done].
    apply triple_for_each. intros b _ s Hs.
    by apply queue_invariant_drivers with (s := s). }
  intros _. apply queue_invariant__process_queue.
Qed.

Lemma queue_invariant_add_driver (x y : Z) :
  triple queue_invariant (SimulationEngine.add_driver x y)
    (λ _, queue_invariant) (λ _, queue_invariant).
Proof.
  unfold SimulationEngine.add_driver.
  apply triple_bind with (R := λ _, queue_invariant).
  - intros s Hs. unfold DriverService.add_driver.
    destruct (bool_decide _); [|done].
    unfold DriverService.generate_driver_id. mrun.
    by apply queue_invariant_drivers with (s := s).
  - intros d. apply triple_bind with (R := λ _, queue_invariant).
    + apply queue_invariant__process_queue.
    + intros _. by apply triple_ret.
Qed.

Lemma queue_invariant_perform (o : operation) (s : State) :
  engine_invariant s → queue_invariant s → queue_invariant (perform o s).
Proof.
  intros Hs Hq. destruct o; unfold perform.
  - by apply (triple_final _ _ _ s (queue_invariant_add_driver x y)).
  - unfold SimulationEngine.remove_driver, DriverService.remove_driver. mrun.
    destruct (DriverService.remove_first_with_id _ _ _) as [l|]; [|done].
    by apply queue_invariant_drivers with (s := s).
  - unfold SimulationEngine.add_rider. unfold bind at 1.
    pose proof (triple_run _ _ _ _ s
      (triple_invariant_rider_service_add_rider pickup_x pickup_y dropoff_x dropoff_y)
      Hs) as Hadd.
    destruct (rider_service_add_rider_cases pickup_x pickup_y dropoff_x dropoff_y s)
      as [Heq | Heq]; rewrite Heq in Hadd |- *; [done|].
    destruct Hadd as [Hs' _].
    apply (queue_invariant_place (λ r, (_, r))); [done|].
    by apply queue_invariant_drivers with (s := s).
  - by apply queue_invariant_remove_rider.
  - unfold SimulationEngine.create_request. unfold bind at 1.
    unfold RiderService.get_rider, gets.
    destruct (riders s !! rider_id) as [rider|]; [|done].
    by apply (queue_invariant_place Some).
  - by apply (triple_final _ _ _ s queue_invariant_advance_tick).
  - unfold SimulationEngine.reset, DriverService.clear_drivers,
      RiderService.clear_riders, RequestService.clear_requests,
      QueueService.clear_queue. mrun.
    split; simpl; [apply NoDup_nil_2|].
    intros r. split; [by intros ?%elem_of_nil|].
    intros [[k Hk] _]. simpl in Hk. by rewrite lookup_empty in Hk.
Qed.

Lemma reachable_queue_invariant (s : State) : reachable s → queue_invariant s.
Proof.
  induction 1 as [|s o Hs IH].
  - split; simpl; [apply NoDup_nil_2|].
    intros r. split; [by intros ?%elem_of_nil|].
    intros [[k Hk] _]. simpl in Hk. by rewrite lookup_empty in Hk.
  - apply queue_invariant_perform; [by apply reachable_invariant|done].
Qed.

(** X19: In every state that a sequence of public operations reaches, the queue
    holds exactly the requests of the registry whose status is waiting,
    each of them once: no waiting rider is lost from the queue, and no
    request that is assigned, completed or removed stays in it. *)
Theorem reachable_queue_holds_waiting (s : State) :
  reachable s →
  NoDup (request_queue s)
  ∧ ∀ r, r ∈ request_queue s
         ↔ registered s r ∧ RideRequest.status (req s r) = waiting.
Proof. apply reachable_queue_invariant. Qed.

Lemma reachable_queue_holds_waiting_witness :
  NoDup (request_queue (perform (op_add_rider 8 8 0 0) rider_waiting))
  ∧ ∀ r, r ∈ request_queue (perform (op_add_rider 8 8 0 0) rider_waiting)
         ↔ registered (perform (op_add_rider 8 8 0 0) rider_waiting) r
           ∧ RideRequest.status (req (perform (op_add_rider 8 8 0 0) rider_waiting) r)
             = waiting.
Proof.
  apply (reachable_queue_holds_waiting (perform (op_add_rider 8 8 0 0) rider_waiting)).
  constructor. constructor. constructor.
Defined.

Lemma registry_values_nodup (s : State) :
  engine_invariant s → NoDup (RequestService.list_requests s).
Proof.
  intros [_ _ _ _ Hreg]. unfold RequestService.list_requests.
  apply NoDup_fmap_2_strong; [|apply NoDup_map_to_list].
  intros [k1 r1] [k2 r2] H1%elem_of_map_to_list H2%elem_of_map_to_list. simpl.
  intros <-. destruct (Hreg _ _ H1) as [<- _]. by destruct (Hreg _ _ H2) as [<- _].
Qed.

(** X20: In every reachable state the two numbers that [get_queue_info] reports
    agree: the length of the queue is the number of waiting requests of the
    registry. *)
Theorem reachable_queue_length (s : State) :
  reachable s →
  (QueueService.get_queue_length s).2
  = Ok (length (RequestService.get_waiting_requests s)).
Proof.
  intros Hs. unfold QueueService.get_queue_length, gets. simpl. f_equal.
  destruct (reachable_queue_invariant s Hs) as [Hnd Hq].
  apply Permutation_length, NoDup_Permutation; [done| |].
  - unfold RequestService.get_waiting_requests, RequestService.get_requests_by_status.
    apply list.NoDup_filter, registry_values_nodup. by apply reachable_invariant.
  - intros r. rewrite Hq.
    unfold RequestService.get_waiting_requests, RequestService.get_requests_by_status,
      RequestService.list_requests, registered.
    rewrite list_elem_of_filter, list_elem_of_fmap. split.
    + intros [[k Hk] Hw]. split; [done|]. exists (k, r). split; [done|].
      by apply elem_of_map_to_list.
    + intros [Hw [[k r'] [-> Hin]]]. split; [|done]. exists k.
      by apply elem_of_map_to_list.
Qed.

Lemma reachable_queue_length_witness :
  (QueueService.get_queue_length (perform (op_add_rider 8 8 0 0) rider_waiting)).2
  = Ok (length (RequestService.get_waiting_requests
                  (perform (op_add_rider 8 8 0 0) rider_waiting))).
Proof.
  apply (reachable_queue_length (perform (op_add_rider 8 8 0 0) rider_waiting)).
  constructor. constructor. constructor.
Defined.

End queue_registry.

(** ** Reset, repeated requests, arrival at the pickup *)

Section more_operations.

(** X21: [reset] never raises and empties the driver list, the riders, the
    request registry and the queue, whatever the state was, so that
    [get_stats] reports zeros.  All three id counters are back at 0, and
    the objects created before are not written.  So the numbering
    restarts: a driver added next, at a position on the grid, is returned
    and is again called "Driver 1", and a rider added next, with both
    positions on the grid, is again "Rider 1" with the request
    "Request 1", which waits alone in the queue. *)
Theorem reset_restarts (s : State) (x y px py dx dy : Z) :
  let s0 := (SimulationEngine.reset s).1 in
  (SimulationEngine.reset s).2 = Ok tt
  ∧ drivers s0 = [] ∧ riders s0 = ∅ ∧ requests s0 = ∅ ∧ request_queue s0 = []
  ∧ SimulationEngine.get_stats s0 = SimulationStats.mk 0 0 0 0 0 0
  ∧ (0 ≤ x < DEFAULT_GRID_WIDTH ∧ 0 ≤ y < DEFAULT_GRID_HEIGHT →
     (SimulationEngine.add_driver x y s0).2 = Ok (next_drv s)
     ∧ Driver.id (drv (SimulationEngine.add_driver x y s0).1 (next_drv s)) = "Driver 1"
     ∧ drivers (SimulationEngine.add_driver x y s0).1 = [next_drv s])
  ∧ driver_counter s0 = 0%nat ∧ rider_counter s0 = 0%nat
  ∧ request_counter s0 = 0%nat
  ∧ drv s0 = drv s ∧ next_drv s0 = next_drv s
  ∧ req s0 = req s ∧ next_req s0 = next_req s
  ∧ (0 ≤ px < DEFAULT_GRID_WIDTH ∧ 0 ≤ py < DEFAULT_GRID_HEIGHT →
     0 ≤ dx < DEFAULT_GRID_WIDTH ∧ 0 ≤ dy < DEFAULT_GRID_HEIGHT →
     let s1 := (SimulationEngine.add_rider px py dx dy s0).1 in
     (SimulationEngine.add_rider px py dx dy s0).2
     = Ok (Rider.mk "Rider 1" px py dx dy, next_req s)
     ∧ req s1 (next_req s)
       = RideRequest.mk "Request 1" "Rider 1" waiting px py dx dy None
     ∧ riders s1 = {[ "Rider 1" := Rider.mk "Rider 1" px py dx dy ]}
     ∧ requests s1 = {[ "Request 1" := next_req s ]}
     ∧ request_queue s1 = [next_req s]).
Proof.
  intros s0. subst s0.
  assert (SimulationEngine.reset s
          = (set_request_queue []
               (set_request_counter 0
                  (set_requests ∅
                     (set_rider_counter 0
                        (set_riders ∅
                           (set_driver_counter 0 (set_drivers [] s)))))), Ok tt)) as ->
    by done.
  cbn [fst snd].
  set (s0 := set_request_queue [] _).
  split_and!; try done.
  - intros Hin.
    set (v := Driver.mk "Driver 1" x y available 0 0 None None None None).
    set (s1 := set_drivers [next_drv s]
                 (set_drv (<[next_drv s := v]> (drv s))
                    (set_next_drv (S (next_drv s)) (set_driver_counter 1 s0)))).
    assert (DriverService.add_driver x y s0 = (s1, Ok (next_drv s))) as Hadd.
    { unfold DriverService.add_driver. by rewrite bool_decide_true by done. }
    assert (SimulationEngine.add_driver x y s0 = (s1, Ok (next_drv s))) as ->.
    { unfold SimulationEngine.add_driver, bind. rewrite Hadd.
      destruct (_process_queue_cases s1) as [Hret _].
      rewrite Hret; [done|]. by left. }
    subst s1. cbn. by rewrite fn_lookup_insert.
  - intros Hp Hd.
    destruct (SimulationEngine.add_rider px py dx dy s0) as [s1 out] eqn:Heq.
    cbn [fst snd]. unfold SimulationEngine.add_rider in Heq.
    unfold bind at 1 in Heq.
    assert (RiderService.add_rider px py dx dy s0
            = (set_riders (<["Rider 1" := Rider.mk "Rider 1" px py dx dy]> (riders s0))
                 (set_rider_counter 1 s0), Ok (Rider.mk "Rider 1" px py dx dy)))
      as Hadd.
    { unfold RiderService.add_rider, RiderService._is_valid_position.
      by rewrite !bool_decide_eq_true_2 by done. }
    rewrite Hadd in Heq.
    apply (place_request (λ r, (Rider.mk "Rider 1" px py dx dy, r))) in Heq.
    cbn zeta in Heq.
    destruct Heq as (-> & Hrequests & _ & _ & Hriders & _ & _ & _ & _ & _ & Hcase).
    cbn in Hcase. destruct Hcase as (_ & Hreq & _ & Hqueue).
    split_and!; [done|exact Hreq| | |exact Hqueue].
    + rewrite Hriders. cbn. apply insert_empty.
    + rewrite Hrequests. cbn. apply insert_empty.
Qed.

Lemma reset_restarts_witness :
  (SimulationEngine.add_rider 1 1 5 5 (SimulationEngine.reset trip_started).1).2
  = Ok (Rider.mk "Rider 1" 1 1 5 5, next_req trip_started).
Proof.
  assert (0 ≤ 1 < DEFAULT_GRID_WIDTH ∧ 0 ≤ 1 < DEFAULT_GRID_HEIGHT) as Hp
    by (unfold DEFAULT_GRID_WIDTH, DEFAULT_GRID_HEIGHT; lia).
  assert (0 ≤ 5 < DEFAULT_GRID_WIDTH ∧ 0 ≤ 5 < DEFAULT_GRID_HEIGHT) as Hd
    by (unfold DEFAULT_GRID_WIDTH, DEFAULT_GRID_HEIGHT; lia).
  destruct (reset_restarts trip_started 0 0 1 1 5 5)
    as (_ & _ & _ & _ & _ & _ & _ & _ & _ & _ & _ & _ & _ & _ & Hrider).
  by destruct (Hrider Hp Hd) as [Hout _].
Defined.

(** X22: [create_request] of the engine for an unknown rider returns [None] and
    changes nothing. For a registered rider it never raises: it registers
    a new request that copies the rider's positions, and either assigns it
    at once, when some driver is available, or appends it to the end of
    the queue as a waiting request. *)
Theorem create_request_places_request (rider_id : string) (s : State) :
  match riders s !! rider_id with
  | None => SimulationEngine.create_request rider_id s = (s, Ok None)
  | Some rider =>
      let s' := (SimulationEngine.create_request rider_id s).1 in
      let request := next_req s in
      let idle := filter (λ d, Driver.status (drv s d) = available) (drivers s) in
      (SimulationEngine.create_request rider_id s).2 = Ok (Some request)
      ∧ requests s' = <["Request " +:+ pretty (S (request_counter s)) := request]>
                        (requests s)
      ∧ riders s' = riders s ∧ drivers s' = drivers s
      ∧ RideRequest.rider_id (req s' request) = Rider.id rider
      ∧ RideRequest.pickup_x (req s' request) = Rider.pickup_x rider
      ∧ RideRequest.pickup_y (req s' request) = Rider.pickup_y rider
      ∧ RideRequest.dropoff_x (req s' request) = Rider.dropoff_x rider
      ∧ RideRequest.dropoff_y (req s' request) = Rider.dropoff_y rider
      ∧ (idle = [] →
         RideRequest.status (req s' request) = waiting
         ∧ request_queue s' = request_queue s ++ [request]
         ∧ drv s' = drv s)
      ∧ (idle ≠ [] →
         RideRequest.status (req s' request) = assigned
         ∧ request_queue s' = request_queue s)
  end.
Proof.
  destruct (riders s !! rider_id) as [rider|] eqn:Hr.
  - intros s' request idle. subst s'.
    destruct (SimulationEngine.create_request rider_id s) as [s' out] eqn:Heq.
    cbn [fst snd]. unfold SimulationEngine.create_request in Heq.
    unfold bind at 1 in Heq. unfold RiderService.get_rider, gets in Heq.
    rewrite Hr in Heq.
    apply (place_request Some) in Heq. cbn zeta in Heq.
    destruct Heq as (-> & Hrequests & _ & _ & Hriders & _ & Hdrivers & _ & _ & _
                     & Hcase).
    fold idle request in Hcase.
    destruct (ScoringService.find_best_driver _ _ _) as [best|e].
    + destruct Hcase as (Hbest & Hnew & _ & _ & Hq). rewrite Hnew. simpl.
      split_and!; try done.
      intros Hnil. rewrite Hnil in Hbest. by apply elem_of_nil in Hbest.
    + destruct Hcase as (Hnil & Hnew & Hdrv & Hq). rewrite Hnew. simpl.
      split_and!; try done.
  - unfold SimulationEngine.create_request, bind, RiderService.get_rider, gets.
    by rewrite Hr.
Qed.

(** X23: [_move_driver_one_step] for a driver that heads for the pickup of a
    request of the registry never raises. It moves the driver one step;
    when that step reaches the target, the driver is switched to the
    dropoff phase with the dropoff of the request as its new target, and
    otherwise only the position changes. No other driver and no request is
    written. *)
Theorem move_to_pickup (b r : nat) (k : string) (tx ty : Z) (s : State) :
  Driver.tripPhase (drv s b) = Some to_pickup →
  Driver.targetX (drv s b) = Some tx → Driver.targetY (drv s b) = Some ty →
  Driver.assignedRequestId (drv s b) = Some k → requests s !! k = Some r →
  let v := drv s b in
  let x' := step_toward (Driver.x v) tx in
  let y' := step_toward (Driver.y v) ty in
  let s' := (SimulationEngine._move_driver_one_step b s).1 in
  (SimulationEngine._move_driver_one_step b s).2 = Ok tt
  ∧ drv s' b
    = (if decide (x' = tx ∧ y' = ty)
       then Driver.mk (Driver.id v) x' y' (Driver.status v) (Driver.totalTrips v)
              (Driver.idleTicks v) (Some k) (Some to_dropoff)
              (Some (RideRequest.dropoff_x (req s r)))
              (Some (RideRequest.dropoff_y (req s r)))
       else Driver.mk (Driver.id v) x' y' (Driver.status v) (Driver.totalTrips v)
              (Driver.idleTicks v) (Some k) (Some to_pickup) (Some tx) (Some ty))
  ∧ (∀ d, d ≠ b → drv s' d = drv s d)
  ∧ req s' = req s ∧ requests s' = requests s ∧ riders s' = riders s
  ∧ drivers s' = drivers s ∧ request_queue s' = request_queue s.
Proof.
  intros Hphase Hx Hy Hk Hr v x' y' s'. subst s' x' y' v.
  unfold SimulationEngine._move_driver_one_step, DriverService.move_driver_one_step,
    RequestService.get_request.
  mrun. rewrite Hx, Hy. mrun. rewrite !fn_lookup_insert. cbn.
  fold (step_toward (Driver.x (drv s b)) tx) (step_toward (Driver.y (drv s b)) ty).
  destruct (decide (step_toward (Driver.x (drv s b)) tx = tx
                    ∧ step_toward (Driver.y (drv s b)) ty = ty)) as [Harr|Hnot].
  - rewrite Hk. cbn. rewrite Hr, Hphase. mrun. rewrite fn_lookup_insert.
    split_and!; try done.
    intros d Hne. by rewrite !fn_lookup_insert_ne.
  - cbn. rewrite fn_lookup_insert. rewrite Hk, Hphase. split_and!; try done.
    intros d Hne. by rewrite fn_lookup_insert_ne.
Qed.

Lemma move_to_pickup_witness :
  Driver.tripPhase (drv (SimulationEngine._move_driver_one_step 0 trip_started).1 0%nat)
  = Some to_dropoff.
Proof.
  assert (Driver.tripPhase (drv trip_started 0%nat) = Some to_pickup) as H1
    by (vm_compute; reflexivity).
  assert (Driver.targetX (drv trip_started 0%nat) = Some 0) as H2
    by (vm_compute; reflexivity).
  assert (Driver.targetY (drv trip_started 0%nat) = Some 1) as H3
    by (vm_compute; reflexivity).
  assert (Driver.assignedRequestId (drv trip_started 0%nat) = Some "Request 1") as H4
    by (vm_compute; reflexivity).
  assert (requests trip_started !! "Request 1" = Some 0%nat) as H5
    by (vm_compute; reflexivity).
  destruct (move_to_pickup 0%nat 0%nat "Request 1" 0 1 trip_started H1 H2 H3 H4 H5)
    as (_ & Hv & _).
  rewrite Hv. vm_compute. reflexivity.
Defined.

End more_operations.

(** ** A driver whose request is gone *)

Section stranded_driver.

Variables (k : string) (b : nat).

Let held (s : State) : Prop :=
  stranded k b s ∧ ∃ n, (n ≤ request_counter s)%nat ∧ k = req_id n.

Lemma held_view (s s' : State) :
  drv s' b = drv s b → requests s' = requests s →
  request_counter s' = request_counter s →
  held s → held s'.
Proof. unfold held, stranded. by intros -> -> ->. Qed.

Lemma held_write (s : State) (d : nat) (v : Driver.t) :
  (d = b → Driver.status v = Driver.status (drv s b)
           ∧ Driver.assignedRequestId v = Driver.assignedRequestId (drv s b)) →
  held s → held (set_drv (<[d := v]> (drv s)) s).
Proof.
  intros Hv [(Hst & Hk & Hreg) Hn]. split; [|done]. unfold stranded. simpl.
  destruct (decide (d = b)) as [->|Hne].
  - rewrite fn_lookup_insert. destruct Hv as [-> ->]; done.
  - by rewrite fn_lookup_insert_ne.
Qed.

Lemma held_queue_assign (q best : nat) E :
  triple (λ s, held s ∧ Driver.status (drv s best) = available)
    (QueueService._assign_request_to_driver q best) (λ _, held) E.
Proof.
  intros s [Hs Hav]. unfold QueueService._assign_request_to_driver. mrun.
  destruct Hs as [(Hst & Hk & Hreg) Hn]. split; [|done]. unfold stranded. simpl.
  rewrite fn_lookup_insert_ne; [done|]. intros ->. congruence.
Qed.

Lemma held_engine_assign (q best : nat) E :
  triple (λ s, held s ∧ Driver.status (drv s best) = available)
    (SimulationEngine._assign_request_to_driver q best) (λ _, held) E.
Proof.
  intros s [Hs Hav].
  unfold SimulationEngine._assign_request_to_driver, RequestService.assign_request.
  mrun.
  destruct Hs as [(Hst & Hk & Hreg) Hn]. split; [|done]. unfold stranded. simpl.
  rewrite fn_lookup_insert_ne; [done|]. intros ->. congruence.
Qed.

Lemma held_process_loop (queue_copy remaining processed : list nat) :
  triple
    (λ s, held s ∧ ∀ d, d ∈ remaining → Driver.status (drv s d) = available)
    (QueueService.process_loop queue_copy remaining processed)
    (λ _, held) (λ _ _, False).
Proof.
  revert remaining processed.
  induction queue_copy as [|q rest IH]; intros remaining processed.
  - apply triple_ret. by intros s [? _].
  - destruct remaining as [|d0 ds]; [apply triple_ret; by intros s [? _]|].
    cbn [QueueService.process_loop]. set (remaining := d0 :: ds).
    apply triple_pre. intros s [Hs Hav].
    apply triple_bind with (R := λ s1 s', s' = s ∧ s1 = s); [by apply triple_gets|].
    intros s1.
    destruct (find_best_driver_result (drv s1) remaining (req s1 q))
      as [[? _]|(best & Hbest & Hfind)]; [done|].
    rewrite Hfind.
    set (s2 := (QueueService._assign_request_to_driver q best s).1).
    apply triple_bind with (R := λ _ s', s' = s2).
    { apply triple_returns with (f := λ _, tt); [done|]. by intros s' [-> _]. }
    intros _.
    apply triple_bind with (R := λ s2' s', s' = s2 ∧ s2' = s2); [by apply triple_gets|].
    intros s2'. apply triple_pre. intros s' [-> ->].
    destruct (queue_assign_status q best s) as (Hst & Hother & _).
    fold s2 in Hst, Hother.
    eapply triple_conseq; [apply IH|..]; simpl; [|done|done].
    intros s' ->. split.
    + pose proof (triple_run _ _ _ _ s (held_queue_assign q best (λ _ _, False))
                    (conj Hs (Hav best Hbest))) as H.
      fold s2. unfold s2.
      by destruct (QueueService._assign_request_to_driver q best s) as [s' [[]|e]].
    + intros d [Hid Hd]%list_elem_of_filter.
      rewrite Hother; [by apply Hav|]. by intros ->.
Qed.

Lemma held__process_queue :
  triple held SimulationEngine._process_queue (λ _, held) (λ _, held).
Proof.
  unfold SimulationEngine._process_queue.
  apply triple_bind with
    (R := λ pool s, held s ∧ ∀ d, d ∈ pool → Driver.status (drv s d) = available).
  { apply triple_gets. intros s Hs. split; [done|].
    intros d Hd. by apply list_elem_of_filter in Hd as [? _]. }
  intros pool. apply triple_bind with (R := λ _, held).
  - unfold QueueService.process_queue.
    destruct pool as [|d0 ds]; [apply triple_ret; by intros s [? _]|].
    apply triple_bind with
      (R := λ _ s, held s
                   ∧ ∀ d, d ∈ d0 :: ds → Driver.status (drv s d) = available);
      [by apply triple_gets|].
    intros [|]; [apply triple_ret; by intros s [? _]|].
    apply triple_bind with
      (R := λ _ s, held s
                   ∧ ∀ d, d ∈ d0 :: ds → Driver.status (drv s d) = available);
      [by apply triple_gets|].
    intros queue_copy.
    apply triple_bind with (R := λ _, held).
    { eapply triple_conseq; [apply held_process_loop|..]; done. }
    intros processed. apply triple_bind with (R := λ _, held).
    + apply triple_for_each. intros r _ s Hs. by apply held_view with (s := s).
    + intros _. by apply triple_ret.
  - intros processed. apply triple_for_each. intros r _.
    apply triple_bind with (R := λ _, held); [by apply triple_gets|].
    intros rq s Hs. unfold RequestService.assign_request. mrun.
    destruct (RideRequest.assigned_driver_id rq); by apply held_view with (s := s).
Qed.

Lemma held_place {A} (f : nat → A) (rider : Rider.t) (s : State) :
  held s →
  held
    ((let* request := RequestService.create_request rider in
      let* ok := SimulationEngine._try_assign_request request in
      (if (ok : bool) then ret tt else QueueService.add_to_queue request) ;;;
      ret (f request)) s).1.
Proof.
  intros [(Hst & Hk & Hreg) (n & Hn & Hkn)].
  destruct ((let* request := RequestService.create_request rider in
             let* ok := SimulationEngine._try_assign_request request in
             (if (ok : bool) then ret tt else QueueService.add_to_queue request) ;;;
             ret (f request)) s) as [s' out] eqn:Heq.
  apply place_request in Heq. cbn zeta in Heq.
  destruct Heq as (_ & Hrequests & Hcounter & _ & _ & _ & _ & _ & _ & _ & Hcase).
  cbn [fst].
  assert (drv s' b = drv s b) as Hb.
  { destruct (ScoringService.find_best_driver _ _ _) as [best|e].
    - destruct Hcase as (Hbest & _ & _ & Hother & _).
      apply Hother. intros ->. apply list_elem_of_filter in Hbest as [Hav _]. congruence.
    - destruct Hcase as (_ & _ & -> & _). done. }
  split; [|exists n; split; [lia|done]].
  unfold stranded. rewrite Hb, Hrequests. split_and!; try done.
  rewrite lookup_insert_ne; [done|].
  fold (req_id (S (request_counter s))). rewrite Hkn.
  intros Heq%req_id_inj. lia.
Qed.

Lemma held__move_driver_one_step (d : nat) :
  triple held (SimulationEngine._move_driver_one_step d) (λ _, held) (λ _, held).
Proof.
  unfold SimulationEngine._move_driver_one_step.
  apply triple_bind with (R := λ _, held).
  { intros s Hs. unfold DriverService.move_driver_one_step. mrun.
    destruct (Driver.targetX (drv s d)); [|done].
    destruct (Driver.targetY (drv s d)); [|done].
    mrun. apply held_write; [|done]. by intros ->. }
  intros _.
  apply triple_bind with (R := λ dv s, held s ∧ dv = drv s d); [by apply triple_gets|].
  intros dv.
  destruct (Driver.targetX dv) as [tx|]; [|apply triple_ret; by intros s [? ?]].
  destruct (Driver.targetY dv) as [ty|]; [|apply triple_ret; by intros s [? ?]].
  destruct (decide _); [|apply triple_ret; by intros s [? ?]].
  apply triple_bind with
    (R := λ request s, held s ∧ dv = drv s d
            ∧ request = match Driver.assignedRequestId dv with
                        | Some k' => requests s !! k'
                        | None => None
                        end); [by apply triple_gets; intros s [? ?]|].
  intros [r|]; [|apply triple_ret; by intros s [? ?]].
  assert (∀ s, held s ∧ dv = drv s d
               ∧ Some r = match Driver.assignedRequestId dv with
                          | Some k' => requests s !! k'
                          | None => None
                          end → held s ∧ dv = drv s d ∧ d ≠ b) as Hother.
  { intros s (Hs & -> & Hr). split_and!; try done. intros ->.
    destruct Hs as [(_ & Hk & Hreg) _]. rewrite Hk, Hreg in Hr. done. }
  destruct (Driver.tripPhase dv) as [[|]|]; [| |apply triple_ret; by intros s [? ?]].
  - apply triple_bind with (R := λ _ s, held s ∧ dv = drv s d ∧ d ≠ b);
      [apply triple_gets; by intros s ?%Hother|].
    intros rq. apply triple_modify. intros s (Hs & -> & Hne).
    apply held_write; [|done]. by intros ->.
  - unfold SimulationEngine._complete_trip.
    apply triple_bind with (R := λ _ s, held s ∧ d ≠ b).
    { intros s (Hs & _ & Hne)%Hother. split; [|done].
      by apply held_view with (s := s). }
    intros _. apply triple_bind with (R := λ _, held).
    { intros s [Hs Hne]. unfold DriverService.complete_trip. mrun.
      apply held_write; [|done]. by intros ->. }
    intros _. apply triple_bind with (R := λ _, held); [by apply triple_gets|].
    intros rq. apply triple_bind with (R := λ _, held).
    { intros s [(Hst & Hk & Hreg) Hn]. rewrite remove_rider_eq.
      split; [|done]. unfold stranded. simpl. split_and!; try done.
      by apply map_lookup_filter_None_2; left. }
    intros _. apply held__process_queue.
Qed.

Lemma held_advance_tick :
  triple held SimulationEngine.advance_tick (λ _, held) (λ _, held).
Proof.
  unfold SimulationEngine.advance_tick.
  apply triple_bind with (R := λ _, held); [by apply triple_gets|].
  intros busy. apply triple_bind with (R := λ _, held).
  { apply triple_for_each. intros d _. apply held__move_driver_one_step. }
  intros _. apply triple_bind with (R := λ _, held); [by apply triple_gets|].
  intros idle. apply triple_bind with (R := λ _, held).
  { apply triple_for_each. intros d _ s Hs.
    unfold DriverService.increment_idle_ticks. mrun.
    apply held_write; [|done]. by intros ->. }
  intros _. apply held__process_queue.
Qed.

Lemma held_add_driver (x y : Z) :
  triple (λ s, held s ∧ (b < next_drv s)%nat) (SimulationEngine.add_driver x y)
    (λ _, held) (λ _, held).
Proof.
  unfold SimulationEngine.add_driver.
  apply triple_bind with (R := λ _, held).
  - intros s [Hs Hlt]. unfold DriverService.add_driver.
    destruct (bool_decide _); [|done].
    unfold DriverService.generate_driver_id. mrun.
    destruct Hs as [(Hst & Hk & Hreg) Hn]. split; [|done]. unfold stranded. simpl.
    rewrite fn_lookup_insert_ne by lia. done.
  - intros d. apply triple_bind with (R := λ _, held).
    + apply held__process_queue.
    + intros _. by apply triple_ret.
Qed.

Lemma held_perform (o : operation) (s : State) :
  (b < next_drv s)%nat → held s →
  held (perform o s) ∨ drivers (perform o s) = [].
Proof.
  intros Hlt Hs. destruct o; unfold perform.
  - left. by apply (triple_final _ _ _ s (held_add_driver x y)).
  - left. unfold SimulationEngine.remove_driver, DriverService.remove_driver. mrun.
    destruct (DriverService.remove_first_with_id _ _ _) as [l|]; [|done].
    by apply held_view with (s := s).
  - left. unfold SimulationEngine.add_rider. unfold bind at 1.
    destruct (rider_service_add_rider_cases pickup_x pickup_y dropoff_x dropoff_y s)
      as [-> | ->]; [done|].
    apply (held_place (λ r, (_, r))). by apply held_view with (s := s).
  - left. rewrite remove_rider_eq. destruct Hs as [(Hst & Hk & Hreg) Hn].
    split; [|done]. unfold stranded. simpl. split_and!; try done.
    by apply map_lookup_filter_None_2; left.
  - left. unfold SimulationEngine.create_request. unfold bind at 1.
    unfold RiderService.get_rider, gets.
    destruct (riders s !! rider_id) as [rider|]; [|done].
    by apply (held_place Some).
  - left. by apply (triple_final _ _ _ s held_advance_tick).
  - by right.
Qed.

Lemma same_drivers_perform (o : operation) (s : State) :
  (next_drv s ≤ next_drv (perform o s))%nat
  ∧ ∀ d, d ∈ drivers (perform o s) → d ∈ drivers s ∨ (next_drv s ≤ d)%nat.
Proof.
  assert (∀ {A} (m : M A),
            (∀ l n, triple (λ s, drivers s = l ∧ next_drv s = n ∧ True) m
                      (λ _ s, drivers s = l ∧ next_drv s = n ∧ True)
                      (λ _ s, drivers s = l ∧ next_drv s = n ∧ True)) →
            (next_drv s ≤ next_drv (m s).1)%nat
            ∧ ∀ d, d ∈ drivers (m s).1 → d ∈ drivers s ∨ (next_drv s ≤ d)%nat) as Hframe.
  { intros A m Hm.
    destruct (triple_final _ _ m s (Hm (drivers s) (next_drv s))) as (Hl & Hn & _);
      [done|].
    rewrite Hl, Hn. split; [lia|]. intros d Hd. by left. }
  destruct o; unfold perform.
  - unfold SimulationEngine.add_driver. unfold bind at 1 3.
    pose proof (add_driver_out_of_bounds_same x y s) as Hout.
    destruct (DriverService.add_driver x y s) as [s1 [d1|e]] eqn:Hadd.
    2:{ subst s1. simpl. split; [lia|]. intros d Hd. by left. }
    assert (drivers s1 = drivers s ++ [next_drv s] ∧ next_drv s1 = S (next_drv s))
      as [Hl1 Hn1].
    { revert Hadd. unfold DriverService.add_driver.
      destruct (bool_decide _); [|done]. by intros [= <- _]. }
    assert (triple (λ s', drivers s' = drivers s1 ∧ next_drv s' = next_drv s1 ∧ True)
              (SimulationEngine._process_queue ;;; ret d1)
              (λ _ s', drivers s' = drivers s1 ∧ next_drv s' = next_drv s1 ∧ True)
              (λ _ s', drivers s' = drivers s1 ∧ next_drv s' = next_drv s1 ∧ True))
      as Ht.
    { apply triple_bind with
        (R := λ _ s', drivers s' = drivers s1 ∧ next_drv s' = next_drv s1 ∧ True).
      - by apply (frame__process_queue 0%nat (drivers s1) (next_drv s1) (λ _, True)).
      - intros _. by apply triple_ret. }
    destruct (triple_final _ _ _ s1 Ht) as (Hl & Hn & _); [done|].
    rewrite Hl, Hn, Hl1, Hn1. split; [lia|].
    intros d [Hd| ->%list_elem_of_singleton]%elem_of_app; [by left|right; lia].
  - unfold SimulationEngine.remove_driver, DriverService.remove_driver. mrun.
    destruct (DriverService.remove_first_with_id _ _ _) as [l|] eqn:Hl; simpl.
    + split; [lia|]. intros d Hd. left. by eapply elem_of_remove_first_with_id.
    + split; [lia|]. intros d Hd. by left.
  - apply Hframe. intros l n. apply same_drivers_add_rider.
  - apply Hframe. intros l n.
    eapply triple_conseq;
      [by apply (frame_remove_rider 0%nat l n (λ _, True))|..]; done.
  - apply Hframe. intros l n. apply same_drivers_create_request.
  - apply Hframe. intros l n. apply same_drivers_advance_tick.
  - simpl. split; [lia|]. intros d Hd. by apply elem_of_nil in Hd.
Qed.

Lemma stranded_run (ops : list operation) (s : State) :
  (b < next_drv s)%nat → (b ∈ drivers s → held s) →
  b ∈ drivers (run ops s) → held (run ops s).
Proof.
  revert s. induction ops as [|o ops IH]; intros s Hlt Hs; [done|].
  simpl. destruct (same_drivers_perform o s) as [Hn Hl].
  apply IH; [lia|].
  intros Hin. destruct (Hl b Hin) as [Hb|?]; [|lia].
  destruct (held_perform o s Hlt (Hs Hb)) as [?|Hnil]; [done|].
  rewrite Hnil in Hin. by apply elem_of_nil in Hin.
Qed.

End stranded_driver.

Section stranded_theorem.

(** X24: A driver of a reachable state that is on a trip for a request id that
    the registry no longer holds, as happens when its rider is removed in
    the middle of the trip, is never released: whatever operations follow,
    as long as the driver is in the driver list it is still on the trip
    for that request id, and the id is still not in the registry. *)
Theorem stranded_driver_is_never_released (s : State) (b : nat) (k : string)
    (ops : list operation) :
  reachable s → b ∈ drivers s → stranded k b s →
  b ∈ drivers (run ops s) → stranded k b (run ops s).
Proof.
  intros Hs Hb Hst Hin.
  destruct (reachable_drivers_wf s Hs) as [_ Hlt].
  destruct (inv_drivers s (reachable_invariant s Hs) b Hb) as (_ & _ & Hreq).
  destruct Hst as (Hon & Hk & Hreg).
  destruct (Hreq k Hk) as [Hn _].
  by apply (stranded_run k b ops s (Hlt b Hb)).
Qed.

Lemma stranded_driver_is_never_released_witness :
  stranded "Request 1" 0%nat
    (run [op_advance_tick; op_add_rider 3 3 4 4; op_advance_tick]
       (run [op_add_driver 0 0; op_add_rider 0 5 0 10; op_remove_rider "Rider 1"]
          SimulationEngine.initial)).
Proof.
  apply (stranded_driver_is_never_released
           (run [op_add_driver 0 0; op_add_rider 0 5 0 10; op_remove_rider "Rider 1"]
              SimulationEngine.initial)
           0%nat "Request 1"
           [op_advance_tick; op_add_rider 3 3 4 4; op_advance_tick]).
  - apply reachable_run. constructor.
  - vm_compute. left.
  - vm_compute. split_and!; reflexivity.
  - vm_compute. left.
Defined.

End stranded_theorem.
